(** * Universal plotting sheet (danaliv/ups): the numerical core of main.js

    A shallow embedding of [src/main.js]: the angle codec (parsers and
    formatters of latitudes, longitudes, bearings and distances), the
    projection helpers, the intersection engine of [redraw], the pointer
    readout and the event handlers that edit the session state.

    Modelling conventions.
    - A JavaScript string is the list of its UTF-16 code units ([jsstring]).
    - The regular expressions of the source are values of [regex], run by a
      backtracking matcher with JavaScript's priorities (ordered alternation,
      greedy quantifiers, numbered capture groups).
    - Numbers handled by the codec are exact rationals kept in lowest terms;
      the binary rounding of IEEE doubles is abstracted away.
    - Numbers handled by the geometry are real numbers extended with the
      IEEE special values (NaN and the two infinities), with exact
      arithmetic on the finite ones.
    - [toLocaleString] is modelled for the en-US locale, whose decimal point
      is the one the parsers of the source expect.
    - The painting of the canvas leaves no trace in the session.  The one
      loop of [redraw] that may not end, over the meridians, is accounted
      for by [painted], a premise of every step of [reachable]. *)

From Stdlib Require Import List Bool Arith NArith ZArith QArith Qround Qabs Qreduction.
From Stdlib Require Import Ascii String DecimalString.
From Stdlib Require Import Reals Qreals Lia Psatz.
Import ListNotations.

Close Scope R_scope.
Close Scope Q_scope.
Set Implicit Arguments.

(* ================================================================== *)
(** ** JavaScript strings *)

Module JsString.

(** A UTF-16 code unit. *)
Definition char := N.
Definition jsstring := list char.

(** An ASCII literal as a JavaScript string. *)
Definition lit (s : string) : jsstring :=
  map N_of_ascii (list_ascii_of_string s).

(** The characters of the source that are outside ASCII. *)
Definition degree_sign : char := 176%N.        (* U+00B0 *)
Definition left_quote : char := 8216%N.        (* U+2018 *)
Definition right_quote : char := 8217%N.       (* U+2019 *)
Definition long_s : char := 383%N.             (* U+017F *)

Definition ch (a : ascii) : char := N_of_ascii a.

Fixpoint eqb (s t : jsstring) : bool :=
  match s, t with
  | [], [] => true
  | c :: s', d :: t' => N.eqb c d && eqb s' t'
  | _, _ => false
  end.

Lemma eqb_eq s t : eqb s t = true <-> s = t.
Proof.
  revert t; induction s as [|c s IH]; intros [|d t]; simpl;
    try (split; [discriminate | congruence]); try tauto.
  rewrite andb_true_iff, N.eqb_eq, IH. split.
  - intros [-> ->]; reflexivity.
  - intros E; inversion E; auto.
Qed.

(** WhiteSpace and LineTerminator code points, the ones [trim] strips. *)
Definition is_space (c : char) : bool :=
  ((9 <=? c) && (c <=? 13) || (c =? 32) || (c =? 160) || (c =? 5760)
   || (8192 <=? c) && (c <=? 8202) || (c =? 8232) || (c =? 8233)
   || (c =? 8239) || (c =? 8287) || (c =? 12288) || (c =? 65279))%N.

Fixpoint trimStart (s : jsstring) : jsstring :=
  match s with
  | c :: s' => if is_space c then trimStart s' else s
  | [] => []
  end.

Definition trim (s : jsstring) : jsstring :=
  rev (trimStart (rev (trimStart s))).

(** [toUpperCase] on the characters that can reach the patterns of the
    source: the ASCII letters, and the long s whose capital is [S].  Every
    other character either is its own capital or has a capital outside
    the alphabet of the patterns. *)
Definition upper (c : char) : char :=
  if ((97 <=? c) && (c <=? 122))%N then (c - 32)%N
  else if (c =? long_s)%N then 83%N
  else c.

Definition toUpperCase (s : jsstring) : jsstring := map upper s.

Definition is_digit (c : char) : bool := ((48 <=? c) && (c <=? 57))%N.

(** The decimal numeral of a natural number, without leading zeros. *)
Definition decimal (n : N) : jsstring :=
  lit (NilZero.string_of_uint (N.to_uint n)).

End JsString.
Import JsString.

(* ================================================================== *)
(** ** Regular expressions with capture groups *)

Module Regex.

Inductive regex : Type :=
| Empty                                          (* the empty pattern *)
| Class (p : char -> bool)                       (* one character of a class *)
| Cat (r1 r2 : regex)                            (* r1 r2 *)
| Or (r1 r2 : regex)                             (* r1|r2, r1 tried first *)
| Repeat (p : char -> bool) (lo : nat) (hi : option nat)
                                                 (* [p]{lo,hi}, greedy *)
| Maybe (r : regex)                              (* r?, greedy *)
| Capture (n : nat) (r : regex).                 (* group number n *)

(** A capture group is recorded by its two ends, each counted as the
    number of characters left to read; [None] is a group that took no part
    in the match. *)
Definition marks := list (option (nat * nat)).

Fixpoint set_group (n : nat) (v : nat * nat) (m : marks) : marks :=
  match n, m with
  | O, _ :: m' => Some v :: m'
  | S n', x :: m' => x :: set_group n' v m'
  | _, [] => []
  end.

Section Matcher.
Variable A : Type.

Definition cont := jsstring -> marks -> option A.

(** Greedy bounded repetition of a character class: take one more
    character when allowed, and give it back when the rest fails. *)
Fixpoint greedy (p : char -> bool) (lo : nat) (hi : option nat)
         (s : jsstring) (m : marks) (k : cont) {struct s} : option A :=
  let stop := match lo with O => k s m | S _ => None end in
  let room := match hi with Some O => false | _ => true end in
  match s with
  | c :: s' =>
      if p c && room then
        match greedy p (pred lo) (option_map pred hi) s' m k with
        | Some a => Some a
        | None => stop
        end
      else stop
  | [] => stop
  end.

Fixpoint run (r : regex) (s : jsstring) (m : marks) (k : cont)
  : option A :=
  match r with
  | Empty => k s m
  | Class p =>
      match s with
      | c :: s' => if p c then k s' m else None
      | [] => None
      end
  | Cat r1 r2 => run r1 s m (fun s' m' => run r2 s' m' k)
  | Or r1 r2 =>
      match run r1 s m k with
      | Some a => Some a
      | None => run r2 s m k
      end
  | Repeat p lo hi => greedy p lo hi s m k
  | Maybe r1 =>
      match run r1 s m k with
      | Some a => Some a
      | None => k s m
      end
  | Capture n r1 =>
      run r1 s m
          (fun s' m' => k s' (set_group n (List.length s, List.length s') m'))
  end.
End Matcher.

(** The match of a pattern anchored by ^ and $, with [groups] capture
    groups, as marks; group 0 is the whole text. *)
Definition find (groups : nat) (r : regex) (s : jsstring) : option marks :=
  run r s (Some (List.length s, O) :: repeat None groups)
      (fun rest m => match rest with [] => Some m | _ => None end).

(** The array returned by [String.prototype.match]: entry [n] is the text
    of group [n], or [None] ([undefined]) when the group took no part in
    the match. *)
Definition captures := list (option jsstring).

Definition extract (s : jsstring) (g : option (nat * nat)) : option jsstring :=
  match g with
  | Some (from, to) => Some (firstn (from - to) (skipn (List.length s - from) s))
  | None => None
  end.

Definition exec (groups : nat) (r : regex) (s : jsstring) : option captures :=
  option_map (map (extract s)) (find groups r s).

Definition group (m : captures) (n : nat) : option jsstring :=
  nth n m None.

(** *** Matching only looks at character classes

    A renaming [f] of the characters that no class of the pattern can
    tell from the identity leaves the marks of a match unchanged. *)
Fixpoint respects (f : char -> char) (r : regex) : Prop :=
  match r with
  | Empty => True
  | Class p => forall c, p (f c) = p c
  | Cat r1 r2 | Or r1 r2 => respects f r1 /\ respects f r2
  | Repeat p _ _ => forall c, p (f c) = p c
  | Maybe r1 | Capture _ r1 => respects f r1
  end.

Lemma greedy_map A f p (Hp : forall c, p (f c) = p c) s :
  forall lo hi m (k k' : cont A),
    (forall s' m', k (map f s') m' = k' s' m') ->
    greedy p lo hi (map f s) m k = greedy p lo hi s m k'.
Proof.
  induction s as [|c s IH]; intros lo hi m k k' Hk; simpl.
  - destruct lo; [apply (Hk [])|reflexivity].
  - rewrite Hp, (IH (pred lo) (option_map pred hi) m k k' Hk).
    destruct lo; [rewrite (Hk (c :: s))|]; reflexivity.
Qed.

Lemma run_map A f r :
  respects f r ->
  forall s m (k k' : cont A),
    (forall s' m', k (map f s') m' = k' s' m') ->
    run r (map f s) m k = run r s m k'.
Proof.
  induction r as [|p|r1 IH1 r2 IH2|r1 IH1 r2 IH2|p lo hi|r1 IH1|n r1 IH1];
    simpl; intros Hr s m k k' Hk.
  - apply Hk.
  - destruct s as [|c s]; simpl; [reflexivity|].
    rewrite Hr, Hk; reflexivity.
  - destruct Hr as [H1 H2]. apply IH1; [exact H1|].
    intros s' m'. apply IH2; assumption.
  - destruct Hr as [H1 H2].
    rewrite (IH1 H1 s m k k' Hk), (IH2 H2 s m k k' Hk); reflexivity.
  - apply greedy_map; assumption.
  - rewrite (IH1 Hr s m k k' Hk), (Hk s m); reflexivity.
  - apply IH1; [exact Hr|]. intros s' m'.
    rewrite !length_map. apply Hk.
Qed.

Lemma find_map f groups r s :
  respects f r -> find groups r (map f s) = find groups r s.
Proof.
  intros Hr. unfold find. rewrite length_map.
  apply run_map; [exact Hr|].
  intros [|c s'] m'; reflexivity.
Qed.

Definition one (c : char) : regex := Class (N.eqb c).
Definition any_of (cs : jsstring) : regex :=
  Class (fun c => existsb (N.eqb c) cs).
Definition digit : regex := Class is_digit.
Definition spaces : regex := Repeat (N.eqb 32) 0 None.        (* " *" *)

End Regex.
Import Regex.

Declare Scope regex_scope.
Delimit Scope regex_scope with re.
Infix ">>" := Cat (at level 61, right associativity) : regex_scope.

(* ================================================================== *)
(** ** Codec numbers: exact rationals in lowest terms *)

Module Num.

Local Open Scope Q_scope.

Definition qadd (a b : Q) : Q := Qred (a + b).
Definition qsub (a b : Q) : Q := Qred (a - b).
Definition qmul (a b : Q) : Q := Qred (a * b).
Definition qdiv (a b : Q) : Q := Qred (a / b).
Definition qneg (a : Q) : Q := Qred (- a).
Definition qabs (a : Q) : Q := Qred (Qabs a).
Definition qgt (a b : Q) : bool := negb (Qle_bool a b).
Definition qlt (a b : Q) : bool := negb (Qle_bool b a).

(** [Math.trunc]: the integer part, rounding toward zero. *)
Definition trunc (a : Q) : Q := inject_Z (Z.quot (Qnum a) (Zpos (Qden a))).

Fixpoint digits_value (acc : N) (s : jsstring) : N :=
  match s with
  | [] => acc
  | c :: s' => digits_value (10 * acc + (c - 48))%N s'
  end.

Fixpoint split_dot (s : jsstring) : jsstring * jsstring :=
  match s with
  | [] => ([], [])
  | c :: s' =>
      if (c =? 46)%N then ([], s')
      else let (a, b) := split_dot s' in (c :: a, b)
  end.

(** [Number(s)] for [s] a decimal literal: digits with an optional
    fraction, or the empty string (which is 0).  The source only converts
    capture groups of that shape. *)
Definition Number (s : jsstring) : Q :=
  let (ip, fp) := split_dot s in
  Qred (Z.of_N (digits_value 0 (ip ++ fp))
        # Z.to_pos (10 ^ Z.of_nat (List.length fp))).

(** [Number(m[n])] for a group that took part in the match. *)
Definition Number_group (m : captures) (n : nat) : Q :=
  match group m n with
  | Some s => Number s
  | None => 0
  end.

End Num.
Import Num.

(* ================================================================== *)
(** ** Number.prototype.toLocaleString, decimal style, en-US *)

Module Intl.

Record numberFormat := {
  minimumIntegerDigits : nat;
  minimumFractionDigits : nat;
  maximumFractionDigits : nat
}.

(** Nearest integer of a non-negative rational, ties away from zero
    (the default rounding mode, "halfExpand"). *)
Definition round_half_expand (x : Q) : N :=
  Z.to_N (Qfloor (x + (1 # 2))%Q).

Definition zeros (n : nat) : jsstring := repeat 48%N n.

(** At least [w] digits. *)
Definition pad_left (w : nat) (d : jsstring) : jsstring :=
  zeros (w - List.length d) ++ d.

(** Exactly [w] digits: the low-order [w] digits of the numeral. *)
Definition fixed_width (w : nat) (d : jsstring) : jsstring :=
  let p := pad_left w d in skipn (List.length p - w) p.

(** Drop up to [n] trailing zeros, given the digits in reverse. *)
Fixpoint drop_zeros (n : nat) (r : jsstring) : jsstring :=
  match n, r with
  | S n', c :: r' => if (c =? 48)%N then drop_zeros n' r' else r
  | _, _ => r
  end.

(** Grouping separators, given the digits in reverse. *)
Fixpoint commas (k : nat) (r : jsstring) : jsstring :=
  match r with
  | [] => []
  | c :: r' =>
      match k with
      | O => 44%N :: c :: commas 2 r'
      | S k' => c :: commas k' r'
      end
  end.

Definition group3 (d : jsstring) : jsstring := rev (commas 3 (rev d)).

(** The text of a number whose magnitude, counted in units of the last
    fraction digit kept, is [scaled]. *)
Definition render (negative : bool) (scaled : N) (o : numberFormat) : jsstring :=
  let p := (10 ^ N.of_nat (maximumFractionDigits o))%N in
  let int_digits :=
    group3 (pad_left (minimumIntegerDigits o) (decimal (scaled / p)%N)) in
  let frac_digits :=
    rev (drop_zeros (maximumFractionDigits o - minimumFractionDigits o)
           (rev (fixed_width (maximumFractionDigits o)
                   (decimal (scaled mod p)%N)))) in
  (if negative then [45%N] else [])
    ++ int_digits
    ++ match frac_digits with [] => [] | _ => 46%N :: frac_digits end.

Definition toLocaleString (x : Q) (o : numberFormat) : jsstring :=
  let p := (10 ^ N.of_nat (maximumFractionDigits o))%N in
  render (Num.qlt x 0%Q)
         (round_half_expand (Qabs x * inject_Z (Z.of_N p))%Q) o.

End Intl.
Import Intl.

(* ================================================================== *)
(** ** The angle codec *)

Module Codec.

Local Open Scope regex_scope.

(** The [minutesRegex] of [parseDegreesDirection]; [g] is the number of
    its first group (3 in the first alternative, 8 in the second). *)
Definition minutesRegex (withMinutes : bool) (g : nat) : regex :=
  if withMinutes then
    spaces
    >> Capture g (Repeat is_digit 1 (Some 2)
                  >> Maybe (Capture (S g) (one 46%N >> digit)))
    >> spaces
    >> Maybe (any_of [39%N; left_quote; right_quote])
  else Capture g (Capture (S g) Empty).

Definition degreesRegex (maxDigits : nat) (posDirection negDirection : jsstring)
           (withMinutes : bool) : regex :=
  Capture 1
    (Or
       (* DD°N format *)
       (Capture 2 (Repeat is_digit 1 (Some maxDigits))
        >> spaces
        >> Maybe (any_of [degree_sign; 42%N])
        >> minutesRegex withMinutes 3
        >> spaces
        >> Capture 5 (any_of (posDirection ++ negDirection)))
       (* +DD° format *)
       (Capture 6 (Maybe (any_of [45%N; 43%N]))
        >> spaces
        >> Capture 7 (Repeat is_digit 1 (Some maxDigits))
        >> spaces
        >> Maybe (any_of [degree_sign; 42%N])
        >> minutesRegex withMinutes 8)).

(** [None] is the [null] of the source. *)
Definition parseDegreesDirection (s : jsstring) (maxDigits : nat)
           (maxMagnitude : Q) (posDirection negDirection : jsstring)
           (withMinutes : bool) : option Q :=
  let s := toUpperCase (trim s) in
  if JsString.eqb s [] then Some 0%Q else
  match exec 9 (degreesRegex maxDigits posDirection negDirection withMinutes) s with
  | None => None
  | Some m =>
      let finish (magnitude minutes : Q) (isPositive : bool) :=
        let magnitude := qadd magnitude (qdiv minutes 60%Q) in
        if qgt magnitude maxMagnitude then None
        else Some (if isPositive then magnitude else qneg magnitude) in
      match group m 2 with
      | Some m2 =>
          finish (Number m2)
                 (if withMinutes then Number_group m 3 else 0%Q)
                 (match group m 5 with
                  | Some m5 => JsString.eqb m5 posDirection
                  | None => false
                  end)
      | None =>
          match group m 6 with
          | Some m6 =>
              finish (Number_group m 7)
                     (if withMinutes then Number_group m 8 else 0%Q)
                     (negb (JsString.eqb m6 [45%N]))
          | None => None
          end
      end
  end.

Definition N_ : jsstring := [78%N].
Definition S_ : jsstring := [83%N].
Definition E_ : jsstring := [69%N].
Definition W_ : jsstring := [87%N].

Definition parseIntegerLatitude (s : jsstring) : option Q :=
  parseDegreesDirection s 2 89%Q N_ S_ false.

Definition parseIntegerLongitude (s : jsstring) : option Q :=
  parseDegreesDirection s 3 180%Q E_ W_ false.

Definition parseLongitude (s : jsstring) : option Q :=
  parseDegreesDirection s 3 180%Q E_ W_ true.

(** The direction suffix shared by the two formatters. *)
Definition direction (deg : Q) (posDirection negDirection : jsstring) : jsstring :=
  if qgt deg 0%Q then 32%N :: posDirection
  else if qlt deg 0%Q then 32%N :: negDirection
  else [].

Definition formatDegreesMinutesDirection (deg : Q) (minDegreeDigits : nat)
           (posDirection negDirection : jsstring) : jsstring :=
  let absDeg := qabs deg in
  let truncAbsDeg := trunc absDeg in
  toLocaleString truncAbsDeg
    {| minimumIntegerDigits := minDegreeDigits;
       minimumFractionDigits := 0; maximumFractionDigits := 0 |}
  ++ [degree_sign; 32%N]
  ++ toLocaleString (qmul (qsub absDeg truncAbsDeg) 60%Q)
       {| minimumIntegerDigits := 2;
          minimumFractionDigits := 1; maximumFractionDigits := 1 |}
  ++ [right_quote]
  ++ direction deg posDirection negDirection.

Definition formatDegreesDirection (deg : Q) (minDigits : nat)
           (posDirection negDirection : jsstring) : jsstring :=
  toLocaleString (qabs deg)
    {| minimumIntegerDigits := minDigits;
       minimumFractionDigits := 0; maximumFractionDigits := 0 |}
  ++ [degree_sign]
  ++ direction deg posDirection negDirection.

Definition formatLatitude (deg : Q) := formatDegreesMinutesDirection deg 2 N_ S_.
Definition formatIntegerLatitude (deg : Q) := formatDegreesDirection deg 2 N_ S_.
Definition formatLongitude (deg : Q) := formatDegreesMinutesDirection deg 3 E_ W_.
Definition formatIntegerLongitude (deg : Q) := formatDegreesDirection deg 3 E_ W_.

End Codec.
Import Codec.

(* ================================================================== *)
(** ** Geometry numbers: reals with the IEEE special values *)

Module Ieee.

Local Open Scope R_scope.

(** A number of the geometry: not-a-number, an infinity ([Inf true] is the
    negative one) or a finite real.  Zero carries no sign: a non-zero
    number divided by zero is the infinity of the sign of the numerator. *)
Inductive num : Type :=
| NaN
| Inf (negative : bool)
| Fin (r : R).

Definition is_neg (r : R) : bool := if Rlt_dec r 0 then true else false.
Definition is_zero (r : R) : bool := if Req_dec_T r 0 then true else false.

Definition nneg (x : num) : num :=
  match x with
  | NaN => NaN
  | Inf s => Inf (negb s)
  | Fin r => Fin (- r)
  end.

Definition nadd (x y : num) : num :=
  match x, y with
  | NaN, _ | _, NaN => NaN
  | Inf s, Inf t => if Bool.eqb s t then Inf s else NaN
  | Inf s, Fin _ => Inf s
  | Fin _, Inf t => Inf t
  | Fin a, Fin b => Fin (a + b)
  end.

Definition nsub (x y : num) : num := nadd x (nneg y).

Definition nmul (x y : num) : num :=
  match x, y with
  | NaN, _ | _, NaN => NaN
  | Inf s, Inf t => Inf (xorb s t)
  | Inf s, Fin b => if is_zero b then NaN else Inf (xorb s (is_neg b))
  | Fin a, Inf t => if is_zero a then NaN else Inf (xorb (is_neg a) t)
  | Fin a, Fin b => Fin (a * b)
  end.

Definition ndiv (x y : num) : num :=
  match x, y with
  | NaN, _ | _, NaN => NaN
  | Inf _, Inf _ => NaN
  | Inf s, Fin b => Inf (xorb s (is_neg b))
  | Fin _, Inf _ => Fin 0
  | Fin a, Fin b =>
      if is_zero b then (if is_zero a then NaN else Inf (is_neg a))
      else Fin (a / b)
  end.

Definition ncos (x : num) : num :=
  match x with Fin r => Fin (cos r) | _ => NaN end.

Definition nsin (x : num) : num :=
  match x with Fin r => Fin (sin r) | _ => NaN end.

Definition npow2 (x : num) : num := nmul x x.          (* Math.pow(x, 2) *)

(** [Math.ceil]; the special values are kept. *)
Definition nceil (x : num) : num :=
  match x with Fin r => Fin (- IZR (Int_part (- r))) | _ => x end.

Definition isNaN (x : num) : bool :=
  match x with NaN => true | _ => false end.

(** [x < y]; every comparison with NaN is false. *)
Definition nlt (x y : num) : bool :=
  match x, y with
  | NaN, _ | _, NaN => false
  | Inf s, Inf t => s && negb t
  | Inf s, Fin _ => s
  | Fin _, Inf t => negb t
  | Fin a, Fin b => if Rlt_dec a b then true else false
  end.

Definition ngt (x y : num) : bool := nlt y x.

Definition ofQ (q : Q) : num := Fin (Q2R q).
Definition ofZ (z : Z) : num := Fin (IZR z).

(** A property that is [undefined] behaves as NaN in arithmetic. *)
Definition toNum (o : option num) : num :=
  match o with Some x => x | None => NaN end.

Definition finite (x : num) : Prop :=
  match x with Fin _ => True | _ => False end.

End Ieee.
Import Ieee.

(* ================================================================== *)
(** ** The session: the globals of main.js and the page they live in *)

(** The text inputs of the page. *)
Module El.
Inductive t := ctrLat | ctrLon | a | Zn | aLat | aLon.

Definition eqb (e f : t) : bool :=
  match e, f with
  | ctrLat, ctrLat | ctrLon, ctrLon | a, a | Zn, Zn
  | aLat, aLat | aLon, aLon => true
  | _, _ => false
  end.

Lemma eqb_spec e f : reflect (e = f) (eqb e f).
Proof. destruct e, f; simpl; constructor; congruence. Qed.
End El.

(** A line of position, and the draft one: each property is a number or
    [undefined] ([None]). *)
Module Lop.
Record t := { a : option num; Zn : option num;
              aLat : option num; aLon : option num }.
Definition empty : t := {| a := None; Zn := None; aLat := None; aLon := None |}.
Definition set_a v (l : t) := {| a := v; Zn := Zn l; aLat := aLat l; aLon := aLon l |}.
Definition set_Zn v (l : t) := {| a := a l; Zn := v; aLat := aLat l; aLon := aLon l |}.
Definition set_aLat v (l : t) := {| a := a l; Zn := Zn l; aLat := v; aLon := aLon l |}.
Definition set_aLon v (l : t) := {| a := a l; Zn := Zn l; aLat := aLat l; aLon := v |}.
End Lop.

Module Geo.
Record t := { lat : num; lon : num }.
End Geo.

Module Pt.
Record t := { x : num; y : num }.
End Pt.

Module Coeff.
Record t := { m : num; b : num }.
End Coeff.

(** An element of [_intersections]. *)
Module Ix.
Record t := { x : num; y : num; lat : num; lon : num }.
End Ix.

Record input := { value : jsstring; flagged : bool }.

Record size := { width : num; height : num }.

(** What the page and the window hand to the script. *)
Record page := {
  inputs : El.t -> input;
  aDir : jsstring;                      (* the Toward/Away select *)
  addLOPBtn_disabled : bool;
  coords : option (num * num);          (* the numbers shown in the footer *)
  coords_snapped : bool;
  innerWidth : Z;
  innerHeight : Z;
  header_clientHeight : Z;
  footer_clientHeight : Z;
  sheet_offsetLeft : Z;
  sheet_offsetTop : Z
}.

Record session := {
  dom : page;
  _ctrLat : option num;
  _ctrLon : option num;
  _latScale : num;
  _lonScale : num;
  _sheetSize : size;
  _lops : list Lop.t;
  _intersections : list Ix.t;
  _draftLOP : Lop.t
}.

Module Upd.

Definition set_inputs f (p : page) : page :=
  {| inputs := f; aDir := aDir p; addLOPBtn_disabled := addLOPBtn_disabled p;
     coords := coords p; coords_snapped := coords_snapped p;
     innerWidth := innerWidth p; innerHeight := innerHeight p;
     header_clientHeight := header_clientHeight p;
     footer_clientHeight := footer_clientHeight p;
     sheet_offsetLeft := sheet_offsetLeft p; sheet_offsetTop := sheet_offsetTop p |}.

Definition set_aDir v (p : page) : page :=
  {| inputs := inputs p; aDir := v; addLOPBtn_disabled := addLOPBtn_disabled p;
     coords := coords p; coords_snapped := coords_snapped p;
     innerWidth := innerWidth p; innerHeight := innerHeight p;
     header_clientHeight := header_clientHeight p;
     footer_clientHeight := footer_clientHeight p;
     sheet_offsetLeft := sheet_offsetLeft p; sheet_offsetTop := sheet_offsetTop p |}.

Definition set_disabled v (p : page) : page :=
  {| inputs := inputs p; aDir := aDir p; addLOPBtn_disabled := v;
     coords := coords p; coords_snapped := coords_snapped p;
     innerWidth := innerWidth p; innerHeight := innerHeight p;
     header_clientHeight := header_clientHeight p;
     footer_clientHeight := footer_clientHeight p;
     sheet_offsetLeft := sheet_offsetLeft p; sheet_offsetTop := sheet_offsetTop p |}.

Definition set_coords v sn (p : page) : page :=
  {| inputs := inputs p; aDir := aDir p; addLOPBtn_disabled := addLOPBtn_disabled p;
     coords := v; coords_snapped := sn;
     innerWidth := innerWidth p; innerHeight := innerHeight p;
     header_clientHeight := header_clientHeight p;
     footer_clientHeight := footer_clientHeight p;
     sheet_offsetLeft := sheet_offsetLeft p; sheet_offsetTop := sheet_offsetTop p |}.

Definition set_window w h (p : page) : page :=
  {| inputs := inputs p; aDir := aDir p; addLOPBtn_disabled := addLOPBtn_disabled p;
     coords := coords p; coords_snapped := coords_snapped p;
     innerWidth := w; innerHeight := h;
     header_clientHeight := header_clientHeight p;
     footer_clientHeight := footer_clientHeight p;
     sheet_offsetLeft := sheet_offsetLeft p; sheet_offsetTop := sheet_offsetTop p |}.

Definition set_dom d (s : session) : session :=
  {| dom := d; _ctrLat := _ctrLat s; _ctrLon := _ctrLon s;
     _latScale := _latScale s; _lonScale := _lonScale s;
     _sheetSize := _sheetSize s; _lops := _lops s;
     _intersections := _intersections s; _draftLOP := _draftLOP s |}.

Definition set_ctrLat v (s : session) : session :=
  {| dom := dom s; _ctrLat := v; _ctrLon := _ctrLon s;
     _latScale := _latScale s; _lonScale := _lonScale s;
     _sheetSize := _sheetSize s; _lops := _lops s;
     _intersections := _intersections s; _draftLOP := _draftLOP s |}.

Definition set_ctrLon v (s : session) : session :=
  {| dom := dom s; _ctrLat := _ctrLat s; _ctrLon := v;
     _latScale := _latScale s; _lonScale := _lonScale s;
     _sheetSize := _sheetSize s; _lops := _lops s;
     _intersections := _intersections s; _draftLOP := _draftLOP s |}.

Definition set_frame sz ls lns (s : session) : session :=
  {| dom := dom s; _ctrLat := _ctrLat s; _ctrLon := _ctrLon s;
     _latScale := ls; _lonScale := lns;
     _sheetSize := sz; _lops := _lops s;
     _intersections := _intersections s; _draftLOP := _draftLOP s |}.

Definition set_lops v (s : session) : session :=
  {| dom := dom s; _ctrLat := _ctrLat s; _ctrLon := _ctrLon s;
     _latScale := _latScale s; _lonScale := _lonScale s;
     _sheetSize := _sheetSize s; _lops := v;
     _intersections := _intersections s; _draftLOP := _draftLOP s |}.

Definition set_intersections v (s : session) : session :=
  {| dom := dom s; _ctrLat := _ctrLat s; _ctrLon := _ctrLon s;
     _latScale := _latScale s; _lonScale := _lonScale s;
     _sheetSize := _sheetSize s; _lops := _lops s;
     _intersections := v; _draftLOP := _draftLOP s |}.

Definition set_draft v (s : session) : session :=
  {| dom := dom s; _ctrLat := _ctrLat s; _ctrLon := _ctrLon s;
     _latScale := _latScale s; _lonScale := _lonScale s;
     _sheetSize := _sheetSize s; _lops := _lops s;
     _intersections := _intersections s; _draftLOP := v |}.

(** [elem.value = v] and [elem.style.border = ...]. *)
Definition set_value (e : El.t) (v : jsstring) (s : session) : session :=
  set_dom (set_inputs (fun f => if El.eqb f e
                                then {| value := v; flagged := flagged (inputs (dom s) f) |}
                                else inputs (dom s) f) (dom s)) s.

Definition set_flag (e : El.t) (v : bool) (s : session) : session :=
  set_dom (set_inputs (fun f => if El.eqb f e
                                then {| value := value (inputs (dom s) f); flagged := v |}
                                else inputs (dom s) f) (dom s)) s.

End Upd.
Import Upd.

Definition value_of (e : El.t) (s : session) : jsstring := value (inputs (dom s) e).

(* ================================================================== *)
(** ** Projection helpers *)

Definition radians (deg : num) : num :=
  nmul (ndiv deg (Fin 180)) (Fin PI).

Definition rhumbPoint (lat lon Zn a : num) : Geo.t :=
  (* express a in terms of minutes of longitude *)
  let aInLon := ndiv a (ncos (radians lat)) in
  {| Geo.lat := nadd lat (ndiv (nmul (ncos Zn) a) (Fin 60));
     Geo.lon := nadd lon (ndiv (nmul (nsin Zn) aInLon) (Fin 60)) |}.

Definition project (s : session) (lat lon : num) : Pt.t :=
  {| Pt.x := nadd (ndiv (width (_sheetSize s)) (Fin 2))
                  (nmul (nsub lon (toNum (_ctrLon s))) (_lonScale s));
     Pt.y := nadd (ndiv (height (_sheetSize s)) (Fin 2))
                  (nmul (nsub (toNum (_ctrLat s)) lat) (_latScale s)) |}.

(* ================================================================== *)
(** ** The intersection engine and the frame of the sheet *)

(** The part of [setCanvasDimensions] that writes the globals; the resizing
    of the canvas element itself does not feed back into the script. *)
Definition setCanvasDimensions (s : session) : session :=
  let pxWidth := ofZ (innerWidth (dom s)) in
  let pxHeight := ofZ (innerHeight (dom s) - header_clientHeight (dom s)
                       - footer_clientHeight (dom s)) in
  let sheetSize := {| width := pxWidth; height := pxHeight |} in
  let latScale := ndiv (nsub (height sheetSize) (Fin 80)) (Fin 4) in
  let lonScale := nmul latScale (ncos (radians (toNum (_ctrLat s)))) in
  set_frame sheetSize latScale lonScale s.

(** The coefficients of the line [lat = m * lon + b] of one line of
    position, as computed by the [coeffs] map of [redraw]. *)
Definition coeffs (lop : Lop.t) : Coeff.t :=
  let third := ndiv (nmul (Fin 2) (Fin PI)) (Fin 6) in
  let a := rhumbPoint (toNum (Lop.aLat lop)) (toNum (Lop.aLon lop))
                      (nadd (toNum (Lop.Zn lop)) third)
                      (nmul (Fin 2) (toNum (Lop.a lop))) in
  let b := rhumbPoint (toNum (Lop.aLat lop)) (toNum (Lop.aLon lop))
                      (nsub (toNum (Lop.Zn lop)) third)
                      (nmul (Fin 2) (toNum (Lop.a lop))) in
  let m := ndiv (nsub (Geo.lat b) (Geo.lat a)) (nsub (Geo.lon b) (Geo.lon a)) in
  {| Coeff.m := m; Coeff.b := nsub (Geo.lat a) (nmul m (Geo.lon a)) |}.

(** The body of the double loop of [redraw] for one pair: [None] is a
    [continue], [Some] the element pushed on [_intersections]. *)
Definition intersect (s : session) (ci cj : Coeff.t) : option Ix.t :=
  let lonIntercept :=
    ndiv (nsub (Coeff.b cj) (Coeff.b ci)) (nsub (Coeff.m ci) (Coeff.m cj)) in
  if isNaN lonIntercept then None else
  let latIntercept := nadd (nmul (Coeff.m ci) lonIntercept) (Coeff.b ci) in
  if isNaN latIntercept then None else
  let pt := project s latIntercept lonIntercept in
  if nlt (Pt.x pt) (Fin 0) || nlt (Pt.y pt) (Fin 0)
     || ngt (Pt.x pt) (width (_sheetSize s))
     || ngt (Pt.y pt) (height (_sheetSize s))
  then None
  else Some {| Ix.x := nsub (Pt.x pt) (ndiv (width (_sheetSize s)) (Fin 2));
               Ix.y := nsub (Pt.y pt) (ndiv (height (_sheetSize s)) (Fin 2));
               Ix.lat := latIntercept;
               Ix.lon := lonIntercept |}.

Definition no_coeff : Coeff.t := {| Coeff.m := NaN; Coeff.b := NaN |}.

(** [for (i = 0; i < n; i++) for (j = i+1; j < n; j++) ...] *)
Definition all_intersections (s : session) (lops : list Lop.t) : list Ix.t :=
  let cs := map coeffs lops in
  let n := List.length lops in
  flat_map (fun i =>
    flat_map (fun j =>
      match intersect s (nth i cs no_coeff) (nth j cs no_coeff) with
      | Some p => [p]
      | None => []
      end) (seq (S i) (n - S i))) (seq 0 n).

(** [redraw]: the frame is recomputed, the canvas painted (which leaves no
    trace in the session) and the intersections recomputed from scratch.
    This is the session [redraw] leaves when it returns; see [painted]. *)
Definition redraw (s : session) : session :=
  let s := setCanvasDimensions s in
  set_intersections (all_intersections s (_lops s)) s.

(** The bound [n] of the loop of [redraw] over the meridians,
    [for (var i = -n; i <= n; i++)], read from the frame.  The loop has no
    turn when [n] is NaN or -Infinity; when [n] is +Infinity, [i] starts at
    -Infinity, stays there, and the loop never ends. *)
Definition meridians (s : session) : num :=
  nceil (ndiv (ndiv (width (_sheetSize s)) (_lonScale s)) (Fin 2)).

(** The loop over the meridians ends for the frame of [s]: a [redraw] that
    wrote this frame has returned. *)
Definition painted (s : session) : Prop := meridians s <> Inf false.

(** The screen coordinates of a line of position, as [redraw] computes them:
    the assumed position (x00, y00), the foot of the line (x01, y01) and
    the two ends of the line drawn through the foot. *)
Module Slop.
Record t := { x00 : num; y00 : num; x01 : num; y01 : num;
              x10 : num; y10 : num; x11 : num; y11 : num }.
End Slop.

Definition screenLOP (s : session) (lop : Lop.t) : Slop.t :=
  let _a := nmul (ndiv (toNum (Lop.a lop)) (Fin 60)) (_latScale s) in
  let pt := project s (toNum (Lop.aLat lop)) (toNum (Lop.aLon lop)) in
  let x00 := Pt.x pt in
  let y00 := Pt.y pt in
  let x01 := nadd x00 (nmul (nsin (toNum (Lop.Zn lop))) _a) in
  let y01 := nsub y00 (nmul (ncos (toNum (Lop.Zn lop))) _a) in
  let across := nsub (toNum (Lop.Zn lop)) (ndiv (Fin PI) (Fin 2)) in
  {| Slop.x00 := x00; Slop.y00 := y00; Slop.x01 := x01; Slop.y01 := y01;
     Slop.x10 := nadd x01 (nmul (nsin across) (width (_sheetSize s)));
     Slop.y10 := nsub y01 (nmul (ncos across) (width (_sheetSize s)));
     Slop.x11 := nsub x01 (nmul (nsin across) (width (_sheetSize s)));
     Slop.y11 := nadd y01 (nmul (ncos across) (width (_sheetSize s))) |}.

(** The heights at which [redraw] draws the five parallels,
    [ctrY - i*_latScale] for [i] from -2 to 2. *)
Definition parallels (s : session) : list num :=
  let ctrY := ndiv (height (_sheetSize s)) (Fin 2) in
  map (fun i => nsub ctrY (nmul (ofZ i) (_latScale s))) [-2; -1; 0; 1; 2]%Z.

(* ================================================================== *)
(** ** Event handlers *)

Definition clearInputError (e : El.t) (s : session) : session := set_flag e false s.
Definition flagInputError (e : El.t) (s : session) : session := set_flag e true s.

Definition updateCenterLatitude (s : session) : session :=
  match parseIntegerLatitude (value_of El.ctrLat s) with
  | None => flagInputError El.ctrLat s
  | Some newCtrLat =>
      let s := set_value El.ctrLat (formatIntegerLatitude newCtrLat) s in
      redraw (set_ctrLat (Some (ofQ newCtrLat)) s)
  end.

Definition updateCenterLongitude (s : session) : session :=
  match parseIntegerLongitude (value_of El.ctrLon s) with
  | None => flagInputError El.ctrLon s
  | Some newCtrLon =>
      let s := set_value El.ctrLon (formatIntegerLongitude newCtrLon) s in
      redraw (set_ctrLon (Some (ofQ newCtrLon)) s)
  end.

Definition quotes : jsstring := [39%N; left_quote; right_quote].

(** /^(\d+(\.\d+)?) *['‘’]?$/ *)
Definition distanceRegex : regex :=
  (Capture 1 (Repeat is_digit 1 None
              >> Maybe (Capture 2 (one 46%N >> Repeat is_digit 1 None)))
   >> spaces >> Maybe (any_of quotes))%re.

(** /^(\d{1,3}) *°?$/ *)
Definition bearingRegex : regex :=
  (Capture 1 (Repeat is_digit 1 (Some 3)) >> spaces >> Maybe (one degree_sign))%re.

Definition formatDistance (_a : Q) : jsstring :=
  toLocaleString _a {| minimumIntegerDigits := 1;
                       minimumFractionDigits := 1; maximumFractionDigits := 1 |}
  ++ [right_quote].

Definition formatBearing (_Zn : Q) : jsstring :=
  toLocaleString _Zn {| minimumIntegerDigits := 3;
                        minimumFractionDigits := 0; maximumFractionDigits := 0 |}
  ++ [degree_sign].

Definition updateA (s : session) : session :=
  let str := trim (value_of El.a s) in
  if JsString.eqb str [] then set_draft (Lop.set_a (Some (Fin 0%R)) (_draftLOP s)) s
  else
    match exec 2 distanceRegex str with
    | None =>
        let s := flagInputError El.a s in
        set_draft (Lop.set_a None (_draftLOP s)) s
    | Some m =>
        let _a := Number_group m 1 in
        (* normalize input format *)
        let s := set_value El.a (formatDistance _a) s in
        (* set sign and store *)
        set_draft (Lop.set_a
                     (Some (if JsString.eqb (aDir (dom s)) [84%N]
                            then ofQ _a else nneg (ofQ _a)))
                     (_draftLOP s)) s
    end.

Definition updateZn (s : session) : session :=
  let str := trim (value_of El.Zn s) in
  if JsString.eqb str [] then set_draft (Lop.set_Zn (Some (Fin 0%R)) (_draftLOP s)) s
  else
    match exec 1 bearingRegex str with
    | None =>
        let s := flagInputError El.Zn s in
        set_draft (Lop.set_Zn None (_draftLOP s)) s
    | Some m =>
        let _Zn := Number_group m 1 in
        if qgt _Zn 360%Q then
          let s := flagInputError El.Zn s in
          set_draft (Lop.set_Zn None (_draftLOP s)) s
        else
          (* normalize input format *)
          let s := set_value El.Zn (formatBearing _Zn) s in
          (* convert to radians and store *)
          set_draft (Lop.set_Zn (Some (radians (ofQ _Zn))) (_draftLOP s)) s
    end.

Definition updateALat (s : session) : session :=
  match parseIntegerLatitude (value_of El.aLat s) with
  | None =>
      let s := flagInputError El.aLat s in
      set_draft (Lop.set_aLat None (_draftLOP s)) s
  | Some v =>
      let s := set_draft (Lop.set_aLat (Some (ofQ v)) (_draftLOP s)) s in
      set_value El.aLat (formatIntegerLatitude v) s
  end.

Definition updateALon (s : session) : session :=
  let parsed :=
    match parseIntegerLongitude (value_of El.aLon s) with
    | Some v => Some v
    | None => parseLongitude (value_of El.aLon s)
    end in
  match parsed with
  | None =>
      let s := flagInputError El.aLon s in
      set_draft (Lop.set_aLon None (_draftLOP s)) s
  | Some v =>
      let s := set_draft (Lop.set_aLon (Some (ofQ v)) (_draftLOP s)) s in
      set_value El.aLon (formatLongitude v) s
  end.

Definition is_unset (o : option num) : bool :=
  match o with None => true | Some _ => false end.

Definition updateAddLOPButton (s : session) : session :=
  set_dom (set_disabled
             (is_unset (Lop.a (_draftLOP s)) || is_unset (Lop.Zn (_draftLOP s))
              || is_unset (Lop.aLat (_draftLOP s)) || is_unset (Lop.aLon (_draftLOP s)))
             (dom s)) s.

Definition addLOP (s : session) : session :=
  let s := set_dom (set_disabled true (dom s)) s in
  let lop := _draftLOP s in
  redraw (set_lops (_lops s ++ [lop]) s).

(** The intersection the pointer snaps to: the loop of
    [updateCoordsDisplay] over [_intersections]. *)
Definition snap (x y : num) (ixs : list Ix.t) : option Ix.t :=
  let minDistanceSqrd := Fin 100 in (* 10 pixels *)
  fold_left (fun snappedTo intersection =>
               let dSqrd := nadd (npow2 (nsub x (Ix.x intersection)))
                                 (npow2 (nsub y (Ix.y intersection))) in
               if ngt dSqrd minDistanceSqrd then snappedTo
               else Some intersection)
            ixs None.

Definition updateCoordsDisplay (event_x event_y : Z) (s : session) : session :=
  (* adjust x and y coordinates to be relative to sheet center *)
  let x := nsub (nsub (ofZ event_x) (ofZ (sheet_offsetLeft (dom s))))
                (ndiv (width (_sheetSize s)) (Fin 2)) in
  let y := nsub (nsub (ofZ event_y) (ofZ (sheet_offsetTop (dom s))))
                (ndiv (height (_sheetSize s)) (Fin 2)) in
  (* snap to an intersection if the mouse is near one *)
  let snappedTo := snap x y (_intersections s) in
  let '(x, y, snapped) :=
    match snappedTo with
    | Some i => (Ix.x i, Ix.y i, true)
    | None => (x, y, false)
    end in
  (* find decimal lat and lon *)
  let lat := nadd (ndiv (nneg y) (_latScale s)) (toNum (_ctrLat s)) in
  let lon := nadd (ndiv x (_lonScale s)) (toNum (_ctrLon s)) in
  set_dom (set_coords (Some (lat, lon)) snapped (dom s)) s.

Definition clearCoordsDisplay (s : session) : session :=
  set_dom (set_coords None (coords_snapped (dom s)) (dom s)) s.

(** The session before [window.onload]: nothing is defined yet; the frame
    fields are written by [setCanvasDimensions] before they are read. *)
Definition boot (p : page) : session :=
  {| dom := p; _ctrLat := None; _ctrLon := None;
     _latScale := NaN; _lonScale := NaN;
     _sheetSize := {| width := NaN; height := NaN |};
     _lops := []; _intersections := []; _draftLOP := Lop.empty |}.

Definition onload (p : page) : session :=
  let s := clearCoordsDisplay (boot p) in
  let s := updateA s in
  let s := updateZn s in
  let s := updateALat s in
  let s := updateALon s in
  let s := updateAddLOPButton s in
  let s := updateCenterLatitude s in
  let s := updateCenterLongitude s in
  redraw s.

(** What can happen to the page once the handlers are installed. *)
Inductive event : Type :=
| Change (e : El.t) (text : jsstring)     (* an input is edited and committed *)
| ChangeDir (v : jsstring)                (* the Toward/Away select changes *)
| KeyDown (e : El.t)
| ClickAdd
| MouseMove (x y : Z)
| MouseLeave
| Resize (w h : Z).

Definition onchange (e : El.t) (s : session) : session :=
  match e with
  | El.ctrLat => updateCenterLatitude s
  | El.ctrLon => updateCenterLongitude s
  | El.a => updateAddLOPButton (updateA s)
  | El.Zn => updateAddLOPButton (updateZn s)
  | El.aLat => updateAddLOPButton (updateALat s)
  | El.aLon => updateAddLOPButton (updateALon s)
  end.

Definition onkeydown (e : El.t) (s : session) : session :=
  match e with
  | El.ctrLon => clearInputError El.ctrLat s   (* as installed by the source *)
  | _ => clearInputError e s
  end.

Definition step (ev : event) (s : session) : session :=
  match ev with
  | Change e text => onchange e (set_value e text s)
  | ChangeDir v => updateAddLOPButton (updateA (set_dom (set_aDir v (dom s)) s))
  | KeyDown e => onkeydown e s
  | ClickAdd => if addLOPBtn_disabled (dom s) then s else addLOP s
  | MouseMove x y => updateCoordsDisplay x y s
  | MouseLeave => clearCoordsDisplay s
  | Resize w h => redraw (set_dom (set_window w h (dom s)) s)
  end.

(** The sessions the page can be in once loaded.  A handler that runs
    [redraw] leaves the frame [redraw] wrote, and the other handlers leave
    the frame alone: a handler has returned only if the loop over the
    meridians ends for the frame of the session it leaves. *)
Inductive reachable : session -> Prop :=
| reach_onload p : painted (onload p) -> reachable (onload p)
| reach_step ev s : reachable s -> painted (step ev s) -> reachable (step ev s).


(* ================================================================== *)
(** * Properties *)

(** ** Digits and the patterns of the source *)

Definition collapse (c : char) : char := if is_digit c then 48%N else c.

Lemma digit_range c : is_digit c = true <-> (48 <= c <= 57)%N.
Proof.
  unfold is_digit. rewrite andb_true_iff, !N.leb_le. tauto.
Qed.

Lemma collapse_digit c : is_digit c = true -> collapse c = 48%N.
Proof. unfold collapse. intros ->. reflexivity. Qed.

Lemma is_space_digit c : is_digit c = true -> is_space c = false.
Proof.
  intros H. apply digit_range in H. unfold is_space.
  repeat match goal with
         | |- context [(?x <=? ?y)%N] => destruct (N.leb_spec x y); try lia
         | |- context [(?x =? ?y)%N] => destruct (N.eqb_spec x y); try lia
         end; reflexivity.
Qed.

Lemma upper_digit c : is_digit c = true -> upper c = c.
Proof.
  intros H. apply digit_range in H. unfold upper, long_s.
  repeat match goal with
         | |- context [(?x <=? ?y)%N] => destruct (N.leb_spec x y); try lia
         | |- context [(?x =? ?y)%N] => destruct (N.eqb_spec x y); try lia
         end; reflexivity.
Qed.

(** A class that holds of no digit, or of all of them, cannot tell a digit
    from the digit zero. *)
Lemma collapse_is_digit c : is_digit (collapse c) = is_digit c.
Proof. unfold collapse. destruct (is_digit c) eqn:E; [reflexivity|exact E]. Qed.

Lemma collapse_eqb x c : is_digit x = false -> N.eqb x (collapse c) = N.eqb x c.
Proof.
  intros Hx. unfold collapse. destruct (is_digit c) eqn:E; [|reflexivity].
  destruct (N.eqb_spec x 48); [subst; discriminate|].
  destruct (N.eqb_spec x c); [subst; congruence|reflexivity].
Qed.

Lemma collapse_any_of cs c :
  forallb (fun x => negb (is_digit x)) cs = true ->
  existsb (N.eqb (collapse c)) cs = existsb (N.eqb c) cs.
Proof.
  induction cs as [|x cs IH]; simpl; [reflexivity|].
  rewrite andb_true_iff, negb_true_iff. intros [Hx Hcs].
  rewrite (N.eqb_sym (collapse c)), (N.eqb_sym c), collapse_eqb, IH by assumption.
  reflexivity.
Qed.

Ltac respects_collapse :=
  repeat match goal with
         | |- _ /\ _ => split
         | |- True => exact I
         | |- forall c, is_digit (collapse c) = is_digit c => exact collapse_is_digit
         | |- forall c, N.eqb ?x (collapse c) = N.eqb ?x c =>
             intro; apply collapse_eqb; reflexivity
         | |- forall c, existsb _ _ = existsb _ _ =>
             intro; apply collapse_any_of; reflexivity
         end.

Lemma degreesRegex_respects maxDigits pos neg withMinutes :
  forallb (fun x => negb (is_digit x)) (pos ++ neg) = true ->
  respects collapse (degreesRegex maxDigits pos neg withMinutes).
Proof.
  intros Hd.
  unfold degreesRegex, minutesRegex, spaces, digit, one, any_of.
  destruct withMinutes; cbn [respects]; respects_collapse;
    intro; apply collapse_any_of; assumption.
Qed.

Lemma bearingRegex_respects : respects collapse bearingRegex.
Proof.
  unfold bearingRegex, spaces, digit, one, any_of; cbn [respects].
  respects_collapse.
Qed.

Lemma distanceRegex_respects : respects collapse distanceRegex.
Proof.
  unfold distanceRegex, spaces, digit, one, any_of; cbn [respects].
  respects_collapse.
Qed.

(** The captures of a text are cut out of it at the marks found on the text
    with every digit replaced by a zero. *)
Lemma exec_collapse groups r s :
  respects collapse r ->
  exec groups r s = option_map (map (extract s)) (find groups r (map collapse s)).
Proof. intros Hr. unfold exec. rewrite find_map by assumption. reflexivity. Qed.

Ltac digit_facts :=
  repeat match goal with
         | H : is_digit ?c = true |- context [upper ?c] => rewrite (upper_digit c H)
         | H : is_digit ?c = true |- context [collapse ?c] => rewrite (collapse_digit c H)
         | H : is_digit ?c = true |- context [is_space ?c] => rewrite (is_space_digit c H)
         end.

(** ** Arithmetic of the formatters *)

Section FormatArith.
Local Open Scope Q_scope.

Lemma Qfloor_eq (q : Q) (z : Z) :
  inject_Z z <= q -> q < inject_Z (z + 1) -> Qfloor q = z.
Proof.
  intros Hlo Hhi.
  assert (L : (z <= Qfloor q)%Z).
  { rewrite <- (Qfloor_Z z). apply Qfloor_resp_le. exact Hlo. }
  assert (U : (Qfloor q < z + 1)%Z).
  { rewrite Zlt_Qlt. eapply Qle_lt_trans; [apply Qfloor_le|exact Hhi]. }
  lia.
Qed.

Lemma Qfloor_upper (q : Q) (b : Z) :
  q < inject_Z (b + 1) -> (Qfloor q <= b)%Z.
Proof.
  intros H. apply Z.lt_succ_r. unfold Z.succ. rewrite Zlt_Qlt.
  eapply Qle_lt_trans; [apply Qfloor_le|exact H].
Qed.

Lemma trunc_floor (q : Q) : 0 <= q -> trunc q = inject_Z (Qfloor q).
Proof.
  destruct q as [n d]. unfold Qle, trunc, Qfloor; simpl. intros H.
  rewrite Z.quot_div_nonneg by lia. reflexivity.
Qed.

Lemma qlt_false (x y : Q) : y <= x -> qlt x y = false.
Proof.
  intros H. unfold qlt. apply negb_false_iff, Qle_bool_iff. exact H.
Qed.

Lemma qgt_false (x y : Q) : x <= y -> qgt x y = false.
Proof.
  intros H. unfold qgt. apply negb_false_iff, Qle_bool_iff. exact H.
Qed.

Lemma qgt_true (x y : Q) : y < x -> qgt x y = true.
Proof.
  intros H. unfold qgt. apply negb_true_iff.
  destruct (Qle_bool x y) eqn:E; [|reflexivity].
  apply Qle_bool_iff in E. exfalso. exact (Qlt_not_le _ _ H E).
Qed.

Lemma qlt_true (x y : Q) : x < y -> qlt x y = true.
Proof. intros H. unfold qlt. fold (qgt y x). apply qgt_true. exact H. Qed.

(** Rounding a whole number leaves it alone. *)
Lemma round_whole (z : Z) :
  (0 <= z)%Z ->
  round_half_expand (Qabs (inject_Z z) * inject_Z 1) = Z.to_N z.
Proof.
  intros Hz. unfold round_half_expand. f_equal.
  assert (P : Qabs (inject_Z z) == inject_Z z).
  { apply Qabs_pos. change (inject_Z 0 <= inject_Z z).
    rewrite <- Zle_Qle. exact Hz. }
  apply Qfloor_eq; rewrite P, inject_Z_plus || rewrite P;
    change (inject_Z 1) with 1; lra.
Qed.

(** The whole degrees and the tenths of minutes a formatter prints. *)
Definition whole_degrees (x : Q) : N := Z.to_N (Qfloor (Qabs x)).

Definition minute_tenths (x : Q) : N :=
  round_half_expand ((Qabs x - inject_Z (Qfloor (Qabs x))) * 60 * 10).

Lemma Qfloor_abs_nonneg (x : Q) : (0 <= Qfloor (Qabs x))%Z.
Proof.
  rewrite <- (Qfloor_Z 0). apply Qfloor_resp_le, Qabs_nonneg.
Qed.

Lemma fraction_bounds (x : Q) :
  0 <= Qabs x - inject_Z (Qfloor (Qabs x))
  /\ Qabs x - inject_Z (Qfloor (Qabs x)) < 1.
Proof.
  pose proof (Qfloor_le (Qabs x)) as L.
  pose proof (Qlt_floor (Qabs x)) as U.
  rewrite inject_Z_plus in U. change (inject_Z 1) with 1 in U.
  split; lra.
Qed.

Lemma minute_tenths_le (x : Q) : (minute_tenths x <= 600)%N.
Proof.
  destruct (fraction_bounds x) as [L U].
  unfold minute_tenths, round_half_expand.
  set (fr := Qabs x - inject_Z (Qfloor (Qabs x))) in *.
  assert (H : (Qfloor (fr * 60 * 10 + (1 # 2)) <= 600)%Z).
  { apply Qfloor_upper. change (inject_Z (600 + 1)) with 601. lra. }
  lia.
Qed.

Lemma whole_degrees_le (x : Q) (b : Z) :
  Qabs x <= inject_Z b -> (whole_degrees x <= Z.to_N b)%N.
Proof.
  intros H. unfold whole_degrees.
  apply Qfloor_resp_le in H. rewrite Qfloor_Z in H.
  pose proof (Qfloor_abs_nonneg x). lia.
Qed.

Definition rounded_degrees (x : Q) : N := round_half_expand (Qabs x).

Lemma rounded_degrees_le (x : Q) (b : Z) :
  Qabs x <= inject_Z b -> (rounded_degrees x <= Z.to_N b)%N.
Proof.
  intros H. unfold rounded_degrees, round_half_expand.
  assert (U : (Qfloor (Qabs x + (1 # 2)) <= b)%Z).
  { apply Qfloor_upper. rewrite inject_Z_plus. change (inject_Z 1) with 1. lra. }
  assert (L : (0 <= Qfloor (Qabs x + (1 # 2)))%Z).
  { rewrite <- (Qfloor_Z 0). apply Qfloor_resp_le.
    pose proof (Qabs_nonneg x). change (inject_Z 0) with 0. lra. }
  lia.
Qed.

Lemma qabs_eq (x : Q) : qabs x == Qabs x.
Proof. unfold qabs. apply Qred_correct. Qed.

Lemma formatDegreesDirection_parts x w pos neg :
  formatDegreesDirection x w pos neg
  = render false (rounded_degrees x)
      {| minimumIntegerDigits := w; minimumFractionDigits := 0;
         maximumFractionDigits := 0 |}
    ++ [degree_sign] ++ direction x pos neg.
Proof.
  unfold formatDegreesDirection, toLocaleString.
  cbn [maximumFractionDigits].
  rewrite qlt_false by (rewrite qabs_eq; apply Qabs_nonneg).
  do 2 f_equal. unfold rounded_degrees, round_half_expand. f_equal.
  apply Qfloor_comp. rewrite qabs_eq.
  rewrite (Qabs_pos (Qabs x)) by apply Qabs_nonneg.
  change (inject_Z (Z.of_N (10 ^ N.of_nat 0))) with 1. ring.
Qed.

Lemma formatDegreesMinutesDirection_parts x w pos neg :
  formatDegreesMinutesDirection x w pos neg
  = render false (whole_degrees x)
      {| minimumIntegerDigits := w; minimumFractionDigits := 0;
         maximumFractionDigits := 0 |}
    ++ [degree_sign; 32%N]
    ++ render false (minute_tenths x)
         {| minimumIntegerDigits := 2; minimumFractionDigits := 1;
            maximumFractionDigits := 1 |}
    ++ [right_quote] ++ direction x pos neg.
Proof.
  unfold formatDegreesMinutesDirection, toLocaleString.
  cbn [maximumFractionDigits].
  assert (A : 0 <= qabs x) by (rewrite qabs_eq; apply Qabs_nonneg).
  assert (T : trunc (qabs x) = inject_Z (Qfloor (Qabs x))).
  { rewrite trunc_floor by exact A. f_equal. apply Qfloor_comp, qabs_eq. }
  rewrite T.
  pose proof (Qfloor_abs_nonneg x) as F.
  destruct (fraction_bounds x) as [L U].
  assert (Y : qmul (qsub (qabs x) (inject_Z (Qfloor (Qabs x)))) 60
              == (Qabs x - inject_Z (Qfloor (Qabs x))) * 60).
  { unfold qmul, qsub. rewrite !Qred_correct, qabs_eq. reflexivity. }
  rewrite (@qlt_false (inject_Z (Qfloor (Qabs x))) 0)
    by (change 0 with (inject_Z 0); rewrite <- Zle_Qle; exact F).
  rewrite (@qlt_false (qmul (qsub (qabs x) (inject_Z (Qfloor (Qabs x)))) 60) 0)
    by (rewrite Y; lra).
  change (inject_Z (Z.of_N (10 ^ N.of_nat 0))) with (inject_Z 1).
  rewrite round_whole by exact F. fold (whole_degrees x).
  assert (M : round_half_expand
                (Qabs (qmul (qsub (qabs x) (inject_Z (Qfloor (Qabs x)))) 60)
                 * inject_Z (Z.of_N (10 ^ N.of_nat 1)))
              = minute_tenths x).
  { unfold minute_tenths, round_half_expand. f_equal.
    apply Qfloor_comp. rewrite Y.
    rewrite Qabs_pos by lra.
    change (inject_Z (Z.of_N (10 ^ N.of_nat 1))) with 10. reflexivity. }
  rewrite M. reflexivity.
Qed.

(** The direction suffix, read off the sign of the value. *)
Definition sign_suffix (x : Q) (pos neg : jsstring) : jsstring :=
  match x ?= 0 with
  | Gt => 32%N :: pos
  | Lt => 32%N :: neg
  | Eq => []
  end.

Lemma direction_sign x pos neg : direction x pos neg = sign_suffix x pos neg.
Proof.
  unfold direction, sign_suffix.
  destruct (x ?= 0) eqn:C.
  - apply Qeq_alt in C. rewrite qgt_false, qlt_false by lra. reflexivity.
  - apply Qlt_alt in C. rewrite qgt_false, qlt_true by lra. reflexivity.
  - apply Qgt_alt in C. rewrite qgt_true by lra. reflexivity.
Qed.

End FormatArith.

(** ** Checking a property on every number up to a bound *)

Definition all_below (P : N -> bool) (b : N) : bool :=
  N.recursion true (fun k acc => acc && P k) (N.succ b).

Lemma all_below_spec (P : N -> bool) (b : N) :
  all_below P b = true -> forall n, (n <= b)%N -> P n = true.
Proof.
  unfold all_below. intros H n Hn.
  assert (G : forall c, N.recursion true (fun k acc => acc && P k) c = true ->
                        forall n, (n < c)%N -> P n = true).
  { clear. intros c. induction c as [|c IH] using N.peano_ind; intros H n Hn.
    - lia.
    - rewrite (@N.recursion_succ bool eq) in H;
        [|reflexivity|intros ? ? -> ? ? ->; reflexivity].
      apply andb_true_iff in H. destruct H as [H1 H2].
      destruct (N.eq_dec n c) as [->|Hne]; [exact H2|].
      apply IH; [exact H1|lia]. }
  apply (G (N.succ b) H). lia.
Qed.

(** Equality of rationals as terms (they are kept in lowest terms). *)
Definition q_eqb (a b : Q) : bool :=
  Z.eqb (Qnum a) (Qnum b) && Pos.eqb (Qden a) (Qden b).

Lemma q_eqb_eq a b : q_eqb a b = true -> a = b.
Proof.
  destruct a, b. unfold q_eqb; simpl.
  rewrite andb_true_iff, Z.eqb_eq, Pos.eqb_eq. intros [-> ->]. reflexivity.
Qed.

(** ** The texts written by the formatters *)

Definition digits (w : nat) (d : jsstring) : Prop :=
  List.length d = w /\ forallb is_digit d = true.

Definition digitsb (w : nat) (d : jsstring) : bool :=
  Nat.eqb (List.length d) w && forallb is_digit d.

Lemma digitsb_digits w d : digitsb w d = true -> digits w d.
Proof.
  unfold digitsb, digits. rewrite andb_true_iff, Nat.eqb_eq. tauto.
Qed.

Definition degrees_format (w : nat) : numberFormat :=
  {| minimumIntegerDigits := w; minimumFractionDigits := 0;
     maximumFractionDigits := 0 |}.

Definition minutes_format : numberFormat :=
  {| minimumIntegerDigits := 2; minimumFractionDigits := 1;
     maximumFractionDigits := 1 |}.

(** Whole degrees up to 99 print as two digits, up to 999 as three, and
    read back as the same number. *)
Lemma render_degrees2 n :
  (n <= 99)%N ->
  digits 2 (render false n (degrees_format 2))
  /\ Number (render false n (degrees_format 2)) = inject_Z (Z.of_N n).
Proof.
  intros H.
  assert (C : all_below (fun n => digitsb 2 (render false n (degrees_format 2))
                && q_eqb (Number (render false n (degrees_format 2)))
                     (inject_Z (Z.of_N n))) 99 = true) by (vm_compute; reflexivity).
  apply all_below_spec with (n := n) in C; [|exact H].
  apply andb_true_iff in C. destruct C as [C1 C2].
  split; [apply digitsb_digits, C1|apply q_eqb_eq, C2].
Qed.

Lemma render_degrees3 n :
  (n <= 999)%N ->
  digits 3 (render false n (degrees_format 3))
  /\ Number (render false n (degrees_format 3)) = inject_Z (Z.of_N n).
Proof.
  intros H.
  assert (C : all_below (fun n => digitsb 3 (render false n (degrees_format 3))
                && q_eqb (Number (render false n (degrees_format 3)))
                     (inject_Z (Z.of_N n))) 999 = true) by (vm_compute; reflexivity).
  apply all_below_spec with (n := n) in C; [|exact H].
  apply andb_true_iff in C. destruct C as [C1 C2].
  split; [apply digitsb_digits, C1|apply q_eqb_eq, C2].
Qed.

(** Tenths of minutes up to 99.9 print as two digits, a point and one
    digit, and read back as the same number. *)
Definition minutes_shape (k : N) (t : jsstring) : bool :=
  match t with
  | [m1; m2; p; f] =>
      is_digit m1 && is_digit m2 && (p =? 46)%N && is_digit f
      && q_eqb (Number t) (Qred (Z.of_N k # 10))
  | _ => false
  end.

Lemma render_minutes k :
  (k <= 999)%N ->
  exists m1 m2 f,
    render false k minutes_format = [m1; m2; 46%N; f]
    /\ is_digit m1 = true /\ is_digit m2 = true /\ is_digit f = true
    /\ Number [m1; m2; 46%N; f] = Qred (Z.of_N k # 10).
Proof.
  intros H.
  assert (C : all_below (fun k => minutes_shape k (render false k minutes_format))
                        999 = true) by (vm_compute; reflexivity).
  apply all_below_spec with (n := k) in C; [|exact H].
  unfold minutes_shape in C.
  destruct (render false k minutes_format) as [|m1 [|m2 [|p [|f [|? ?]]]]];
    try discriminate.
  rewrite !andb_true_iff in C. destruct C as [[[[C1 C2] C3] C4] C5].
  apply N.eqb_eq in C3. subst p.
  exists m1, m2, f. repeat split; try assumption. apply q_eqb_eq, C5.
Qed.

(** *** The shape of every formatted latitude and longitude *)

Inductive axis := Latitude | Longitude.

Definition axis_width (a : axis) : nat :=
  match a with Latitude => 2 | Longitude => 3 end.

Definition axis_max (a : axis) : Q :=
  match a with Latitude => 90%Q | Longitude => 180%Q end.

Definition axis_pos (a : axis) : jsstring :=
  match a with Latitude => N_ | Longitude => E_ end.

Definition axis_neg (a : axis) : jsstring :=
  match a with Latitude => S_ | Longitude => W_ end.

Definition formatInteger (a : axis) : Q -> jsstring :=
  match a with
  | Latitude => formatIntegerLatitude
  | Longitude => formatIntegerLongitude
  end.

Definition formatMinutes (a : axis) : Q -> jsstring :=
  match a with
  | Latitude => formatLatitude
  | Longitude => formatLongitude
  end.

Lemma render_degrees (a : axis) n :
  (n <= Z.to_N (match a with Latitude => 90 | Longitude => 180 end))%N ->
  digits (axis_width a) (render false n (degrees_format (axis_width a))).
Proof.
  destruct a; simpl; intros H.
  - apply render_degrees2. lia.
  - apply render_degrees3. lia.
Qed.

(** C3, as the code has it: the degrees are zero-padded to the width of the
    field, the minutes have two whole digits and exactly one fraction digit,
    and the suffix is the positive letter above zero, the negative letter
    below zero and nothing at all at zero. *)
Theorem format_shape (a : axis) (x : Q) :
  (Qabs x <= axis_max a)%Q ->
  (exists d,
      digits (axis_width a) d
      /\ formatInteger a x
         = d ++ [degree_sign] ++ sign_suffix x (axis_pos a) (axis_neg a))
  /\ (exists d mm f,
         digits (axis_width a) d /\ digits 2 mm /\ is_digit f = true
         /\ formatMinutes a x
            = d ++ [degree_sign; 32%N] ++ mm ++ [46%N; f] ++ [right_quote]
                ++ sign_suffix x (axis_pos a) (axis_neg a)).
Proof.
  intros Hx.
  assert (Hb : (Qabs x <= inject_Z (match a with Latitude => 90 | Longitude => 180 end))%Q)
    by (destruct a; exact Hx).
  split.
  - exists (render false (rounded_degrees x) (degrees_format (axis_width a))).
    split.
    + apply render_degrees. apply rounded_degrees_le. exact Hb.
    + destruct a; unfold formatInteger, formatIntegerLatitude, formatIntegerLongitude;
        rewrite formatDegreesDirection_parts, direction_sign; reflexivity.
  - destruct (render_minutes (k := minute_tenths x)) as (m1 & m2 & f & E & D1 & D2 & D3 & _).
    { pose proof (minute_tenths_le x). lia. }
    exists (render false (whole_degrees x) (degrees_format (axis_width a))), [m1; m2], f.
    split; [apply render_degrees, whole_degrees_le, Hb|].
    split; [split; [reflexivity|simpl; rewrite D1, D2; reflexivity]|].
    split; [exact D3|].
    destruct a; unfold formatMinutes, formatLatitude, formatLongitude;
      rewrite formatDegreesMinutesDirection_parts, direction_sign;
      fold minutes_format; rewrite E; reflexivity.
Qed.

Lemma format_shape_witness :
  exists d,
    digits 2 d
    /\ formatIntegerLatitude (-35)%Q = d ++ [degree_sign] ++ [32%N] ++ S_.
Proof.
  destruct (format_shape Latitude (-35)%Q) as [H _].
  - vm_compute. discriminate.
  - exact H.
Defined.

(** C3 as the spec words it fails at zero: no formatter writes a direction
    letter for the value zero. *)
Lemma format_zero_has_no_letter :
  formatIntegerLatitude 0%Q = [48; 48; degree_sign]%N
  /\ formatIntegerLongitude 0%Q = [48; 48; 48; degree_sign]%N
  /\ existsb (N.eqb 78) (formatLatitude 0%Q) = false
  /\ existsb (N.eqb 69) (formatLongitude 0%Q) = false.
Proof. vm_compute. repeat split. Qed.

(** ** Reading canonical texts back *)

Ltac const_char f :=
  repeat match goal with
         | |- context [f (N.pos ?p)] =>
             let v := eval vm_compute in (f (N.pos p)) in
             change (f (N.pos p)) with v
         end.

(** A text that starts and ends with no blank and holds no small letter is
    left alone by [trim] and [toUpperCase]. *)
Ltac trim_upper :=
  unfold trim, toUpperCase;
  repeat (cbn [trimStart rev app map]; digit_facts; const_char is_space);
  const_char upper; reflexivity.

(** Run a parser of the codec on a text whose digits are variables. *)
Ltac parse_text t :=
  unfold parseIntegerLatitude, parseIntegerLongitude, parseLongitude,
    parseDegreesDirection;
  replace (toUpperCase (trim t)) with t by (symmetry; trim_upper);
  cbn [JsString.eqb];
  rewrite exec_collapse by (apply degreesRegex_respects; reflexivity);
  cbn [map]; digit_facts; const_char collapse;
  match goal with
  | |- context [find ?g ?r ?u] =>
      let v := eval vm_compute in (find g r u) in
      replace (find g r u) with v by (vm_compute; reflexivity)
  end;
  cbn -[Number qadd qdiv qgt qneg].

Section CanonicalLongitude.
Variables c1 c2 c3 m1 m2 f : char.
Hypothesis (H1 : is_digit c1 = true) (H2 : is_digit c2 = true)
           (H3 : is_digit c3 = true) (H4 : is_digit m1 = true)
           (H5 : is_digit m2 = true) (H6 : is_digit f = true).

Let magnitude : Q :=
  qadd (Number [c1; c2; c3]) (qdiv (Number [m1; m2; 46%N; f]) 60%Q).

Lemma parseLongitude_east :
  parseLongitude [c1; c2; c3; degree_sign; 32; m1; m2; 46; f; right_quote; 32; 69]%N
  = if qgt magnitude 180%Q then None else Some magnitude.
Proof.
  parse_text [c1; c2; c3; degree_sign; 32; m1; m2; 46; f; right_quote; 32; 69]%N.
  reflexivity.
Qed.

Lemma parseLongitude_west :
  parseLongitude [c1; c2; c3; degree_sign; 32; m1; m2; 46; f; right_quote; 32; 87]%N
  = if qgt magnitude 180%Q then None else Some (qneg magnitude).
Proof.
  parse_text [c1; c2; c3; degree_sign; 32; m1; m2; 46; f; right_quote; 32; 87]%N.
  reflexivity.
Qed.
End CanonicalLongitude.

(** The value with its direction folded into the sign, in lowest terms. *)
Definition signed (negative : bool) (q : Q) : Q :=
  if negative then qneg q else Qred q.

Section LongitudeArith.
Local Open Scope Q_scope.

Variable n : N.
Variable negative : bool.
Let x : Q := signed negative (Z.of_N n # 600).

Lemma signed_abs : Qabs x == Z.of_N n # 600.
Proof.
  unfold x, signed, qneg. destruct negative; rewrite Qred_correct.
  - rewrite Qabs_opp. apply Qabs_pos. unfold Qle; simpl; lia.
  - apply Qabs_pos. unfold Qle; simpl; lia.
Qed.

Lemma signed_floor : Qfloor (Qabs x) = (Z.of_N n / 600)%Z.
Proof. rewrite signed_abs. reflexivity. Qed.

Lemma signed_whole_degrees : whole_degrees x = (n / 600)%N.
Proof.
  unfold whole_degrees. rewrite signed_floor.
  change 600%Z with (Z.of_N 600). rewrite <- N2Z.inj_div. apply N2Z.id.
Qed.

Lemma signed_minute_tenths : minute_tenths x = (n mod 600)%N.
Proof.
  unfold minute_tenths, round_half_expand.
  rewrite signed_floor.
  assert (E : (Qabs x - inject_Z (Z.of_N n / 600)) * 60 * 10 + (1 # 2)
              == inject_Z (Z.of_N n mod 600) + (1 # 2)).
  { rewrite signed_abs.
    pose proof (Z.div_mod (Z.of_N n) 600 ltac:(lia)) as D.
    set (q := (Z.of_N n / 600)%Z) in *. set (r := (Z.of_N n mod 600)%Z) in *.
    rewrite Qmake_Qdiv, D, inject_Z_plus, inject_Z_mult.
    change (inject_Z (Z.pos 600)) with 600. change (inject_Z 600) with 600.
    field. }
  rewrite E.
  assert (F : Qfloor (inject_Z (Z.of_N n mod 600) + (1 # 2)) = (Z.of_N n mod 600)%Z).
  { apply Qfloor_eq; rewrite ?inject_Z_plus; change (inject_Z 1) with 1; lra. }
  rewrite F. change 600%Z with (Z.of_N 600). rewrite <- N2Z.inj_mod. apply N2Z.id.
Qed.

Lemma signed_compare :
  (0 < n)%N -> (x ?= 0) = if negative then Lt else Gt.
Proof.
  intros Hn. unfold x, signed, qneg.
  assert (P : 0 < Z.of_N n # 600) by (unfold Qlt; cbn [Qnum Qden]; lia).
  set (v := Z.of_N n # 600) in *.
  destruct negative.
  - apply (proj1 (Qlt_alt _ _)). rewrite Qred_correct. lra.
  - apply (proj1 (Qgt_alt _ _)). rewrite Qred_correct. lra.
Qed.

Lemma magnitude_of_parts :
  qadd (inject_Z (Z.of_N (n / 600)))
       (qdiv (Qred (Z.of_N (n mod 600) # 10)) 60)
  = Qred (Z.of_N n # 600).
Proof.
  unfold qadd, qdiv. apply Qred_complete.
  rewrite !Qred_correct.
  pose proof (N.div_mod n 600 ltac:(lia)) as D.
  apply (f_equal Z.of_N) in D. rewrite N2Z.inj_add, N2Z.inj_mul in D.
  rewrite !Qmake_Qdiv, D, inject_Z_plus, inject_Z_mult.
  change (inject_Z (Z.pos 600)) with 600. change (inject_Z (Z.of_N 600)) with 600.
  change (inject_Z (Z.pos 10)) with 10.
  field.
Qed.

End LongitudeArith.

(** A longitude with minutes, formatted, parses back to itself. *)
Lemma parseLongitude_formatLongitude (negative : bool) (n : N) :
  (n <= 108000)%N ->
  parseLongitude (formatLongitude (signed negative (Z.of_N n # 600)))
  = Some (signed negative (Z.of_N n # 600)).
Proof.
  intros Hn.
  destruct (N.eq_dec n 0) as [->|Hz].
  { destruct negative; vm_compute; reflexivity. }
  unfold formatLongitude.
  rewrite formatDegreesMinutesDirection_parts, direction_sign.
  unfold sign_suffix. rewrite signed_compare by lia.
  rewrite signed_whole_degrees, signed_minute_tenths.
  assert (Hd : (n / 600 <= 999)%N).
  { apply N.lt_succ_r. apply N.Div0.div_lt_upper_bound. lia. }
  assert (Hk : (n mod 600 <= 999)%N).
  { pose proof (N.mod_lt n 600 ltac:(lia)). lia. }
  destruct (render_degrees3 Hd) as [[Dl Dd] Dv].
  destruct (render_minutes Hk) as (m1 & m2 & f & E & D1 & D2 & D3 & Mv).
  fold (degrees_format 3) minutes_format. rewrite E.
  destruct (render false (n / 600) (degrees_format 3)) as [|c1 [|c2 [|c3 [|? ?]]]];
    try discriminate Dl.
  simpl in Dd. rewrite !andb_true_iff in Dd. destruct Dd as (Q1 & Q2 & Q3 & _).
  assert (M : qadd (Number [c1; c2; c3]) (qdiv (Number [m1; m2; 46%N; f]) 60%Q)
              = Qred (Z.of_N n # 600)).
  { rewrite Dv, Mv. apply magnitude_of_parts. }
  assert (G : qgt (Qred (Z.of_N n # 600)) 180%Q = false).
  { apply qgt_false. rewrite Qred_correct. unfold Qle; simpl; lia. }
  destruct negative; cbn [app W_ E_ signed].
  - rewrite parseLongitude_west by assumption. cbv zeta.
    match goal with
    | |- context [qgt ?e _] =>
        replace e with (Qred (Z.of_N n # 600)) by (symmetry; exact M)
    end.
    rewrite G.
    f_equal. unfold qneg. apply Qred_complete. rewrite Qred_correct. reflexivity.
  - rewrite parseLongitude_east by assumption. cbv zeta.
    match goal with
    | |- context [qgt ?e _] =>
        replace e with (Qred (Z.of_N n # 600)) by (symmetry; exact M)
    end.
    rewrite G. reflexivity.
Qed.

(** ** The text fields and the handlers that read them *)

Lemma value_of_set_value e v s : value_of e (set_value e v s) = v.
Proof. unfold value_of, set_value; simpl. destruct e; reflexivity. Qed.

Lemma value_of_set_draft e d s : value_of e (set_draft d s) = value_of e s.
Proof. reflexivity. Qed.

(** What [updateZn] reads in a text: the bearing [q], or a failure. *)
Definition Zn_reads (text : jsstring) (q : Q) : bool :=
  negb (JsString.eqb (trim text) [])
  && match exec 1 bearingRegex (trim text) with
     | Some m => q_eqb (Number_group m 1) q && negb (qgt q 360%Q)
     | None => false
     end.

Definition Zn_fails (text : jsstring) : bool :=
  negb (JsString.eqb (trim text) [])
  && match exec 1 bearingRegex (trim text) with
     | Some m => qgt (Number_group m 1) 360%Q
     | None => true
     end.

Lemma updateZn_reads s q :
  Zn_reads (value_of El.Zn s) q = true ->
  updateZn s
  = let s' := set_value El.Zn (formatBearing q) s in
    set_draft (Lop.set_Zn (Some (radians (ofQ q))) (_draftLOP s')) s'.
Proof.
  unfold Zn_reads, updateZn. intros H.
  apply andb_true_iff in H. destruct H as [H1 H2].
  apply negb_true_iff in H1. rewrite H1.
  destruct (exec 1 bearingRegex (trim (value_of El.Zn s))) as [m|]; [|discriminate].
  apply andb_true_iff in H2. destruct H2 as [H2 H3].
  apply q_eqb_eq in H2. apply negb_true_iff in H3. rewrite H2, H3. reflexivity.
Qed.

Lemma updateZn_fails s :
  Zn_fails (value_of El.Zn s) = true ->
  updateZn s
  = let s' := flagInputError El.Zn s in
    set_draft (Lop.set_Zn None (_draftLOP s')) s'.
Proof.
  unfold Zn_fails, updateZn. intros H.
  apply andb_true_iff in H. destruct H as [H1 H2].
  apply negb_true_iff in H1. rewrite H1.
  destruct (exec 1 bearingRegex (trim (value_of El.Zn s))) as [m|]; [|reflexivity].
  rewrite H2. reflexivity.
Qed.

(** What [updateA] reads in a text: the distance [q], or a failure. *)
Definition A_reads (text : jsstring) (q : Q) : bool :=
  negb (JsString.eqb (trim text) [])
  && match exec 2 distanceRegex (trim text) with
     | Some m => q_eqb (Number_group m 1) q
     | None => false
     end.

Definition A_fails (text : jsstring) : bool :=
  negb (JsString.eqb (trim text) [])
  && match exec 2 distanceRegex (trim text) with
     | Some _ => false
     | None => true
     end.

Lemma updateA_reads s q :
  A_reads (value_of El.a s) q = true ->
  updateA s
  = let s' := set_value El.a (formatDistance q) s in
    set_draft (Lop.set_a
                 (Some (if JsString.eqb (aDir (dom s')) [84%N]
                        then ofQ q else nneg (ofQ q)))
                 (_draftLOP s')) s'.
Proof.
  unfold A_reads, updateA. intros H.
  apply andb_true_iff in H. destruct H as [H1 H2].
  apply negb_true_iff in H1. rewrite H1.
  destruct (exec 2 distanceRegex (trim (value_of El.a s))) as [m|]; [|discriminate].
  apply q_eqb_eq in H2. rewrite H2. reflexivity.
Qed.

Lemma updateA_fails s :
  A_fails (value_of El.a s) = true ->
  updateA s
  = let s' := flagInputError El.a s in
    set_draft (Lop.set_a None (_draftLOP s')) s'.
Proof.
  unfold A_fails, updateA. intros H.
  apply andb_true_iff in H. destruct H as [H1 H2].
  apply negb_true_iff in H1. rewrite H1.
  destruct (exec 2 distanceRegex (trim (value_of El.a s))) as [m|];
    [discriminate|reflexivity].
Qed.

(** A page to run examples on: empty inputs, "Toward" selected, a window of
    1000 by 1000 pixels with a header and a footer of 60 pixels each. *)
Definition example_page : page :=
  {| inputs := fun _ => {| value := []; flagged := false |};
     aDir := [84%N];
     addLOPBtn_disabled := false;
     coords := None; coords_snapped := false;
     innerWidth := 1000; innerHeight := 1000;
     header_clientHeight := 60; footer_clientHeight := 60;
     sheet_offsetLeft := 0; sheet_offsetTop := 60 |}.

(** ** Round trips (C5) *)

Lemma parseIntegerLatitude_format (negative : bool) (n : N) :
  (n <= 89)%N ->
  parseIntegerLatitude (formatIntegerLatitude (signed negative (inject_Z (Z.of_N n))))
  = Some (signed negative (inject_Z (Z.of_N n))).
Proof.
  intros H.
  assert (C : forall b,
             all_below (fun n =>
               match parseIntegerLatitude
                       (formatIntegerLatitude (signed b (inject_Z (Z.of_N n)))) with
               | Some y => q_eqb y (signed b (inject_Z (Z.of_N n)))
               | None => false
               end) 89 = true) by (intros []; vm_compute; reflexivity).
  specialize (C negative). apply all_below_spec with (n := n) in C; [|exact H].
  destruct (parseIntegerLatitude _); [|discriminate].
  apply q_eqb_eq in C. rewrite C. reflexivity.
Qed.

Lemma parseIntegerLongitude_format (negative : bool) (n : N) :
  (n <= 180)%N ->
  parseIntegerLongitude (formatIntegerLongitude (signed negative (inject_Z (Z.of_N n))))
  = Some (signed negative (inject_Z (Z.of_N n))).
Proof.
  intros H.
  assert (C : forall b,
             all_below (fun n =>
               match parseIntegerLongitude
                       (formatIntegerLongitude (signed b (inject_Z (Z.of_N n)))) with
               | Some y => q_eqb y (signed b (inject_Z (Z.of_N n)))
               | None => false
               end) 180 = true) by (intros []; vm_compute; reflexivity).
  specialize (C negative). apply all_below_spec with (n := n) in C; [|exact H].
  destruct (parseIntegerLongitude _); [|discriminate].
  apply q_eqb_eq in C. rewrite C. reflexivity.
Qed.

Lemma formatBearing_reads (n : N) :
  (n <= 360)%N ->
  Zn_reads (formatBearing (inject_Z (Z.of_N n))) (inject_Z (Z.of_N n)) = true.
Proof.
  intros H.
  assert (C : all_below (fun n => Zn_reads (formatBearing (inject_Z (Z.of_N n)))
                                           (inject_Z (Z.of_N n))) 360 = true)
    by (vm_compute; reflexivity).
  exact (all_below_spec _ C H).
Qed.

(** The tenths of a nautical mile [formatDistance] prints. *)
Definition distance_tenths (x : Q) : N := round_half_expand (Qabs x * 10)%Q.

Lemma formatDistance_parts (x : Q) :
  (0 <= x)%Q ->
  formatDistance x
  = render false (distance_tenths x)
      {| minimumIntegerDigits := 1; minimumFractionDigits := 1;
         maximumFractionDigits := 1 |} ++ [right_quote].
Proof.
  intros H. unfold formatDistance, toLocaleString.
  rewrite qlt_false by exact H. reflexivity.
Qed.

Lemma distance_tenths_lt (x : Q) :
  (0 <= x)%Q -> (x < 99995 # 100)%Q -> (distance_tenths x <= 9999)%N.
Proof.
  intros H0 H1. unfold distance_tenths, round_half_expand.
  rewrite Qabs_pos by exact H0.
  assert (U : (Qfloor (x * 10 + (1 # 2)) <= 9999)%Z).
  { apply Qfloor_upper. change (inject_Z (9999 + 1)) with 10000%Q. lra. }
  lia.
Qed.

Lemma distance_tenths_of_tenths (k : N) :
  distance_tenths (Qred (Z.of_N k # 10)) = k.
Proof.
  unfold distance_tenths, round_half_expand.
  assert (E : (Qabs (Qred (Z.of_N k # 10)) * 10 + (1 # 2)
               == inject_Z (Z.of_N k) + (1 # 2))%Q).
  { rewrite Qred_correct.
    rewrite Qabs_pos by (unfold Qle; cbn [Qnum Qden]; lia).
    rewrite Qmake_Qdiv. change (inject_Z (Z.pos 10)) with 10%Q. field. }
  rewrite E.
  assert (F : Qfloor (inject_Z (Z.of_N k) + (1 # 2)) = Z.of_N k).
  { apply Qfloor_eq; rewrite ?inject_Z_plus; change (inject_Z 1) with 1%Q; lra. }
  rewrite F. apply N2Z.id.
Qed.

Definition distance_format : numberFormat :=
  {| minimumIntegerDigits := 1; minimumFractionDigits := 1;
     maximumFractionDigits := 1 |}.

Lemma rendered_distance_reads (k : N) :
  (k <= 9999)%N ->
  A_reads (render false k distance_format ++ [right_quote]) (Qred (Z.of_N k # 10))
  = true.
Proof.
  intros H.
  assert (C : all_below (fun k => A_reads (render false k distance_format ++ [right_quote])
                                          (Qred (Z.of_N k # 10))) 9999 = true)
    by (vm_compute; reflexivity).
  exact (all_below_spec _ C H).
Qed.

(** C5, as the code has it: a canonical text, parsed and formatted again,
    is the same text, for integer latitudes up to 89, integer longitudes
    up to 180, longitudes of a whole number of tenths of a minute up to 180
    degrees, bearings up to 360 and distances whose canonical text is below
    1000. *)
Theorem format_parse_format :
  (forall negative n, (n <= 89)%N ->
     let x := signed negative (inject_Z (Z.of_N n)) in
     option_map formatIntegerLatitude (parseIntegerLatitude (formatIntegerLatitude x))
     = Some (formatIntegerLatitude x))
  /\ (forall negative n, (n <= 180)%N ->
        let x := signed negative (inject_Z (Z.of_N n)) in
        option_map formatIntegerLongitude
                   (parseIntegerLongitude (formatIntegerLongitude x))
        = Some (formatIntegerLongitude x))
  /\ (forall negative n, (n <= 108000)%N ->
        let x := signed negative (Z.of_N n # 600) in
        option_map formatLongitude (parseLongitude (formatLongitude x))
        = Some (formatLongitude x))
  /\ (forall s n, (n <= 360)%N ->
        let x := inject_Z (Z.of_N n) in
        let s' := updateZn (set_value El.Zn (formatBearing x) s) in
        Lop.Zn (_draftLOP s') = Some (radians (ofQ x))
        /\ value_of El.Zn s' = formatBearing x)
  /\ (forall s x, (0 <= x)%Q -> (x < 99995 # 100)%Q ->
        let s' := updateA (set_value El.a (formatDistance x) s) in
        Lop.a (_draftLOP s') <> None
        /\ value_of El.a s' = formatDistance x).
Proof.
  split; [|split; [|split; [|split]]].
  - intros negative n H x. unfold x.
    rewrite parseIntegerLatitude_format by exact H. reflexivity.
  - intros negative n H x. unfold x.
    rewrite parseIntegerLongitude_format by exact H. reflexivity.
  - intros negative n H x. unfold x.
    rewrite parseLongitude_formatLongitude by exact H. reflexivity.
  - intros s n H x s'. subst s' x.
    rewrite updateZn_reads with (q := inject_Z (Z.of_N n))
      by (rewrite value_of_set_value; apply formatBearing_reads; assumption).
    cbv zeta. split; [reflexivity|].
    rewrite value_of_set_draft. apply value_of_set_value.
  - intros s x H0 H1 s'. subst s'.
    rewrite formatDistance_parts by assumption.
    rewrite updateA_reads with (q := Qred (Z.of_N (distance_tenths x) # 10))
      by (rewrite value_of_set_value; apply rendered_distance_reads,
            distance_tenths_lt; assumption).
    cbv zeta. split; [cbn; discriminate|].
    rewrite value_of_set_draft, value_of_set_value.
    rewrite formatDistance_parts
      by (rewrite Qred_correct; unfold Qle; cbn [Qnum Qden]; lia).
    rewrite distance_tenths_of_tenths. reflexivity.
Qed.

Lemma format_parse_format_witness :
  option_map formatLongitude
    (parseLongitude (formatLongitude (signed true (87180 # 600))))
  = Some (formatLongitude (signed true (87180 # 600)))
  /\ value_of El.a (updateA (set_value El.a (formatDistance 20%Q) (boot example_page)))
     = formatDistance 20%Q.
Proof.
  destruct format_parse_format as (_ & _ & H3 & _ & H5). split.
  - apply (H3 true 87180%N). vm_compute. discriminate.
  - apply (H5 (boot example_page) 20%Q); vm_compute; [discriminate|reflexivity].
Defined.

(** C5 as the spec words it fails in two places.  A longitude whose minutes
    round up to sixty is written with the minutes 60.0; read back, that text
    is the next whole degree, which is written with the minutes 00.0.  A
    distance of 1000 nautical miles is written with a grouping comma, which
    [updateA] rejects. *)
Lemma canonical_text_not_stable :
  (formatLongitude (25999 # 2000)
   = lit "012" ++ [degree_sign; 32%N] ++ lit "60.0" ++ [right_quote] ++ lit " E"
   /\ parseLongitude (formatLongitude (25999 # 2000)) = Some 13%Q
   /\ formatLongitude 13%Q
      = lit "013" ++ [degree_sign; 32%N] ++ lit "00.0" ++ [right_quote] ++ lit " E")
  /\ (formatDistance 1000%Q = lit "1,000.0" ++ [right_quote]
      /\ exec 2 distanceRegex (trim (formatDistance 1000%Q)) = None
      /\ Lop.a (_draftLOP (updateA (set_value El.a (formatDistance 1000%Q)
                                              (boot example_page)))) = None).
Proof.
  split; [vm_compute; repeat split|].
  split; [vm_compute; reflexivity|].
  split; [vm_compute; reflexivity|].
  rewrite updateA_fails by (rewrite value_of_set_value; vm_compute; reflexivity).
  reflexivity.
Qed.

(** ** Boundaries of the parsers (C6) *)

(** C6: 89 is a latitude and 90 is not; 180 is a longitude and 181, or 180
    degrees and a fraction of a minute, is not; 360 is a bearing and 361 is
    not.  A text that is refused yields [None] (the [null] of the source),
    and for the bearing an unset draft value with the field flagged. *)
Theorem boundary_magnitudes :
  (parseIntegerLatitude (lit "89") = Some 89%Q
   /\ parseIntegerLatitude (lit "89 N") = Some 89%Q
   /\ parseIntegerLatitude (lit "89 S") = Some (-89)%Q
   /\ parseIntegerLatitude (lit "90") = None
   /\ parseIntegerLatitude (lit "90 N") = None
   /\ parseIntegerLatitude (lit "90 S") = None
   /\ parseIntegerLatitude (lit "-90") = None)
  /\ (parseIntegerLongitude (lit "180") = Some 180%Q
      /\ parseIntegerLongitude (lit "180 E") = Some 180%Q
      /\ parseIntegerLongitude (lit "180 W") = Some (-180)%Q
      /\ parseIntegerLongitude (lit "181") = None
      /\ parseIntegerLongitude (lit "181 E") = None
      /\ parseIntegerLongitude (lit "181 W") = None
      /\ parseIntegerLongitude (lit "-181") = None)
  /\ (parseLongitude (lit "180 0 E") = Some 180%Q
      /\ parseLongitude (lit "180 00.0 W") = Some (-180)%Q
      /\ parseLongitude (lit "180 0.1 E") = None
      /\ parseLongitude (lit "180 6 W") = None
      /\ parseLongitude (lit "181 0 E") = None)
  /\ (forall s,
         let s' := updateZn (set_value El.Zn (lit "360") s) in
         Lop.Zn (_draftLOP s') = Some (radians (ofQ 360%Q))
         /\ flagged (inputs (dom s') El.Zn) = flagged (inputs (dom s) El.Zn))
  /\ (forall s,
         let s' := updateZn (set_value El.Zn (lit "361") s) in
         Lop.Zn (_draftLOP s') = None
         /\ flagged (inputs (dom s') El.Zn) = true).
Proof.
  split; [vm_compute; repeat split|].
  split; [vm_compute; repeat split|].
  split; [vm_compute; repeat split|].
  split; intros s s'; subst s'.
  - rewrite updateZn_reads with (q := 360%Q)
      by (rewrite value_of_set_value; vm_compute; reflexivity).
    split; reflexivity.
  - rewrite updateZn_fails
      by (rewrite value_of_set_value; vm_compute; reflexivity).
    split; reflexivity.
Qed.

Lemma Number_nonneg (t : jsstring) : (0 <= Number t)%Q.
Proof.
  unfold Number. destruct (split_dot t) as [ip fp].
  rewrite Qred_correct. unfold Qle; cbn [Qnum Qden]. lia.
Qed.

Lemma Number_group_nonneg m n : (0 <= Number_group m n)%Q.
Proof.
  unfold Number_group. destruct (group m n); [apply Number_nonneg|].
  unfold Qle; simpl; lia.
Qed.

(** Whatever the text, a parser of the codec returns no magnitude above the
    maximum of its field. *)
Lemma parsed_magnitude_bounded (s : jsstring) (maxDigits : nat) (maxMagnitude : Q)
      (posDirection negDirection : jsstring) (withMinutes : bool) (q : Q) :
  (0 <= maxMagnitude)%Q ->
  parseDegreesDirection s maxDigits maxMagnitude posDirection negDirection withMinutes
  = Some q ->
  (Qabs q <= maxMagnitude)%Q.
Proof.
  intros H0. unfold parseDegreesDirection.
  assert (F : forall a b (p : bool),
             (0 <= a)%Q -> (0 <= b)%Q ->
             (if qgt (qadd a (qdiv b 60%Q)) maxMagnitude then None
              else Some (if p then qadd a (qdiv b 60%Q)
                         else qneg (qadd a (qdiv b 60%Q)))) = Some q ->
             (Qabs q <= maxMagnitude)%Q).
  { intros a b p Ha Hb.
    assert (P : (0 <= qadd a (qdiv b 60%Q))%Q).
    { unfold qadd, qdiv. rewrite !Qred_correct.
      assert (0 <= b / 60)%Q by (apply Qle_shift_div_l; lra). lra. }
    destruct (qgt _ maxMagnitude) eqn:G; [discriminate|].
    apply negb_false_iff, Qle_bool_iff in G.
    intros [= <-]. apply Qabs_Qle_condition.
    destruct p; [lra|]. unfold qneg. rewrite Qred_correct. lra. }
  destruct (JsString.eqb _ []).
  { intros [= <-]. apply Qabs_Qle_condition. lra. }
  destruct (exec 9 _ _) as [m|]; [|discriminate].
  destruct (group m 2) as [m2|].
  - apply F; [apply Number_nonneg|].
    destruct withMinutes; [apply Number_group_nonneg|lra].
  - destruct (group m 6) as [m6|]; [|discriminate].
    apply F; [apply Number_group_nonneg|].
    destruct withMinutes; [apply Number_group_nonneg|lra].
Qed.

(** In the grammar with minutes a text of three digits is not a number of
    degrees: its last digit is read as the minutes.  The input of the assumed
    longitude, which falls back to that grammar, takes 181 for 18 degrees and
    1 minute east; the input of the central longitude refuses it. *)
Lemma three_digits_with_minutes :
  parseLongitude (lit "180") = Some 18%Q
  /\ parseLongitude (lit "181") = Some (1081 # 60)%Q
  /\ parseIntegerLongitude (lit "181") = None
  /\ value_of El.aLon (updateALon (set_value El.aLon (lit "181") (boot example_page)))
     = formatLongitude (1081 # 60)%Q
  /\ flagged (inputs (dom (updateCenterLongitude
                             (set_value El.ctrLon (lit "181") (boot example_page))))
                     El.ctrLon) = true.
Proof. vm_compute. repeat split. Qed.

(** ** Minutes of sixty and more (C10) *)

Ltac parse_goal_text :=
  match goal with
  | |- parseLongitude ?t = _ => parse_text t
  end.

(** C10: a longitude written as degrees, minutes and a direction letter is
    read whatever its minutes, one or two digits with an optional tenth: the
    only check is that degrees plus minutes over sixty stay within 180. *)
Theorem minutes_not_capped (D M F : jsstring) (west : bool) :
  forallb is_digit D = true -> (1 <= List.length D <= 3)%nat ->
  forallb is_digit M = true -> (1 <= List.length M <= 2)%nat ->
  (F = [] \/ exists f, is_digit f = true /\ F = [46%N; f]) ->
  parseLongitude (D ++ [32%N] ++ M ++ F ++ [32%N] ++ (if west then W_ else E_))
  = let magnitude := qadd (Number D) (qdiv (Number (M ++ F)) 60%Q) in
    if qgt magnitude 180%Q then None
    else Some (if west then qneg magnitude else magnitude).
Proof.
  intros HD LD HM LM HF.
  destruct D as [|c1 [|c2 [|c3 [|? ?]]]]; simpl in LD; try lia;
    destruct M as [|m1 [|m2 [|? ?]]]; simpl in LM; try lia;
    simpl in HD, HM; rewrite ?andb_true_r in HD, HM;
    repeat match goal with
           | H : _ && _ = true |- _ => apply andb_true_iff in H; destruct H
           end;
    destruct HF as [->|(f & Hf & ->)]; destruct west;
    unfold W_, E_; cbn [app]; parse_goal_text; reflexivity.
Qed.

Lemma minutes_not_capped_witness :
  parseLongitude (lit "35 99 E") = Some (733 # 20)%Q
  /\ parseLongitude (lit "0 99.9 W") = Some (- (333 # 200))%Q.
Proof.
  split.
  - apply (@minutes_not_capped (lit "35") (lit "99") [] false);
      try reflexivity; try (simpl; lia). left; reflexivity.
  - apply (@minutes_not_capped (lit "0") (lit "99") (lit ".9") true);
      try reflexivity; try (simpl; lia).
    right. exists 57%N. split; reflexivity.
Defined.

(* ================================================================== *)
(** ** Arithmetic with the special values *)

Section IeeeFacts.
Local Open Scope R_scope.

Lemma is_zero_true r : r = 0 -> is_zero r = true.
Proof. intros ->. unfold is_zero. destruct (Req_dec_T 0 0); [reflexivity|contradiction]. Qed.

Lemma is_zero_false r : r <> 0 -> is_zero r = false.
Proof. intros H. unfold is_zero. destruct (Req_dec_T r 0); [contradiction|reflexivity]. Qed.

Lemma is_neg_true r : r < 0 -> is_neg r = true.
Proof. intros H. unfold is_neg. destruct (Rlt_dec r 0); [reflexivity|contradiction]. Qed.

Lemma is_neg_false r : 0 <= r -> is_neg r = false.
Proof. intros H. unfold is_neg. destruct (Rlt_dec r 0); [lra|reflexivity]. Qed.

Lemma ndiv_fin a b : b <> 0 -> ndiv (Fin a) (Fin b) = Fin (a / b).
Proof. intros H. unfold ndiv. rewrite is_zero_false by exact H. reflexivity. Qed.

Lemma nlt_fin a b : nlt (Fin a) (Fin b) = true <-> a < b.
Proof.
  unfold nlt. destruct (Rlt_dec a b); split; intros; try assumption;
    try reflexivity; try discriminate; contradiction.
Qed.

Lemma nlt_fin_false a b : nlt (Fin a) (Fin b) = false <-> b <= a.
Proof.
  unfold nlt. destruct (Rlt_dec a b); split; intros; try reflexivity;
    try discriminate; lra.
Qed.

Lemma radians_fin d : radians (Fin d) = Fin (d / 180 * PI).
Proof. unfold radians. rewrite ndiv_fin by lra. reflexivity. Qed.

Lemma radians_toNum_nan : radians NaN = NaN.
Proof. reflexivity. Qed.

Lemma Q2R_inject_Z z : Q2R (inject_Z z) = IZR z.
Proof. unfold Q2R, inject_Z; simpl. field. Qed.

End IeeeFacts.

(* ================================================================== *)
(** ** What the handlers leave alone *)

(** Reduce the projections of an updated session. *)
Ltac proj :=
  cbn [dom _ctrLat _ctrLon _latScale _lonScale _sheetSize _lops _intersections
       _draftLOP inputs aDir addLOPBtn_disabled coords coords_snapped
       innerWidth innerHeight header_clientHeight footer_clientHeight
       sheet_offsetLeft sheet_offsetTop
       set_inputs set_aDir set_disabled set_coords set_window set_dom
       set_ctrLat set_ctrLon set_frame set_lops set_intersections set_draft
       set_value set_flag
       Lop.a Lop.Zn Lop.aLat Lop.aLon Lop.set_a Lop.set_Zn Lop.set_aLat
       Lop.set_aLon value flagged width height] in *.

Ltac split_matches :=
  repeat match goal with
         | |- context [match ?x with _ => _ end] => destruct x eqn:?
         end.

Ltac open_handlers :=
  unfold step, onchange, onkeydown, updateCenterLatitude, updateCenterLongitude,
    updateA, updateZn, updateALat, updateALon, updateAddLOPButton, addLOP,
    updateCoordsDisplay, clearCoordsDisplay, flagInputError, clearInputError,
    redraw, setCanvasDimensions, value_of in *.

(* ================================================================== *)
(** ** The example page *)

Section ExamplePage.
Local Open Scope R_scope.

Lemma reachable_painted s : reachable s -> painted s.
Proof. destruct 1; assumption. Qed.

(** A finite scale of longitudes that is not zero ends the loop over the
    meridians. *)
Lemma painted_fin s w l :
  width (_sheetSize s) = Fin w -> _lonScale s = Fin l -> l <> 0 -> painted s.
Proof.
  intros W L N. unfold painted, meridians. rewrite W, L.
  rewrite (ndiv_fin _ N). rewrite ndiv_fin by lra. discriminate.
Qed.

(** Sessions on the example page whose center is still (0, 0). *)
Definition on_example_sheet (s : session) : Prop :=
  _ctrLat s = Some (ofQ 0%Q) /\ _ctrLon s = Some (ofQ 0%Q)
  /\ innerWidth (dom s) = 1000%Z
  /\ (innerHeight (dom s) - header_clientHeight (dom s)
      - footer_clientHeight (dom s))%Z = 880%Z.

Lemma Q2R_0 : Q2R 0 = 0.
Proof. unfold Q2R; simpl; field. Qed.

Lemma example_sheet_frame s :
  on_example_sheet s ->
  let f := setCanvasDimensions s in
  _sheetSize f = {| width := Fin 1000; height := Fin 880 |}
  /\ _ctrLat f = Some (Fin 0) /\ _ctrLon f = Some (Fin 0)
  /\ _latScale f = Fin 200 /\ _lonScale f = Fin 200.
Proof.
  intros (H1 & H2 & H3 & H4) f. subst f. unfold setCanvasDimensions.
  cbn [set_frame _sheetSize _ctrLat _ctrLon _latScale _lonScale width height].
  rewrite H1, H2, H3, H4. unfold ofQ, ofZ. rewrite Q2R_0.
  cbn [toNum nsub nneg nadd]. rewrite radians_fin, ndiv_fin by lra.
  cbn [ncos nmul].
  replace (0 / 180 * PI) with 0 by field. rewrite cos_0.
  repeat split; f_equal; lra.
Qed.

(** The frame of the example page while its center is (0, 0): a sheet of
    1000 by 880 pixels, 200 pixels to the degree both ways. *)
Definition example_frame (s : session) : Prop :=
  on_example_sheet s
  /\ _sheetSize s = {| width := Fin 1000; height := Fin 880 |}
  /\ _latScale s = Fin 200 /\ _lonScale s = Fin 200.

Lemma example_frame_painted s : example_frame s -> painted s.
Proof.
  intros (_ & S & _ & L).
  apply painted_fin with (w := 1000) (l := 200); [rewrite S; reflexivity|exact L|lra].
Qed.

Lemma redraw_example_frame s : on_example_sheet s -> example_frame (redraw s).
Proof.
  intros H. destruct (example_sheet_frame H) as (F1 & _ & _ & F4 & F5).
  split; [exact H|]. split; [exact F1|]. split; [exact F4|exact F5].
Qed.

(** The events that leave the center and the window alone. *)
Definition plotting (ev : event) : bool :=
  match ev with
  | Change El.ctrLat _ | Change El.ctrLon _ | Resize _ _ => false
  | _ => true
  end.

Lemma step_example_frame ev s :
  plotting ev = true -> example_frame s -> example_frame (step ev s).
Proof.
  intros P H.
  destruct ev as [e text|v|e| |x y| |w h]; try discriminate P.
  - destruct e; try discriminate P;
      revert H; open_handlers; split_matches; exact (fun H => H).
  - revert H; open_handlers; split_matches; exact (fun H => H).
  - destruct e; exact H.
  - unfold step. destruct (addLOPBtn_disabled (dom s)); [exact H|].
    apply redraw_example_frame. destruct H as (O & _). exact O.
  - revert H; open_handlers; split_matches; exact (fun H => H).
  - exact H.
Qed.

Lemma example_step ev s :
  plotting ev = true -> reachable s /\ example_frame s ->
  reachable (step ev s) /\ example_frame (step ev s).
Proof.
  intros P [R F].
  pose proof (step_example_frame ev P F) as F'.
  split; [|exact F']. apply reach_step; [exact R|].
  apply example_frame_painted, F'.
Qed.

Lemma onload_example : reachable (onload example_page) /\ example_frame (onload example_page).
Proof.
  assert (F : example_frame (onload example_page)).
  { unfold onload. cbv zeta. apply redraw_example_frame.
    unfold on_example_sheet; repeat split; vm_compute; reflexivity. }
  split; [|exact F]. apply reach_onload, example_frame_painted, F.
Qed.

End ExamplePage.

(** A session built from the example page by plotting events. *)
Ltac example_trace :=
  repeat (apply example_step; [reflexivity|]); exact onload_example.

(** ** The scale of longitudes follows the central latitude (C9) *)

Definition frame_ok (s : session) : Prop :=
  _lonScale s = nmul (_latScale s) (ncos (radians (toNum (_ctrLat s)))).

Lemma redraw_frame_ok s : frame_ok (redraw s).
Proof. reflexivity. Qed.

Lemma frame_ok_same s s' :
  _ctrLat s' = _ctrLat s -> _latScale s' = _latScale s ->
  _lonScale s' = _lonScale s -> frame_ok s -> frame_ok s'.
Proof. unfold frame_ok. intros -> -> -> H. exact H. Qed.

Lemma updateCenterLatitude_frame s :
  frame_ok s -> frame_ok (updateCenterLatitude s).
Proof.
  intros H. unfold updateCenterLatitude.
  destruct (parseIntegerLatitude (value_of El.ctrLat s)); [apply redraw_frame_ok|exact H].
Qed.

Lemma updateCenterLongitude_frame s :
  frame_ok s -> frame_ok (updateCenterLongitude s).
Proof.
  intros H. unfold updateCenterLongitude.
  destruct (parseIntegerLongitude (value_of El.ctrLon s)); [apply redraw_frame_ok|exact H].
Qed.

Lemma draft_handlers_frame s :
  (_ctrLat (updateA s), _latScale (updateA s), _lonScale (updateA s))
    = (_ctrLat s, _latScale s, _lonScale s)
  /\ (_ctrLat (updateZn s), _latScale (updateZn s), _lonScale (updateZn s))
    = (_ctrLat s, _latScale s, _lonScale s)
  /\ (_ctrLat (updateALat s), _latScale (updateALat s), _lonScale (updateALat s))
    = (_ctrLat s, _latScale s, _lonScale s)
  /\ (_ctrLat (updateALon s), _latScale (updateALon s), _lonScale (updateALon s))
    = (_ctrLat s, _latScale s, _lonScale s).
Proof.
  repeat split; open_handlers; split_matches; reflexivity.
Qed.

Lemma step_frame ev s : frame_ok s -> frame_ok (step ev s).
Proof.
  intros H.
  destruct (draft_handlers_frame s) as (HA & HZ & HLa & HLo).
  destruct ev as [e text|v|e| |x y| |w h].
  - pose (s0 := set_value e text s).
    assert (H0 : frame_ok s0) by exact H.
    destruct (draft_handlers_frame s0) as (HA0 & HZ0 & HLa0 & HLo0).
    fold s0. change (step (Change e text) s) with (onchange e s0).
    destruct e; unfold onchange.
    + apply updateCenterLatitude_frame, H0.
    + apply updateCenterLongitude_frame, H0.
    + inversion HA0. eapply frame_ok_same; [| | |exact H0]; assumption.
    + inversion HZ0. eapply frame_ok_same; [| | |exact H0]; assumption.
    + inversion HLa0. eapply frame_ok_same; [| | |exact H0]; assumption.
    + inversion HLo0. eapply frame_ok_same; [| | |exact H0]; assumption.
  - pose (s0 := set_dom (set_aDir v (dom s)) s).
    destruct (draft_handlers_frame s0) as (HA0 & _).
    inversion HA0. eapply frame_ok_same; [| | |exact H]; assumption.
  - destruct e; exact H.
  - unfold step. destruct (addLOPBtn_disabled (dom s)); [exact H|].
    apply redraw_frame_ok.
  - unfold step, updateCoordsDisplay.
    destruct (snap _ _ _); exact H.
  - exact H.
  - apply redraw_frame_ok.
Qed.

(** C9: in every session the page can reach, the scale of longitudes is the
    scale of latitudes times the cosine of the central latitude. *)
Theorem lonScale_follows_ctrLat (s : session) :
  reachable s ->
  _lonScale s = nmul (_latScale s) (ncos (radians (toNum (_ctrLat s)))).
Proof.
  induction 1 as [p P|ev s R IH P].
  - apply redraw_frame_ok.
  - apply step_frame, IH.
Qed.

Lemma lonScale_follows_ctrLat_witness :
  _lonScale (onload example_page)
  = nmul (_latScale (onload example_page))
         (ncos (radians (toNum (_ctrLat (onload example_page))))).
Proof.
  apply (lonScale_follows_ctrLat (proj1 onload_example)).
Defined.

(* ================================================================== *)
(** ** The azimuth of a line of position (C4) *)

Section Azimuth.
Local Open Scope R_scope.

(** A bearing between 0 and 360 degrees is between 0 and 2 pi radians. *)
Lemma radians_range (q : Q) :
  (0 <= q)%Q -> (q <= 360)%Q ->
  exists z, radians (ofQ q) = Fin z /\ 0 <= z <= 2 * PI.
Proof.
  intros H0 H1. unfold ofQ. rewrite radians_fin.
  exists (Q2R q / 180 * PI). split; [reflexivity|].
  apply Qle_Rle in H0, H1.
  replace (Q2R 0) with 0 in H0 by (unfold Q2R; simpl; field).
  replace (Q2R 360) with 360 in H1 by (unfold Q2R; simpl; field).
  pose proof PI_RGT_0. split; [|nra].
  apply Rmult_le_pos; lra.
Qed.

Definition in_turn (o : option num) : Prop :=
  exists z, o = Some (Fin z) /\ 0 <= z <= 2 * PI.

Definition azimuth_ok (o : option num) : Prop := o = None \/ in_turn o.

Lemma updateZn_azimuth s : azimuth_ok (Lop.Zn (_draftLOP (updateZn s))).
Proof.
  unfold updateZn.
  destruct (JsString.eqb (trim (value_of El.Zn s)) []).
  { right. exists 0. proj. pose proof PI_RGT_0. split; [reflexivity|lra]. }
  destruct (exec 1 bearingRegex (trim (value_of El.Zn s))) as [m|]; [|left; reflexivity].
  destruct (qgt (Number_group m 1) 360%Q) eqn:G; [left; reflexivity|].
  right. proj.
  destruct (radians_range (q := Number_group m 1)) as (z & E & Hz).
  - apply Number_group_nonneg.
  - unfold qgt in G. apply negb_false_iff, Qle_bool_iff in G. exact G.
  - exists z. rewrite E. split; [reflexivity|exact Hz].
Qed.

(** What matters to the azimuths: the draft azimuth, the lines of position
    and whether the Add button is disabled. *)
Definition zn_view (s : session) : option num * list Lop.t * bool :=
  (Lop.Zn (_draftLOP s), _lops s, addLOPBtn_disabled (dom s)).

Lemma zn_view_eq s s' :
  zn_view s' = zn_view s ->
  Lop.Zn (_draftLOP s') = Lop.Zn (_draftLOP s)
  /\ _lops s' = _lops s
  /\ addLOPBtn_disabled (dom s') = addLOPBtn_disabled (dom s).
Proof.
  unfold zn_view. generalize (Lop.Zn (_draftLOP s')), (Lop.Zn (_draftLOP s)),
    (_lops s'), (_lops s), (addLOPBtn_disabled (dom s')), (addLOPBtn_disabled (dom s)).
  intros ? ? ? ? ? ? E. injection E as E1 E2 E3. auto.
Qed.

Lemma zn_view_redraw s : zn_view (redraw s) = zn_view s.
Proof. reflexivity. Qed.

Lemma zn_view_updateA s : zn_view (updateA s) = zn_view s.
Proof. open_handlers; split_matches; reflexivity. Qed.

Lemma zn_view_updateALat s : zn_view (updateALat s) = zn_view s.
Proof. open_handlers; split_matches; reflexivity. Qed.

Lemma zn_view_updateALon s : zn_view (updateALon s) = zn_view s.
Proof. open_handlers; split_matches; reflexivity. Qed.

Lemma zn_view_updateCenterLatitude s : zn_view (updateCenterLatitude s) = zn_view s.
Proof. open_handlers; split_matches; reflexivity. Qed.

Lemma zn_view_updateCenterLongitude s : zn_view (updateCenterLongitude s) = zn_view s.
Proof. open_handlers; split_matches; reflexivity. Qed.

Lemma updateZn_rest s :
  _lops (updateZn s) = _lops s
  /\ addLOPBtn_disabled (dom (updateZn s)) = addLOPBtn_disabled (dom s).
Proof. open_handlers; split_matches; split; reflexivity. Qed.

Lemma updateAddLOPButton_enabled s :
  addLOPBtn_disabled (dom (updateAddLOPButton s)) = false ->
  Lop.Zn (_draftLOP s) <> None.
Proof.
  unfold updateAddLOPButton. proj. intros H E. rewrite E in H.
  cbn in H. rewrite orb_true_r in H. discriminate.
Qed.

Definition lop_ok (l : Lop.t) : Prop := in_turn (Lop.Zn l).

Record azimuths_ok (s : session) : Prop := {
  draft_ok : azimuth_ok (Lop.Zn (_draftLOP s));
  button_ok : addLOPBtn_disabled (dom s) = false -> Lop.Zn (_draftLOP s) <> None;
  lops_ok : Forall lop_ok (_lops s)
}.

Lemma azimuths_ok_view s s' :
  zn_view s' = zn_view s -> azimuths_ok s -> azimuths_ok s'.
Proof.
  intros E [H1 H2 H3]. apply zn_view_eq in E. destruct E as (E1 & E2 & E3).
  split; rewrite ?E1, ?E2, ?E3; assumption.
Qed.

(** After a draft handler, [updateAddLOPButton] runs. *)
Lemma azimuths_ok_button s :
  azimuth_ok (Lop.Zn (_draftLOP s)) -> Forall lop_ok (_lops s) ->
  azimuths_ok (updateAddLOPButton s).
Proof.
  intros H1 H3. split.
  - exact H1.
  - intros H. apply (updateAddLOPButton_enabled s H).
  - exact H3.
Qed.

Lemma azimuths_ok_draft_handler (h : session -> session) s :
  zn_view (h s) = zn_view s -> azimuths_ok s -> azimuths_ok (updateAddLOPButton (h s)).
Proof.
  intros E [H1 _ H3]. apply zn_view_eq in E. destruct E as (E1 & E2 & E3).
  apply azimuths_ok_button; rewrite ?E1, ?E2; assumption.
Qed.

Lemma azimuths_ok_updateZn s :
  azimuths_ok s -> azimuths_ok (updateAddLOPButton (updateZn s)).
Proof.
  intros [_ _ H3]. apply azimuths_ok_button.
  - apply updateZn_azimuth.
  - rewrite (proj1 (updateZn_rest s)). exact H3.
Qed.

Lemma azimuths_ok_addLOP s :
  azimuths_ok s -> addLOPBtn_disabled (dom s) = false -> azimuths_ok (addLOP s).
Proof.
  intros [H1 H2 H3] E. split.
  - exact H1.
  - intros D. discriminate D.
  - change (Forall lop_ok (_lops s ++ [_draftLOP s])).
    apply Forall_app. split; [exact H3|].
    constructor; [|constructor].
    destruct H1 as [N|T]; [exfalso; exact (H2 E N)|exact T].
Qed.

Lemma step_azimuths ev s : azimuths_ok s -> azimuths_ok (step ev s).
Proof.
  intros H.
  destruct ev as [e text|v|e| |x y| |w h].
  - assert (H0 : azimuths_ok (set_value e text s)) by (destruct H; split; assumption).
    destruct e; unfold step, onchange.
    + eapply azimuths_ok_view; [apply zn_view_updateCenterLatitude|exact H0].
    + eapply azimuths_ok_view; [apply zn_view_updateCenterLongitude|exact H0].
    + apply azimuths_ok_draft_handler; [apply zn_view_updateA|exact H0].
    + apply azimuths_ok_updateZn, H0.
    + apply azimuths_ok_draft_handler; [apply zn_view_updateALat|exact H0].
    + apply azimuths_ok_draft_handler; [apply zn_view_updateALon|exact H0].
  - unfold step. apply azimuths_ok_draft_handler; [apply zn_view_updateA|].
    destruct H; split; assumption.
  - destruct e; destruct H; split; assumption.
  - unfold step. destruct (addLOPBtn_disabled (dom s)) eqn:E; [exact H|].
    apply azimuths_ok_addLOP; assumption.
  - eapply azimuths_ok_view; [|exact H].
    unfold step, updateCoordsDisplay. destruct (snap _ _ _); reflexivity.
  - destruct H; split; assumption.
  - destruct H; split; assumption.
Qed.

Lemma onload_azimuths p : azimuths_ok (onload p).
Proof.
  unfold onload.
  set (s1 := updateA (clearCoordsDisplay (boot p))).
  assert (H1 : Forall lop_ok (_lops (updateALon (updateALat (updateZn s1))))).
  { pose proof (zn_view_updateALon (updateALat (updateZn s1))) as E1.
    pose proof (zn_view_updateALat (updateZn s1)) as E2.
    pose proof (updateZn_rest s1) as [E3 _].
    pose proof (zn_view_updateA (clearCoordsDisplay (boot p))) as E4.
    apply zn_view_eq in E1, E2, E4.
    destruct E1 as (_ & L1 & _), E2 as (_ & L2 & _), E4 as (_ & L4 & _).
    fold s1 in L4. rewrite L1, L2, E3, L4. constructor. }
  assert (H2 : azimuth_ok (Lop.Zn (_draftLOP (updateALon (updateALat (updateZn s1)))))).
  { pose proof (zn_view_updateALon (updateALat (updateZn s1))) as E1.
    pose proof (zn_view_updateALat (updateZn s1)) as E2.
    apply zn_view_eq in E1, E2.
    destruct E1 as (Z1 & _ & _), E2 as (Z2 & _ & _).
    rewrite Z1, Z2. apply updateZn_azimuth. }
  pose proof (azimuths_ok_button _ H2 H1) as B.
  set (s5 := updateAddLOPButton (updateALon (updateALat (updateZn s1)))) in *.
  apply azimuths_ok_view with (s := s5); [|exact B].
  rewrite zn_view_redraw, zn_view_updateCenterLongitude,
    zn_view_updateCenterLatitude.
  reflexivity.
Qed.

(** C4, as the code has it: the azimuth of every line of position on the
    sheet is a number of radians between 0 and 2 pi, both included (a
    bearing of 360 degrees is accepted and stored as 2 pi). *)
Theorem azimuth_in_turn (s : session) (lop : Lop.t) :
  reachable s -> In lop (_lops s) ->
  exists z, Lop.Zn lop = Some (Fin z) /\ 0 <= z <= 2 * PI.
Proof.
  intros R.
  assert (A : azimuths_ok s).
  { induction R as [p P|ev s R IH P]; [apply onload_azimuths|apply step_azimuths, IH]. }
  intros Hin. destruct A as [_ _ L]. rewrite Forall_forall in L. exact (L lop Hin).
Qed.

End Azimuth.

Section AzimuthExample.
Local Open Scope R_scope.

(** The page is loaded with empty fields, the bearing 360 is typed and the
    line of position is added. *)
Definition full_turn_session : session :=
  step ClickAdd (step (Change El.Zn (lit "360")) (onload example_page)).

Definition full_turn_lop : Lop.t :=
  {| Lop.a := Some (Fin 0); Lop.Zn := Some (radians (ofQ 360%Q));
     Lop.aLat := Some (ofQ 0%Q); Lop.aLon := Some (ofQ 0%Q) |}.

Lemma full_turn_reachable : reachable full_turn_session.
Proof.
  assert (H : reachable full_turn_session /\ example_frame full_turn_session)
    by (unfold full_turn_session; example_trace).
  exact (proj1 H).
Qed.

Lemma full_turn_lops : _lops full_turn_session = [full_turn_lop].
Proof. reflexivity. Qed.

Lemma radians_360 : radians (ofQ 360%Q) = Fin (2 * PI).
Proof.
  unfold ofQ. rewrite radians_fin. f_equal. unfold Q2R; simpl. field.
Qed.

Lemma azimuth_in_turn_witness :
  exists z, Lop.Zn full_turn_lop = Some (Fin z) /\ 0 <= z <= 2 * PI.
Proof.
  apply (@azimuth_in_turn full_turn_session full_turn_lop).
  - exact full_turn_reachable.
  - rewrite full_turn_lops. left. reflexivity.
Defined.

(** C4 as the spec words it fails for the bearing 360: the line of
    position added from it has the azimuth 2 pi, which is not below
    2 pi. *)
Lemma azimuth_360_is_full_turn :
  reachable full_turn_session
  /\ In full_turn_lop (_lops full_turn_session)
  /\ Lop.Zn full_turn_lop = Some (Fin (2 * PI))
  /\ ~ (2 * PI < 2 * PI).
Proof.
  split; [exact full_turn_reachable|].
  split; [rewrite full_turn_lops; left; reflexivity|].
  split; [cbn [Lop.Zn full_turn_lop]; rewrite radians_360; reflexivity|].
  apply Rlt_irrefl.
Qed.

End AzimuthExample.

(* ================================================================== *)
(** ** A text that does not parse (C8) *)

(** The handler the source installs for each input ([onchange] adds the
    refresh of the Add button for the four fields of the draft). *)
Definition update (e : El.t) : session -> session :=
  match e with
  | El.ctrLat => updateCenterLatitude
  | El.ctrLon => updateCenterLongitude
  | El.a => updateA
  | El.Zn => updateZn
  | El.aLat => updateALat
  | El.aLon => updateALon
  end.

(** The text of the input does not parse. *)
Definition rejects (e : El.t) (s : session) : Prop :=
  match e with
  | El.ctrLat => parseIntegerLatitude (value_of El.ctrLat s) = None
  | El.ctrLon => parseIntegerLongitude (value_of El.ctrLon s) = None
  | El.a => A_fails (value_of El.a s) = true
  | El.Zn => Zn_fails (value_of El.Zn s) = true
  | El.aLat => parseIntegerLatitude (value_of El.aLat s) = None
  | El.aLon => parseIntegerLongitude (value_of El.aLon s) = None
               /\ parseLongitude (value_of El.aLon s) = None
  end.

(** The entry of the draft an input feeds; the two inputs of the center
    feed none. *)
Definition draft_entry (e : El.t) (d : Lop.t) : option num :=
  match e with
  | El.a => Lop.a d
  | El.Zn => Lop.Zn d
  | El.aLat => Lop.aLat d
  | El.aLon => Lop.aLon d
  | El.ctrLat | El.ctrLon => None
  end.

Definition clear_entry (e : El.t) (d : Lop.t) : Lop.t :=
  match e with
  | El.a => Lop.set_a None d
  | El.Zn => Lop.set_Zn None d
  | El.aLat => Lop.set_aLat None d
  | El.aLon => Lop.set_aLon None d
  | El.ctrLat | El.ctrLon => d
  end.

Lemma rejected_update e s :
  rejects e s ->
  update e s = set_draft (clear_entry e (_draftLOP s)) (flagInputError e s).
Proof.
  destruct e; simpl; intros H.
  - unfold updateCenterLatitude. rewrite H. destruct s; reflexivity.
  - unfold updateCenterLongitude. rewrite H. destruct s; reflexivity.
  - rewrite updateA_fails by exact H. reflexivity.
  - rewrite updateZn_fails by exact H. reflexivity.
  - unfold updateALat. rewrite H. reflexivity.
  - unfold updateALon. destruct H as [H1 H2]. rewrite H1, H2. reflexivity.
Qed.

(** C8: when the text of an input does not parse, its handler flags that
    input and unsets its own entry of the draft, and nothing else: the
    center, the lines of position, the frame, the intersections, the text of
    every input, the flag of every other input, every other entry of the
    draft and the rest of the page are as they were. *)
Theorem parse_failure_is_local (e : El.t) (s : session) :
  rejects e s ->
  let s' := update e s in
  _ctrLat s' = _ctrLat s /\ _ctrLon s' = _ctrLon s /\ _lops s' = _lops s
  /\ _latScale s' = _latScale s /\ _lonScale s' = _lonScale s
  /\ _sheetSize s' = _sheetSize s /\ _intersections s' = _intersections s
  /\ (forall f, value (inputs (dom s') f) = value (inputs (dom s) f))
  /\ (forall f, f <> e -> flagged (inputs (dom s') f) = flagged (inputs (dom s) f))
  /\ flagged (inputs (dom s') e) = true
  /\ (forall f, f <> e -> draft_entry f (_draftLOP s') = draft_entry f (_draftLOP s))
  /\ draft_entry e (_draftLOP s') = None
  /\ set_inputs (inputs (dom s)) (dom s') = dom s.
Proof.
  intros H s'. subst s'. rewrite (rejected_update e s H).
  unfold flagInputError. proj.
  repeat split.
  - intros f. destruct (El.eqb f e); reflexivity.
  - intros f Hf. destruct (El.eqb_spec f e); [contradiction|reflexivity].
  - destruct (El.eqb_spec e e); [reflexivity|congruence].
  - intros f Hf. destruct e, f; try reflexivity; congruence.
  - destruct e; reflexivity.
  - destruct s as [d ? ? ? ? ? ? ? ?]. destruct d. reflexivity.
Qed.

Lemma parse_failure_is_local_witness :
  let s := set_value El.aLat (lit "95 N") (onload example_page) in
  _lops (update El.aLat s) = _lops s
  /\ flagged (inputs (dom (update El.aLat s)) El.aLat) = true
  /\ Lop.aLat (_draftLOP (update El.aLat s)) = None.
Proof.
  intros s.
  destruct (@parse_failure_is_local El.aLat s) as (_ & _ & H3 & _ & _ & _ & _ & _ & _ & H10 & _ & H12 & _).
  - vm_compute. reflexivity.
  - split; [exact H3|split; [exact H10|exact H12]].
Defined.

(** For the four inputs of the draft the installed handler goes on to
    refresh the Add button, which a rejected text leaves disabled. *)
Lemma rejected_change_disables_add e s :
  draft_entry e (_draftLOP (update e s)) = None ->
  e <> El.ctrLat -> e <> El.ctrLon ->
  addLOPBtn_disabled (dom (updateAddLOPButton (update e s))) = true.
Proof.
  intros H H1 H2.
  destruct e; try congruence; cbn [update draft_entry] in *;
    unfold updateAddLOPButton;
    cbn [dom set_dom set_disabled addLOPBtn_disabled];
    rewrite H; cbn [is_unset]; rewrite ?orb_true_r; reflexivity.
Qed.

(* ================================================================== *)
(** ** The pointer readout (C2) *)

Section Readout.
Local Open Scope R_scope.

(** The squared distance from the pointer to an intersection, and the
    test of the loop of [updateCoordsDisplay]. *)
Definition dSqrd (x y : num) (i : Ix.t) : num :=
  nadd (npow2 (nsub x (Ix.x i))) (npow2 (nsub y (Ix.y i))).

Definition near (x y : num) (i : Ix.t) : bool :=
  negb (ngt (dSqrd x y i) (Fin 100)).

Lemma snap_fold x y ixs acc :
  fold_left (fun snappedTo intersection =>
               if ngt (dSqrd x y intersection) (Fin 100) then snappedTo
               else Some intersection) ixs acc
  = match rev (filter (near x y) ixs) with
    | i :: _ => Some i
    | [] => acc
    end.
Proof.
  revert acc. induction ixs as [|i ixs IH]; intros acc;
    cbn [fold_left filter]; [reflexivity|].
  rewrite IH.
  assert (N : near x y i = negb (ngt (dSqrd x y i) (Fin 100))) by reflexivity.
  destruct (ngt (dSqrd x y i) (Fin 100)); rewrite N; cbn [negb]; [reflexivity|].
  cbn [rev]. destruct (rev (filter (near x y) ixs)); reflexivity.
Qed.

(** The loop keeps the last intersection of the list that is within ten
    pixels, whatever its distance. *)
Lemma snap_last x y ixs :
  snap x y ixs = hd_error (rev (filter (near x y) ixs)).
Proof.
  unfold snap. fold (dSqrd x y).
  change (fold_left _ ixs None)
    with (fold_left (fun snappedTo intersection =>
                       if ngt (dSqrd x y intersection) (Fin 100) then snappedTo
                       else Some intersection) ixs None).
  rewrite snap_fold. destruct (rev (filter (near x y) ixs)); reflexivity.
Qed.

(** With no intersection within ten pixels the readout shows the place of
    the pointer itself. *)
Lemma readout_raw ex ey s :
  let x := nsub (nsub (ofZ ex) (ofZ (sheet_offsetLeft (dom s))))
                (ndiv (width (_sheetSize s)) (Fin 2)) in
  let y := nsub (nsub (ofZ ey) (ofZ (sheet_offsetTop (dom s))))
                (ndiv (height (_sheetSize s)) (Fin 2)) in
  filter (near x y) (_intersections s) = [] ->
  coords (dom (updateCoordsDisplay ex ey s))
  = Some (nadd (ndiv (nneg y) (_latScale s)) (toNum (_ctrLat s)),
          nadd (ndiv x (_lonScale s)) (toNum (_ctrLon s)))
  /\ coords_snapped (dom (updateCoordsDisplay ex ey s)) = false.
Proof.
  intros x y H. unfold updateCoordsDisplay. fold x y.
  rewrite snap_last, H. split; reflexivity.
Qed.

End Readout.

(* ================================================================== *)
(** ** The intersection engine (C1, C7) *)

Section Engine.
Local Open Scope R_scope.

(** A line of position whose four properties are finite numbers. *)
Definition fix_line (a Zn lat lon : R) : Lop.t :=
  {| Lop.a := Some (Fin a); Lop.Zn := Some (Fin Zn);
     Lop.aLat := Some (Fin lat); Lop.aLon := Some (Fin lon) |}.

(** The offset [2*Math.PI/6] of the source is sixty degrees. *)
Definition sixty : R := 2 * PI / 6.

Lemma third_fin : ndiv (nmul (Fin 2) (Fin PI)) (Fin 6) = Fin sixty.
Proof. cbn [nmul]. rewrite ndiv_fin by lra. reflexivity. Qed.

Lemma sixty_PI3 : sixty = PI / 3.
Proof. unfold sixty. field. Qed.

Lemma cos_sixty : cos sixty = 1 / 2.
Proof. rewrite sixty_PI3. apply cos_PI3. Qed.

Lemma sin_sixty : sin sixty = sqrt 3 / 2.
Proof. rewrite sixty_PI3. apply sin_PI3. Qed.

Lemma sin_sixty_pos : 0 < sin sixty.
Proof.
  rewrite sin_sixty. pose proof (sqrt_lt_R0 3 ltac:(lra)). lra.
Qed.

Lemma rhumbPoint_fin lat lon Zn a :
  cos (lat / 180 * PI) <> 0 ->
  rhumbPoint (Fin lat) (Fin lon) (Fin Zn) (Fin a)
  = {| Geo.lat := Fin (lat + cos Zn * a / 60);
       Geo.lon := Fin (lon + sin Zn * (a / cos (lat / 180 * PI)) / 60) |}.
Proof.
  intros H. unfold rhumbPoint. rewrite radians_fin. cbn [ncos nsin nmul].
  rewrite (ndiv_fin a H). cbn [nmul].
  rewrite !ndiv_fin by lra. reflexivity.
Qed.

(** The two auxiliary points of a finite line of position, and the
    differences the slope is made of. *)
Definition aux_lat (a Zn lat : R) (t : R) : R := lat + cos (Zn + t) * (2 * a) / 60.

Definition aux_lon (a Zn lat lon : R) (t : R) : R :=
  lon + sin (Zn + t) * (2 * a / cos (lat / 180 * PI)) / 60.

Lemma coeffs_fin a Zn lat lon :
  cos (lat / 180 * PI) <> 0 ->
  coeffs (fix_line a Zn lat lon)
  = let m := ndiv (Fin (aux_lat a Zn lat (- sixty) + - aux_lat a Zn lat sixty))
                  (Fin (aux_lon a Zn lat lon (- sixty)
                        + - aux_lon a Zn lat lon sixty)) in
    {| Coeff.m := m;
       Coeff.b := nsub (Fin (aux_lat a Zn lat sixty))
                       (nmul m (Fin (aux_lon a Zn lat lon sixty))) |}.
Proof.
  intros H. unfold coeffs, fix_line. cbn [Lop.a Lop.Zn Lop.aLat Lop.aLon toNum].
  rewrite third_fin. cbn [nadd nsub nneg nmul].
  rewrite !rhumbPoint_fin by exact H.
  cbn [Geo.lat Geo.lon nadd nneg]. reflexivity.
Qed.

(** The two differences are multiples of the distance, by factors that
    depend on the azimuth and the assumed latitude only. *)
Definition rise (Zn : R) : R := (cos (Zn + - sixty) - cos (Zn + sixty)) / 30.

Definition run_ (Zn lat : R) : R :=
  (sin (Zn + - sixty) - sin (Zn + sixty)) / (30 * cos (lat / 180 * PI)).

Lemma aux_lat_diff a Zn lat :
  aux_lat a Zn lat (- sixty) + - aux_lat a Zn lat sixty = rise Zn * a.
Proof. unfold aux_lat, rise. field. Qed.

Lemma aux_lon_diff a Zn lat lon :
  cos (lat / 180 * PI) <> 0 ->
  aux_lon a Zn lat lon (- sixty) + - aux_lon a Zn lat lon sixty = run_ Zn lat * a.
Proof. intros H. unfold aux_lon, run_. field. exact H. Qed.

Lemma rise_sin Zn : rise Zn = sin Zn * sin sixty / 15.
Proof.
  unfold rise. rewrite !cos_plus, cos_neg, sin_neg. field.
Qed.

Lemma run_cos Zn lat :
  cos (lat / 180 * PI) <> 0 ->
  run_ Zn lat = - (cos Zn * sin sixty) / (15 * cos (lat / 180 * PI)).
Proof.
  intros H. unfold run_. rewrite !sin_plus, cos_neg, sin_neg. field. exact H.
Qed.

(** The fitted line of a line of position that is neither at distance
    zero nor pointing due east or west: its slope is minus the tangent of
    the azimuth, scaled by the cosine of the assumed latitude, and it goes
    through the point at the distance [a] along the azimuth. *)
Lemma coeffs_line a Zn lat lon :
  a <> 0 -> cos Zn <> 0 -> cos (lat / 180 * PI) <> 0 ->
  coeffs (fix_line a Zn lat lon)
  = {| Coeff.m := Fin (- tan Zn * cos (lat / 180 * PI));
       Coeff.b := Fin (lat + tan Zn * cos (lat / 180 * PI) * lon
                       + a / (60 * cos Zn)) |}.
Proof.
  intros Ha Hz Hc. rewrite coeffs_fin by exact Hc. cbv zeta.
  rewrite aux_lat_diff, aux_lon_diff by exact Hc.
  pose proof sin_sixty_pos as Hs.
  assert (Hr : run_ Zn lat * a <> 0).
  { rewrite run_cos by exact Hc. intros E.
    apply Rmult_integral in E. destruct E as [E|E]; [|contradiction].
    unfold Rdiv in E. apply Rmult_integral in E. destruct E as [E|E].
    - apply Ropp_eq_0_compat in E. rewrite Ropp_involutive in E.
      apply Rmult_integral in E. destruct E; [contradiction|lra].
    - apply Rinv_neq_0_compat in E; [exact E|].
      apply Rmult_integral_contrapositive_currified; [lra|exact Hc]. }
  rewrite ndiv_fin by exact Hr.
  assert (M : rise Zn * a / (run_ Zn lat * a) = - tan Zn * cos (lat / 180 * PI)).
  { rewrite rise_sin, run_cos by exact Hc. unfold tan. field.
    repeat split; try assumption; lra. }
  rewrite M. cbn [nmul nsub nadd nneg]. f_equal. f_equal.
  unfold aux_lat, aux_lon, tan.
  rewrite cos_plus, sin_plus, cos_sixty.
  pose proof (sin2_cos2 Zn) as S. unfold Rsqr in S.
  set (cz := cos Zn) in *. set (sz := sin Zn) in *.
  set (st := sin sixty) in *. set (c := cos (lat / 180 * PI)) in *.
  apply (Rmult_eq_reg_r (60 * cz));
    [|apply Rmult_integral_contrapositive_currified; [lra|exact Hz]].
  field_simplify; [|exact Hz|split; assumption].
  nra.
Qed.

End Engine.

(** *** Lines of position with the same azimuth and assumed latitude *)

Section Parallel.
Local Open Scope R_scope.





Lemma ndiv_nan x : ndiv x NaN = NaN.
Proof. destruct x; reflexivity. Qed.



Section OnASheet.
Variable s : session.
Variables c l w : R.
Hypothesis ctrLon_finite : _ctrLon s = Some (Fin c).
Hypothesis lonScale_finite : _lonScale s = Fin l.
Hypothesis lonScale_nonzero : l <> 0.
Hypothesis width_finite : width (_sheetSize s) = Fin w.



End OnASheet.

Lemma cos_latitude lat : Rabs lat < 90 -> cos (lat / 180 * PI) <> 0.
Proof.
  intros H. apply Rabs_def2 in H. destruct H as [H1 H2].
  pose proof PI_RGT_0 as P.
  apply Rgt_not_eq, cos_gt_0; nra.
Qed.


End Parallel.

(** *** Two lines that do cross *)

Section Crossing.
Local Open Scope R_scope.

Variable s : session.
Variables w h cla clo ls lns : R.
Hypothesis sheet : _sheetSize s = {| width := Fin w; height := Fin h |}.
Hypothesis center_lat : _ctrLat s = Some (Fin cla).
Hypothesis center_lon : _ctrLon s = Some (Fin clo).
Hypothesis scale_lat : _latScale s = Fin ls.
Hypothesis scale_lon : _lonScale s = Fin lns.

(** Two finite lines of different slopes cross at the point the source
    solves for, and the point is kept when it projects onto the sheet. *)
Lemma intersect_fin mi bi mj bj :
  mi + - mj <> 0 ->
  let lon := (bj + - bi) / (mi + - mj) in
  let lat := mi * lon + bi in
  let x := w / 2 + (lon + - clo) * lns in
  let y := h / 2 + (cla + - lat) * ls in
  0 <= x <= w -> 0 <= y <= h ->
  intersect s {| Coeff.m := Fin mi; Coeff.b := Fin bi |}
              {| Coeff.m := Fin mj; Coeff.b := Fin bj |}
  = Some {| Ix.x := Fin (x + - (w / 2)); Ix.y := Fin (y + - (h / 2));
            Ix.lat := Fin lat; Ix.lon := Fin lon |}.
Proof.
  intros Hm lon lat x y Hx Hy.
  unfold intersect, project. cbn [Coeff.m Coeff.b nsub nneg nadd].
  rewrite (ndiv_fin _ Hm). fold lon. cbn [isNaN nmul nadd]. fold lat.
  rewrite sheet, center_lat, center_lon, scale_lat, scale_lon.
  cbn [width height toNum nsub nneg nadd nmul Pt.x Pt.y].
  rewrite !ndiv_fin by lra. cbn [nadd]. fold x y.
  unfold ngt.
  rewrite (proj2 (nlt_fin_false x 0)) by lra.
  rewrite (proj2 (nlt_fin_false y 0)) by lra.
  rewrite (proj2 (nlt_fin_false w x)) by lra.
  rewrite (proj2 (nlt_fin_false h y)) by lra.
  cbn [orb nsub nneg nadd]. reflexivity.
Qed.

End Crossing.

(** *** The example sheet *)

Section ExampleSheet.
Local Open Scope R_scope.

(** The square root of two over sixty, the intercept of a line of position
    one mile away at the azimuth 45 degrees. *)
Definition k45 : R := 1 / (60 * cos (PI / 4)).

Lemma sqrt2_bounds : 1 < sqrt 2 < 2.
Proof.
  pose proof (sqrt_lt_R0 2 ltac:(lra)) as P.
  pose proof (sqrt_sqrt 2 ltac:(lra)) as S.
  split; nra.
Qed.

Lemma cos_PI4_bounds : 1 / 2 < cos (PI / 4) < 1.
Proof.
  rewrite cos_PI4. destruct sqrt2_bounds as [L U].
  split.
  - apply Rmult_lt_reg_r with (sqrt 2); [lra|]. field_simplify; lra.
  - apply Rmult_lt_reg_r with (sqrt 2); [lra|]. field_simplify; lra.
Qed.

Lemma k45_bounds : 1 / 60 < k45 < 1 / 30.
Proof.
  unfold k45. destruct cos_PI4_bounds as [L U].
  split.
  - apply Rmult_lt_reg_r with (60 * cos (PI / 4)); [lra|]. field_simplify; lra.
  - apply Rmult_lt_reg_r with (60 * cos (PI / 4)); [lra|]. field_simplify; lra.
Qed.

Lemma ofQ_1 : ofQ 1%Q = Fin 1.
Proof. unfold ofQ. f_equal. unfold Q2R; simpl; field. Qed.

Lemma ofQ_0 : ofQ 0%Q = Fin 0.
Proof. unfold ofQ. f_equal. apply Q2R_0. Qed.

Lemma ofQ_60 : ofQ 60%Q = Fin 60.
Proof. unfold ofQ. f_equal. unfold Q2R; simpl; field. Qed.

Lemma ofQ_minus_120 : ofQ (-120)%Q = Fin (-120).
Proof. unfold ofQ. f_equal. unfold Q2R; simpl; field. Qed.

Lemma radians_45 : radians (ofQ 45%Q) = Fin (PI / 4).
Proof. unfold ofQ. rewrite radians_fin. f_equal. unfold Q2R; simpl; field. Qed.

(** Two lines of position of azimuth 45 degrees, one mile toward, from the
    assumed positions (0, 0) and (60 N, 120 W). *)
Definition cross_lop1 : Lop.t :=
  {| Lop.a := Some (ofQ 1%Q); Lop.Zn := Some (radians (ofQ 45%Q));
     Lop.aLat := Some (ofQ 0%Q); Lop.aLon := Some (ofQ 0%Q) |}.

Definition cross_lop2 : Lop.t :=
  {| Lop.a := Some (ofQ 1%Q); Lop.Zn := Some (radians (ofQ 45%Q));
     Lop.aLat := Some (ofQ 60%Q); Lop.aLon := Some (ofQ (-120)%Q) |}.

Lemma cross_coeffs1 :
  coeffs cross_lop1 = {| Coeff.m := Fin (-1); Coeff.b := Fin k45 |}.
Proof.
  unfold cross_lop1. rewrite ofQ_1, ofQ_0, radians_45.
  fold (fix_line 1 (PI / 4) 0 0).
  destruct cos_PI4_bounds as [L U].
  replace (0 / 180 * PI) with 0 by field.
  assert (C0 : cos (0 / 180 * PI) = 1) by (replace (0 / 180 * PI) with 0 by field; apply cos_0).
  rewrite coeffs_line; [|lra|lra|rewrite C0; lra].
  rewrite tan_PI4, C0. unfold k45. f_equal; f_equal; field; lra.
Qed.

Lemma cross_coeffs2 :
  coeffs cross_lop2 = {| Coeff.m := Fin (- (1 / 2)); Coeff.b := Fin k45 |}.
Proof.
  unfold cross_lop2. rewrite ofQ_1, ofQ_60, ofQ_minus_120, radians_45.
  fold (fix_line 1 (PI / 4) 60 (-120)).
  destruct cos_PI4_bounds as [L U].
  assert (C60 : cos (60 / 180 * PI) = 1 / 2)
    by (replace (60 / 180 * PI) with (PI / 3) by field; apply cos_PI3).
  rewrite coeffs_line; [|lra|lra|rewrite C60; lra].
  rewrite tan_PI4, C60. unfold k45. f_equal; f_equal; field; lra.
Qed.

(** On a sheet centered at (0, 0) the two lines cross at the longitude 0
    and the latitude [k45], which is on the sheet. *)
Lemma cross_on_example_sheet s :
  on_example_sheet s ->
  all_intersections (setCanvasDimensions s) [cross_lop1; cross_lop2]
  = [{| Ix.x := Fin (1000 / 2 + (0 / (-1 + - - (1 / 2)) + - 0) * 200 + - (1000 / 2));
        Ix.y := Fin (880 / 2 + (0 + - (-1 * (0 / (-1 + - - (1 / 2))) + k45)) * 200
                     + - (880 / 2));
        Ix.lat := Fin (-1 * (0 / (-1 + - - (1 / 2))) + k45);
        Ix.lon := Fin (0 / (-1 + - - (1 / 2))) |}].
Proof.
  intros H. destruct (example_sheet_frame H) as (F1 & F2 & F3 & F4 & F5).
  unfold all_intersections. cbn [map List.length seq Nat.sub flat_map nth app].
  rewrite cross_coeffs1, cross_coeffs2.
  pose proof k45_bounds as [KL KU].
  rewrite (@intersect_fin _ _ _ _ _ _ _ F1 F2 F3 F4 F5 (-1) k45 (- (1 / 2)) k45);
    [|lra| |].
  - replace (k45 + - k45) with 0 by lra. reflexivity.
  - replace (k45 + - k45) with 0 by lra. lra.
  - replace (k45 + - k45) with 0 by lra. lra.
Qed.

Definition cross_session : session :=
  step ClickAdd
    (step (Change El.aLon (lit "120 W"))
       (step (Change El.aLat (lit "60"))
          (step ClickAdd
             (step (Change El.Zn (lit "45"))
                (step (Change El.a (lit "1")) (onload example_page)))))).

Lemma cross_reachable : reachable cross_session.
Proof.
  assert (H : reachable cross_session /\ example_frame cross_session)
    by (unfold cross_session; example_trace).
  exact (proj1 H).
Qed.

End ExampleSheet.

(** *** Adding a line of position *)

Definition pre_add (s : session) : session :=
  set_lops (_lops s ++ [_draftLOP s]) (set_dom (set_disabled true (dom s)) s).

Lemma step_add s :
  addLOPBtn_disabled (dom s) = false -> step ClickAdd s = redraw (pre_add s).
Proof. intros H. unfold step. rewrite H. reflexivity. Qed.

Lemma intersections_redraw s :
  _intersections (redraw s) = all_intersections (setCanvasDimensions s) (_lops s).
Proof. reflexivity. Qed.

Section SameAzimuth.
Local Open Scope R_scope.







Lemma Rabs_35 : Rabs 35 < 90.
Proof. unfold Rabs. destruct (Rcase_abs 35); lra. Qed.


End SameAzimuth.

(** *** The equations of the engine (C1) *)

Section Equations.
Local Open Scope R_scope.

(** The auxiliary point of a line of position at an offset, in degrees,
    from its azimuth, at twice its distance. *)
Definition auxiliary (lop : Lop.t) (offset_degrees : R) : Geo.t :=
  rhumbPoint (toNum (Lop.aLat lop)) (toNum (Lop.aLon lop))
             (nadd (toNum (Lop.Zn lop)) (radians (Fin offset_degrees)))
             (nmul (Fin 2) (toNum (Lop.a lop))).

(** The line [lat = m * lon + b] fitted through two points. *)
Definition line_through (p q : Geo.t) : Coeff.t :=
  let m := ndiv (nsub (Geo.lat q) (Geo.lat p)) (nsub (Geo.lon q) (Geo.lon p)) in
  {| Coeff.m := m; Coeff.b := nsub (Geo.lat p) (nmul m (Geo.lon p)) |}.

(** The coefficients the spec describes, for a given offset. *)
Definition coeffs_at (offset_degrees : R) (lop : Lop.t) : Coeff.t :=
  line_through (auxiliary lop offset_degrees) (auxiliary lop (- offset_degrees)).

Lemma radians_60 : radians (Fin 60) = Fin sixty.
Proof. rewrite radians_fin. f_equal. unfold sixty. field. Qed.

Lemma radians_minus_60 : radians (Fin (Ropp 60)) = Fin (- sixty).
Proof. rewrite radians_fin. f_equal. unfold sixty. field. Qed.

Lemma coeffs_sixty_degrees lop : coeffs lop = coeffs_at 60 lop.
Proof.
  unfold coeffs, coeffs_at, line_through, auxiliary.
  rewrite third_fin, radians_60, radians_minus_60. reflexivity.
Qed.

Lemma line_through_incident x1 y1 x2 y2 :
  x1 <> x2 ->
  exists m b,
    line_through {| Geo.lat := Fin y1; Geo.lon := Fin x1 |}
                 {| Geo.lat := Fin y2; Geo.lon := Fin x2 |}
    = {| Coeff.m := Fin m; Coeff.b := Fin b |}
    /\ y1 = m * x1 + b /\ y2 = m * x2 + b.
Proof.
  intros H. unfold line_through. cbn [Geo.lat Geo.lon nsub nneg nadd].
  rewrite ndiv_fin by lra. cbn [nmul nadd nneg].
  eexists. eexists. split; [reflexivity|]. split; field; lra.
Qed.

Lemma nth_coeffs lops i :
  (i < List.length lops)%nat ->
  nth i (map coeffs lops) no_coeff = coeffs (nth i lops Lop.empty).
Proof.
  intros H. rewrite (nth_indep _ no_coeff (coeffs Lop.empty))
    by (rewrite length_map; exact H).
  apply map_nth.
Qed.

Lemma in_all_intersections s lops p :
  In p (all_intersections s lops)
  <-> exists i j, (i < j < List.length lops)%nat
                  /\ intersect s (coeffs (nth i lops Lop.empty))
                                 (coeffs (nth j lops Lop.empty)) = Some p.
Proof.
  unfold all_intersections. rewrite in_flat_map. split.
  - intros (i & Hi & Hp). rewrite in_flat_map in Hp.
    destruct Hp as (j & Hj & Hp).
    apply in_seq in Hi, Hj.
    rewrite !nth_coeffs in Hp by lia.
    exists i, j. split; [lia|].
    destruct (intersect s _ _) as [q|]; [|contradiction].
    destruct Hp as [->|[]]. reflexivity.
  - intros (i & j & Hij & E).
    exists i. split; [apply in_seq; lia|].
    rewrite in_flat_map. exists j. split; [apply in_seq; lia|].
    rewrite !nth_coeffs by lia. rewrite E. left. reflexivity.
Qed.

Lemma intersect_solves s ci cj p :
  intersect s ci cj = Some p ->
  Ix.lon p = ndiv (nsub (Coeff.b cj) (Coeff.b ci)) (nsub (Coeff.m ci) (Coeff.m cj))
  /\ Ix.lat p = nadd (nmul (Coeff.m ci) (Ix.lon p)) (Coeff.b ci).
Proof.
  unfold intersect.
  destruct (isNaN _); [discriminate|].
  destruct (isNaN _); [discriminate|].
  destruct (_ || _); [discriminate|].
  intros E. injection E as <-. split; reflexivity.
Qed.

(** C1, as the code has it: the line of each line of position is fitted
    through the two points at 60 and -60 degrees from the azimuth, at twice
    the distance; a line fitted through two points goes through both; the
    intersections are those of the pairs (i, j) with i < j that pass the
    tests of the loop, and each has the longitude (b_j - b_i)/(m_i - m_j)
    and the latitude m_i * longitude + b_i. *)
Theorem intersection_engine (s : session) (lops : list Lop.t) :
  (forall lop, coeffs lop = line_through (auxiliary lop 60) (auxiliary lop (- 60)))
  /\ (forall x1 y1 x2 y2,
         x1 <> x2 ->
         exists m b,
           line_through {| Geo.lat := Fin y1; Geo.lon := Fin x1 |}
                        {| Geo.lat := Fin y2; Geo.lon := Fin x2 |}
           = {| Coeff.m := Fin m; Coeff.b := Fin b |}
           /\ y1 = m * x1 + b /\ y2 = m * x2 + b)
  /\ (forall p,
         In p (all_intersections s lops)
         <-> exists i j, (i < j < List.length lops)%nat
                         /\ intersect s (coeffs (nth i lops Lop.empty))
                                        (coeffs (nth j lops Lop.empty)) = Some p)
  /\ (forall ci cj p,
         intersect s ci cj = Some p ->
         Ix.lon p = ndiv (nsub (Coeff.b cj) (Coeff.b ci))
                         (nsub (Coeff.m ci) (Coeff.m cj))
         /\ Ix.lat p = nadd (nmul (Coeff.m ci) (Ix.lon p)) (Coeff.b ci)).
Proof.
  split; [exact coeffs_sixty_degrees|].
  split; [exact line_through_incident|].
  split; [intros p; apply in_all_intersections|].
  intros ci cj p. apply intersect_solves.
Qed.

(** A line of position sixty miles toward at the azimuth 0 from (0, 0):
    the line of position is the parallel of latitude 1 N. *)
Definition lop_north : Lop.t := fix_line 60 0 0 0.

Lemma coeffs_lop_north : Coeff.b (coeffs lop_north) = Fin 1.
Proof.
  unfold lop_north.
  assert (C0 : cos (0 / 180 * PI) = 1)
    by (replace (0 / 180 * PI) with 0 by field; apply cos_0).
  rewrite coeffs_line; [|lra|rewrite cos_0; lra|rewrite C0; lra].
  cbn [Coeff.b]. rewrite tan_0, cos_0, C0. f_equal. field.
Qed.

Lemma coeffs_at_120_lop_north : Coeff.b (coeffs_at 120 lop_north) = Fin (- 1).
Proof.
  unfold coeffs_at, line_through, auxiliary, lop_north, fix_line.
  cbn [Lop.a Lop.Zn Lop.aLat Lop.aLon toNum Coeff.b].
  rewrite !radians_fin. cbn [nadd nmul].
  assert (C0 : cos (0 / 180 * PI) <> 0).
  { replace (0 / 180 * PI) with 0 by field. rewrite cos_0. lra. }
  rewrite !rhumbPoint_fin by exact C0. cbn [Geo.lat Geo.lon nsub nneg nadd].
  replace (0 + 120 / 180 * PI) with (2 * (PI / 3)) by field.
  replace (0 + Ropp 120 / 180 * PI) with (- (2 * (PI / 3))) by field.
  rewrite cos_neg, sin_neg, cos_2PI3, sin_2PI3.
  replace (0 / 180 * PI) with 0 by field. rewrite cos_0.
  pose proof (sqrt_lt_R0 3 ltac:(lra)) as S3.
  rewrite ndiv_fin by lra. cbn [nmul nadd nneg]. f_equal. field. lra.
Qed.

(** C1 as the spec words it, with offsets of 120 and -120 degrees, is not
    what the code computes: for this line of position the code fits the
    parallel 1 N, the spec's offsets would give the parallel 1 S. *)
Lemma offsets_are_not_120_degrees :
  Coeff.b (coeffs lop_north) = Fin 1
  /\ Coeff.b (coeffs_at 120 lop_north) = Fin (- 1)
  /\ coeffs lop_north <> coeffs_at 120 lop_north.
Proof.
  split; [exact coeffs_lop_north|].
  split; [exact coeffs_at_120_lop_north|].
  intros E. apply (f_equal Coeff.b) in E.
  rewrite coeffs_lop_north, coeffs_at_120_lop_north in E.
  injection E as E. lra.
Qed.

Lemma intersection_engine_witness :
  exists p,
    In p (all_intersections (setCanvasDimensions (onload example_page))
                            [cross_lop1; cross_lop2])
    /\ Ix.lon p = ndiv (nsub (Coeff.b (coeffs cross_lop2)) (Coeff.b (coeffs cross_lop1)))
                       (nsub (Coeff.m (coeffs cross_lop1)) (Coeff.m (coeffs cross_lop2))).
Proof.
  destruct (intersection_engine (setCanvasDimensions (onload example_page))
                                [cross_lop1; cross_lop2]) as (_ & _ & H3 & H4).
  assert (S : on_example_sheet (onload example_page))
    by (unfold on_example_sheet; repeat split; vm_compute; reflexivity).
  pose proof (cross_on_example_sheet S) as E.
  eexists. split.
  - rewrite E. left. reflexivity.
  - assert (I : In {| Ix.x := Fin (1000 / 2 + (0 / (-1 + - - (1 / 2)) + - 0) * 200 + - (1000 / 2));
        Ix.y := Fin (880 / 2 + (0 + - (-1 * (0 / (-1 + - - (1 / 2))) + k45)) * 200
                     + - (880 / 2));
        Ix.lat := Fin (-1 * (0 / (-1 + - - (1 / 2))) + k45);
        Ix.lon := Fin (0 / (-1 + - - (1 / 2))) |}
             (all_intersections (setCanvasDimensions (onload example_page))
                            [cross_lop1; cross_lop2])) by (rewrite E; left; reflexivity).
    apply H3 in I. destruct I as (i & j & Hij & I).
    cbn [List.length] in Hij.
    assert (i = 0%nat) by lia. assert (j = 1%nat) by lia. subst i j.
    cbn [nth] in I. apply H4 in I. exact (proj1 I).
Defined.

End Equations.

(* ================================================================== *)
(** ** The readout over a triangle of three lines of position (C2) *)

Section Hat.
Local Open Scope R_scope.

(** Three lines of position from the assumed position (0, 0): three miles
    toward at the azimuth 0, one mile toward at 45 degrees, one mile away at
    135 degrees.  They make a small triangle north of the center. *)
Definition hat_lop1 : Lop.t :=
  {| Lop.a := Some (ofQ 3%Q); Lop.Zn := Some (radians (ofQ 0%Q));
     Lop.aLat := Some (ofQ 0%Q); Lop.aLon := Some (ofQ 0%Q) |}.

Definition hat_lop3 : Lop.t :=
  {| Lop.a := Some (nneg (ofQ 1%Q)); Lop.Zn := Some (radians (ofQ 135%Q));
     Lop.aLat := Some (ofQ 0%Q); Lop.aLon := Some (ofQ 0%Q) |}.

Definition before_hat : session :=
  step (Change El.Zn (lit "135"))
    (step (ChangeDir (lit "A"))
       (step ClickAdd
          (step (Change El.Zn (lit "45"))
             (step (Change El.a (lit "1"))
                (step ClickAdd
                   (step (Change El.Zn (lit "0"))
                      (step (Change El.a (lit "3")) (onload example_page)))))))).

Definition hat_session : session := step ClickAdd before_hat.

Lemma hat_reachable : reachable hat_session.
Proof.
  assert (H : reachable hat_session /\ example_frame hat_session)
    by (unfold hat_session, before_hat; example_trace).
  exact (proj1 H).
Qed.

Lemma ofQ_3 : ofQ 3%Q = Fin 3.
Proof. unfold ofQ. f_equal. unfold Q2R; simpl; field. Qed.

Lemma radians_0 : radians (ofQ 0%Q) = Fin 0.
Proof. rewrite ofQ_0, radians_fin. f_equal. field. Qed.

Lemma radians_135 : radians (ofQ 135%Q) = Fin (3 * (PI / 4)).
Proof. unfold ofQ. rewrite radians_fin. f_equal. unfold Q2R; simpl; field. Qed.

Lemma cos_0_degrees : cos (0 / 180 * PI) = 1.
Proof. replace (0 / 180 * PI) with 0 by field. apply cos_0. Qed.

Lemma hat_coeffs1 :
  coeffs hat_lop1 = {| Coeff.m := Fin 0; Coeff.b := Fin (1 / 20) |}.
Proof.
  unfold hat_lop1. rewrite radians_0, ofQ_3, ofQ_0.
  fold (fix_line 3 0 0 0).
  rewrite coeffs_line; [|lra|rewrite cos_0; lra|rewrite cos_0_degrees; lra].
  rewrite tan_0, cos_0, cos_0_degrees. f_equal; f_equal; field.
Qed.

Lemma hat_coeffs3 :
  coeffs hat_lop3 = {| Coeff.m := Fin 1; Coeff.b := Fin k45 |}.
Proof.
  unfold hat_lop3. rewrite ofQ_1, ofQ_0, radians_135. cbn [nneg].
  fold (fix_line (Ropp 1) (3 * (PI / 4)) 0 0).
  pose proof sqrt2_bounds as [L U].
  assert (C : cos (3 * (PI / 4)) <> 0).
  { rewrite cos_3PI4. intros E.
    apply (f_equal (fun v => v * sqrt 2)) in E. field_simplify in E; lra. }
  rewrite coeffs_line; [|lra|exact C|rewrite cos_0_degrees; lra].
  rewrite cos_0_degrees. unfold tan, k45.
  rewrite sin_3PI4, cos_3PI4, cos_PI4.
  f_equal; f_equal; field; lra.
Qed.

Lemma k45_upper : k45 < 1 / 40.
Proof.
  unfold k45. rewrite cos_PI4.
  pose proof (sqrt_lt_R0 2 ltac:(lra)) as P.
  pose proof (sqrt_sqrt 2 ltac:(lra)) as S.
  assert (U : sqrt 2 < 3 / 2) by nra.
  apply Rmult_lt_reg_r with (60 * (1 / sqrt 2) * sqrt 2 * 40).
  - field_simplify; lra.
  - field_simplify; lra.
Qed.

(** The three corners of the triangle, in the order of the loop of
    [redraw]: lines 1 and 2, lines 1 and 3, lines 2 and 3. *)
Definition hat_i12 : Ix.t :=
  {| Ix.x := Fin (200 * (k45 - 1 / 20)); Ix.y := Fin (- 10);
     Ix.lat := Fin (1 / 20); Ix.lon := Fin (k45 - 1 / 20) |}.

Definition hat_i13 : Ix.t :=
  {| Ix.x := Fin (200 * (1 / 20 - k45)); Ix.y := Fin (- 10);
     Ix.lat := Fin (1 / 20); Ix.lon := Fin (1 / 20 - k45) |}.

Definition hat_i23 : Ix.t :=
  {| Ix.x := Fin 0; Ix.y := Fin (- (200 * k45));
     Ix.lat := Fin k45; Ix.lon := Fin 0 |}.

Lemma hat_on_example_sheet s :
  on_example_sheet s ->
  all_intersections (setCanvasDimensions s) [hat_lop1; cross_lop1; hat_lop3]
  = [hat_i12; hat_i13; hat_i23].
Proof.
  intros H. destruct (example_sheet_frame H) as (F1 & F2 & F3 & F4 & F5).
  unfold all_intersections. cbn [map List.length seq Nat.sub flat_map nth app].
  rewrite hat_coeffs1, cross_coeffs1, hat_coeffs3.
  pose proof k45_bounds as [KL _]. pose proof k45_upper as KU.
  rewrite (@intersect_fin _ _ _ _ _ _ _ F1 F2 F3 F4 F5 0 (1 / 20) (- 1) k45);
    [|lra|replace (0 + - -1) with 1 by lra; split; nra
     |replace (0 + - -1) with 1 by lra; split; nra].
  rewrite (@intersect_fin _ _ _ _ _ _ _ F1 F2 F3 F4 F5 0 (1 / 20) 1 k45);
    [|lra|replace (0 + - (1)) with (- 1) by lra; split; nra
     |replace (0 + - (1)) with (- 1) by lra; split; nra].
  rewrite (@intersect_fin _ _ _ _ _ _ _ F1 F2 F3 F4 F5 (- 1) k45 1 k45);
    [|lra|replace (k45 + - k45) with 0 by lra; split; nra
     |replace (k45 + - k45) with 0 by lra; split; nra].
  unfold hat_i12, hat_i13, hat_i23. cbn [app].
  apply (f_equal2 cons); [|apply (f_equal2 cons); [|apply (f_equal2 cons); [|reflexivity]]];
    apply (f_equal4 Ix.Build_t); apply (f_equal Fin); field.
Qed.

Lemma hat_intersections : _intersections hat_session = [hat_i12; hat_i13; hat_i23].
Proof.
  unfold hat_session.
  rewrite step_add by (vm_compute; reflexivity).
  rewrite intersections_redraw.
  replace (_lops (pre_add before_hat)) with [hat_lop1; cross_lop1; hat_lop3]
    by (vm_compute; reflexivity).
  apply hat_on_example_sheet.
  unfold on_example_sheet; repeat split; vm_compute; reflexivity.
Qed.

End Hat.

Section HatReadout.
Local Open Scope R_scope.

Lemma redraw_frame s :
  _sheetSize (redraw s) = _sheetSize (setCanvasDimensions s)
  /\ _ctrLat (redraw s) = _ctrLat (setCanvasDimensions s)
  /\ _ctrLon (redraw s) = _ctrLon (setCanvasDimensions s)
  /\ _latScale (redraw s) = _latScale (setCanvasDimensions s)
  /\ _lonScale (redraw s) = _lonScale (setCanvasDimensions s).
Proof. repeat split. Qed.

Lemma hat_session_redraw : hat_session = redraw (pre_add before_hat).
Proof. unfold hat_session. apply step_add. vm_compute. reflexivity. Qed.

Lemma hat_frame :
  _sheetSize hat_session = {| width := Fin 1000; height := Fin 880 |}
  /\ _ctrLat hat_session = Some (Fin 0) /\ _ctrLon hat_session = Some (Fin 0)
  /\ _latScale hat_session = Fin 200 /\ _lonScale hat_session = Fin 200.
Proof.
  assert (H : on_example_sheet (pre_add before_hat))
    by (unfold on_example_sheet; repeat split; vm_compute; reflexivity).
  destruct (example_sheet_frame H) as (F1 & F2 & F3 & F4 & F5).
  rewrite hat_session_redraw.
  destruct (redraw_frame (pre_add before_hat)) as (-> & -> & -> & -> & ->).
  repeat split; assumption.
Qed.

(** The pointer at (495, 490) of the window is 5 pixels left of the center
    of the sheet and 10 pixels above it. *)
Lemma hat_pointer :
  nsub (nsub (ofZ 495) (ofZ (sheet_offsetLeft (dom hat_session))))
       (ndiv (width (_sheetSize hat_session)) (Fin 2)) = Fin (- 5)
  /\ nsub (nsub (ofZ 490) (ofZ (sheet_offsetTop (dom hat_session))))
          (ndiv (height (_sheetSize hat_session)) (Fin 2)) = Fin (- 10).
Proof.
  destruct hat_frame as (F1 & _).
  replace (sheet_offsetLeft (dom hat_session)) with 0%Z by (vm_compute; reflexivity).
  replace (sheet_offsetTop (dom hat_session)) with 60%Z by (vm_compute; reflexivity).
  rewrite F1. cbn [width height]. unfold ofZ.
  rewrite !ndiv_fin by lra. cbn [nsub nneg nadd].
  split; apply (f_equal Fin); lra.
Qed.

Lemma hat_distances :
  exists d12 d13 d23,
    dSqrd (Fin (- 5)) (Fin (- 10)) hat_i12 = Fin d12
    /\ dSqrd (Fin (- 5)) (Fin (- 10)) hat_i13 = Fin d13
    /\ dSqrd (Fin (- 5)) (Fin (- 10)) hat_i23 = Fin d23
    /\ d12 < 3 /\ 100 < d13 /\ 50 < d23 < 70.
Proof.
  pose proof k45_bounds as [KL _]. pose proof k45_upper as KU.
  unfold dSqrd, npow2, hat_i12, hat_i13, hat_i23.
  cbn [Ix.x Ix.y nsub nneg nadd nmul].
  do 3 eexists. split; [reflexivity|]. split; [reflexivity|].
  split; [reflexivity|]. repeat split; nra.
Qed.

Lemma hat_near :
  near (Fin (- 5)) (Fin (- 10)) hat_i12 = true
  /\ near (Fin (- 5)) (Fin (- 10)) hat_i13 = false
  /\ near (Fin (- 5)) (Fin (- 10)) hat_i23 = true.
Proof.
  destruct hat_distances as (d12 & d13 & d23 & E12 & E13 & E23 & H12 & H13 & H23).
  unfold near, ngt. rewrite E12, E13, E23.
  repeat split.
  - apply negb_true_iff, nlt_fin_false. lra.
  - apply negb_false_iff, nlt_fin. lra.
  - apply negb_true_iff, nlt_fin_false. lra.
Qed.

(** C2 at the failing input: over the triangle of the three lines of
    position, the pointer is less than two pixels from the first corner and
    more than seven from the third, both within ten pixels; the readout
    snaps to the third, the last of the list, and shows its coordinates. *)
Theorem snap_takes_last_not_nearest :
  reachable hat_session
  /\ _intersections hat_session = [hat_i12; hat_i13; hat_i23]
  /\ (exists d12 d23,
         dSqrd (Fin (- 5)) (Fin (- 10)) hat_i12 = Fin d12
         /\ dSqrd (Fin (- 5)) (Fin (- 10)) hat_i23 = Fin d23
         /\ d12 < d23 <= 100)
  /\ snap (Fin (- 5)) (Fin (- 10)) (_intersections hat_session) = Some hat_i23
  /\ coords (dom (step (MouseMove 495 490) hat_session)) = Some (Fin k45, Fin 0)
  /\ (Ix.lat hat_i23, Ix.lon hat_i23) = (Fin k45, Fin 0)
  /\ (Ix.lat hat_i12, Ix.lon hat_i12) = (Fin (1 / 20), Fin (k45 - 1 / 20)).
Proof.
  destruct hat_near as (N1 & N2 & N3).
  assert (S : snap (Fin (- 5)) (Fin (- 10)) (_intersections hat_session)
              = Some hat_i23).
  { rewrite hat_intersections, snap_last. cbn [filter].
    rewrite N1, N2, N3. reflexivity. }
  split; [exact hat_reachable|].
  split; [exact hat_intersections|].
  split.
  { destruct hat_distances as (d12 & d13 & d23 & E12 & _ & E23 & H12 & _ & H23).
    exists d12, d23. repeat split; try assumption; lra. }
  split; [exact S|].
  split; [|split; reflexivity].
  cbn [step]. unfold updateCoordsDisplay.
  destruct hat_pointer as [-> ->]. rewrite S.
  destruct hat_frame as (_ & F2 & F3 & F4 & F5).
  rewrite F2, F3, F4, F5.
  cbn [set_dom set_coords dom coords hat_i23 Ix.x Ix.y toNum nneg].
  rewrite !ndiv_fin by lra. cbn [nadd].
  f_equal. apply f_equal2; apply (f_equal Fin); field.
Qed.

End HatReadout.

(* ================================================================== *)
(** ** Sheets the engine is not safe on *)

Section OddSheets.
Local Open Scope R_scope.

(** When the window leaves exactly 80 pixels to the sheet, both scales are
    zero and the bound of the loop over the meridians is +Infinity:
    [redraw] never returns. *)
Definition flat_session : session := step (Resize 1000 200) (onload example_page).

Lemma flat_sheet_never_painted :
  _lonScale flat_session = Fin 0
  /\ meridians flat_session = Inf false
  /\ ~ painted flat_session
  /\ ~ reachable flat_session.
Proof.
  assert (L : _lonScale flat_session = Fin 0).
  { destruct onload_example as (_ & (C & _) & _).
    unfold flat_session. set (s0 := onload example_page) in *.
    unfold step, redraw, setCanvasDimensions.
    cbn [set_intersections set_frame _lonScale _ctrLat dom set_dom set_window height
         innerHeight header_clientHeight footer_clientHeight].
    rewrite C.
    replace (header_clientHeight (dom s0)) with 60%Z by (vm_compute; reflexivity).
    replace (footer_clientHeight (dom s0)) with 60%Z by (vm_compute; reflexivity).
    unfold ofQ, ofZ. rewrite Q2R_0. cbn [toNum nsub nneg nadd].
    rewrite radians_fin, ndiv_fin by lra. cbn [ncos nmul].
    apply (f_equal Fin). simpl. lra. }
  assert (M : meridians flat_session = Inf false).
  { unfold meridians. rewrite L.
    replace (width (_sheetSize flat_session)) with (Fin 1000) by reflexivity.
    unfold ndiv at 2. rewrite (@is_zero_true 0) by reflexivity.
    rewrite (@is_zero_false 1000), (@is_neg_false 1000) by lra.
    cbn [ndiv]. rewrite (@is_neg_false 2) by lra. reflexivity. }
  split; [exact L|]. split; [exact M|].
  split; [intros P; exact (P M)|].
  intros R. exact (reachable_painted R M).
Qed.

(** A page loaded with a central latitude that does not parse: [_ctrLat]
    stays undefined and the scale of longitudes is NaN. *)
Definition unread_page : page :=
  set_inputs (fun e => if El.eqb e El.ctrLat
                       then {| value := lit "95"; flagged := false |}
                       else inputs example_page e) example_page.

Definition unread (s : session) : Prop := _ctrLat s = None /\ _lonScale s = NaN.

Lemma nmul_nan_r x : nmul x NaN = NaN.
Proof. destruct x; reflexivity. Qed.

Lemma nadd_nan_r x : nadd x NaN = NaN.
Proof. destruct x; reflexivity. Qed.

Lemma nlt_nan_r x : nlt x NaN = false.
Proof. destruct x; reflexivity. Qed.

Lemma unread_painted s : unread s -> painted s.
Proof.
  intros [_ L]. unfold painted, meridians. rewrite L, ndiv_nan. discriminate.
Qed.

Lemma frame_unread s : _ctrLat s = None -> unread (setCanvasDimensions s).
Proof.
  intros C. split; [exact C|]. unfold setCanvasDimensions.
  cbn [set_frame _lonScale]. rewrite C. cbn [toNum radians ndiv nmul ncos].
  apply nmul_nan_r.
Qed.

Lemma redraw_unread s : _ctrLat s = None -> unread (redraw s).
Proof. exact (@frame_unread s). Qed.

Lemma step_unread ev s :
  plotting ev = true -> unread s -> unread (step ev s).
Proof.
  intros P H.
  destruct ev as [e text|v|e| |x y| |w h]; try discriminate P.
  - destruct e; try discriminate P;
      revert H; open_handlers; split_matches; exact (fun H => H).
  - revert H; open_handlers; split_matches; exact (fun H => H).
  - destruct e; exact H.
  - unfold step. destruct (addLOPBtn_disabled (dom s)); [exact H|].
    apply redraw_unread. exact (proj1 H).
  - revert H; open_handlers; split_matches; exact (fun H => H).
  - exact H.
Qed.

Lemma unread_step ev s :
  plotting ev = true -> reachable s /\ unread s ->
  reachable (step ev s) /\ unread (step ev s).
Proof.
  intros P [R U].
  pose proof (step_unread ev P U) as U'.
  split; [|exact U']. apply reach_step; [exact R|]. apply unread_painted, U'.
Qed.

Lemma onload_unread : reachable (onload unread_page) /\ unread (onload unread_page).
Proof.
  assert (U : unread (onload unread_page)).
  { unfold onload. cbv zeta. apply redraw_unread. vm_compute. reflexivity. }
  split; [|exact U]. apply reach_onload, unread_painted, U.
Qed.

(** Two lines of slope -1 and of intercepts [k] and [2 k] on such a sheet:
    the intercept solved for is infinite, its projection is NaN, and NaN
    passes every comparison of the test against the sides of the sheet. *)
Lemma intersect_unread s k :
  unread s -> 0 < k ->
  intersect s {| Coeff.m := Fin (- 1); Coeff.b := Fin k |}
              {| Coeff.m := Fin (- 1); Coeff.b := Fin (2 * k) |}
  = Some {| Ix.x := NaN; Ix.y := NaN; Ix.lat := Inf true; Ix.lon := Inf false |}.
Proof.
  intros [C L] K. unfold intersect, project.
  cbn [Coeff.m Coeff.b nsub nneg nadd].
  match goal with
  | |- context [ndiv (Fin ?a) (Fin ?b)] =>
      assert (EL : ndiv (Fin a) (Fin b) = Inf false)
        by (unfold ndiv; rewrite (@is_zero_true b) by lra;
            rewrite (@is_zero_false a) by lra;
            rewrite (@is_neg_false a) by lra; reflexivity)
  end.
  rewrite !EL. cbn [isNaN nmul].
  rewrite (@is_zero_false (-1)) by lra.
  rewrite (@is_neg_true (-1)) by lra. cbn [xorb nadd isNaN].
  rewrite C, L. cbn [toNum Pt.x Pt.y nadd nneg nmul].
  rewrite !nmul_nan_r, !nadd_nan_r. unfold ngt. rewrite !nlt_nan_r.
  cbn [nlt orb nadd nneg]. reflexivity.
Qed.

Definition pair_lop2 : Lop.t :=
  {| Lop.a := Some (ofQ 2%Q); Lop.Zn := Some (radians (ofQ 45%Q));
     Lop.aLat := Some (ofQ 0%Q); Lop.aLon := Some (ofQ 0%Q) |}.

Lemma pair_coeffs2 :
  coeffs pair_lop2 = {| Coeff.m := Fin (- 1); Coeff.b := Fin (2 * k45) |}.
Proof.
  unfold pair_lop2. rewrite ofQ_0, radians_45.
  replace (ofQ 2%Q) with (Fin 2) by (unfold ofQ; f_equal; unfold Q2R; simpl; field).
  fold (fix_line 2 (PI / 4) 0 0).
  destruct cos_PI4_bounds as [CL CU].
  rewrite coeffs_line; [|lra|lra|rewrite cos_0_degrees; lra].
  rewrite tan_PI4, cos_0_degrees. unfold k45.
  apply f_equal2; apply (f_equal Fin); field; lra.
Qed.

(** The page is loaded with the central latitude 95, which is refused; two
    lines of position of azimuth 45 degrees, one and two miles toward, are
    added from the assumed position (0, 0). *)
Definition before_pair : session :=
  step (Change El.a (lit "2"))
    (step ClickAdd
       (step (Change El.Zn (lit "45"))
          (step (Change El.a (lit "1")) (onload unread_page)))).

Definition pair_session : session := step ClickAdd before_pair.

(** The two lines are parallel, and the pair is kept: this is why the
    statement about parallel lines (C7) asks for a finite scale of
    longitudes. *)
Lemma unread_center_keeps_parallel_pair :
  reachable pair_session
  /\ _lops pair_session = [cross_lop1; pair_lop2]
  /\ Lop.Zn cross_lop1 = Lop.Zn pair_lop2
  /\ Lop.aLat cross_lop1 = Lop.aLat pair_lop2
  /\ _intersections pair_session
     = [{| Ix.x := NaN; Ix.y := NaN; Ix.lat := Inf true; Ix.lon := Inf false |}].
Proof.
  assert (R : reachable pair_session /\ unread pair_session).
  { unfold pair_session, before_pair.
    repeat (apply unread_step; [reflexivity|]). exact onload_unread. }
  split; [exact (proj1 R)|].
  split; [vm_compute; reflexivity|].
  split; [reflexivity|]. split; [reflexivity|].
  unfold pair_session.
  rewrite step_add by (vm_compute; reflexivity).
  rewrite intersections_redraw.
  replace (_lops (pre_add before_pair)) with [cross_lop1; pair_lop2]
    by (vm_compute; reflexivity).
  unfold all_intersections. cbn [map List.length seq Nat.sub flat_map nth app].
  rewrite cross_coeffs1, pair_coeffs2.
  rewrite intersect_unread; [reflexivity| |pose proof k45_bounds; lra].
  apply frame_unread. vm_compute. reflexivity.
Qed.

End OddSheets.

(* ================================================================== *)
(** * Further properties *)

(** ** The angle codec *)

(** X1: whatever the text, a parser of the codec returns no magnitude above
    the maximum of its field: a latitude read is within 89 degrees, a
    longitude within 180. *)
Theorem no_magnitude_above_the_maximum (s : jsstring) (maxDigits : nat)
        (maxMagnitude : Q) (posDirection negDirection : jsstring)
        (withMinutes : bool) (q : Q) :
  (0 <= maxMagnitude)%Q ->
  parseDegreesDirection s maxDigits maxMagnitude posDirection negDirection withMinutes
  = Some q ->
  (Qabs q <= maxMagnitude)%Q.
Proof. apply parsed_magnitude_bounded. Qed.

Lemma no_magnitude_above_the_maximum_witness :
  parseLongitude (lit "179 59.9 W") = Some (- (107999 # 600))%Q
  /\ (Qabs (- (107999 # 600)) <= 180)%Q.
Proof.
  assert (E : parseLongitude (lit "179 59.9 W") = Some (- (107999 # 600))%Q)
    by (vm_compute; reflexivity).
  split; [exact E|].
  apply (@no_magnitude_above_the_maximum (lit "179 59.9 W") 3 180%Q E_ W_ true
           (- (107999 # 600))%Q); [vm_compute; discriminate|exact E].
Defined.

Section Blank.

Lemma trimStart_blank s : forallb is_space s = true -> trimStart s = [].
Proof.
  induction s as [|c s IH]; simpl; [reflexivity|].
  rewrite andb_true_iff. intros [-> H]. exact (IH H).
Qed.

Lemma trim_blank s : forallb is_space s = true -> trim s = [].
Proof. intros H. unfold trim. rewrite (trimStart_blank s H). reflexivity. Qed.

Lemma trimStart_app s t :
  trimStart (s ++ t)
  = match trimStart s with [] => trimStart t | _ => trimStart s ++ t end.
Proof.
  induction s as [|c s IH]; simpl.
  - destruct (trimStart t); reflexivity.
  - destruct (is_space c); [exact IH|reflexivity].
Qed.

Lemma forallb_is_space_rev s : forallb is_space s = true -> forallb is_space (rev s) = true.
Proof.
  rewrite !forallb_forall. intros H c Hc. apply H, in_rev, Hc.
Qed.

Lemma trim_pad ws ws' s :
  forallb is_space ws = true -> forallb is_space ws' = true ->
  trim (ws ++ s ++ ws') = trim s.
Proof.
  intros H H'. unfold trim.
  rewrite trimStart_app, (trimStart_blank ws H).
  rewrite trimStart_app.
  destruct (trimStart s) as [|c u] eqn:E.
  - rewrite (trimStart_blank ws' H'). reflexivity.
  - rewrite rev_app_distr, trimStart_app.
    rewrite trimStart_blank by (apply forallb_is_space_rev, H').
    reflexivity.
Qed.

Lemma parse_blank (t : jsstring) maxDigits maxMagnitude pos neg withMinutes :
  forallb is_space t = true ->
  parseDegreesDirection t maxDigits maxMagnitude pos neg withMinutes = Some 0%Q.
Proof.
  intros H. unfold parseDegreesDirection. rewrite (trim_blank t H). reflexivity.
Qed.

End Blank.

(** X2: a text of white space only, the empty text included, is read as
    zero by every parser of the codec, whatever the bounds and the
    letters. *)
Theorem blank_reads_as_zero (s : jsstring) (maxDigits : nat) (maxMagnitude : Q)
        (posDirection negDirection : jsstring) (withMinutes : bool) :
  forallb is_space s = true ->
  parseDegreesDirection s maxDigits maxMagnitude posDirection negDirection withMinutes
  = Some 0%Q.
Proof.
  intros H. apply parse_blank, H.
Qed.

Lemma blank_reads_as_zero_witness :
  parseIntegerLatitude (lit "   ") = Some 0%Q
  /\ parseLongitude [9; 32; 160]%N = Some 0%Q.
Proof.
  split.
  - apply (@blank_reads_as_zero (lit "   ") 2 89%Q N_ S_ false). reflexivity.
  - apply (@blank_reads_as_zero [9; 32; 160]%N 3 180%Q E_ W_ true). reflexivity.
Defined.

(** X3: white space before and after a text is ignored: the padded text is
    read as the text itself. *)
Theorem padding_is_ignored (ws ws' s : jsstring) (maxDigits : nat) (maxMagnitude : Q)
        (posDirection negDirection : jsstring) (withMinutes : bool) :
  forallb is_space ws = true -> forallb is_space ws' = true ->
  parseDegreesDirection (ws ++ s ++ ws') maxDigits maxMagnitude
                        posDirection negDirection withMinutes
  = parseDegreesDirection s maxDigits maxMagnitude
                          posDirection negDirection withMinutes.
Proof.
  intros H H'. unfold parseDegreesDirection. rewrite trim_pad by assumption. reflexivity.
Qed.

Lemma padding_is_ignored_witness :
  parseIntegerLongitude (lit "  120 W ") = parseIntegerLongitude (lit "120 W").
Proof.
  apply (@padding_is_ignored (lit "  ") (lit " ") (lit "120 W") 3 180%Q E_ W_ false);
    reflexivity.
Defined.

(** Run a parser of the codec on a text whose digits are variables,
    whatever the case of its letters. *)
Ltac read_text :=
  unfold parseIntegerLatitude, parseIntegerLongitude, parseLongitude,
    parseDegreesDirection, degree_sign;
  match goal with
  | |- context [toUpperCase (trim ?t)] =>
      let u := fresh "u" in
      evar (u : jsstring);
      replace (toUpperCase (trim t)) with u by (symmetry; subst u; trim_upper);
      subst u
  end;
  cbn [JsString.eqb];
  rewrite exec_collapse by (apply degreesRegex_respects; reflexivity);
  cbn [map]; digit_facts; const_char collapse;
  match goal with
  | |- context [find ?g ?r ?v] =>
      let w := eval vm_compute in (find g r v) in
      replace (find g r v) with w by (vm_compute; reflexivity)
  end;
  cbn -[Number qadd qdiv qgt qneg].

Lemma whole_magnitude (t : jsstring) : qadd (Number t) (qdiv 0%Q 60%Q) = Number t.
Proof.
  unfold Number. destruct (split_dot t) as [ip fp].
  unfold qadd. apply Qred_complete.
  replace (qdiv 0%Q 60%Q) with 0%Q by (vm_compute; reflexivity).
  rewrite Qred_correct. ring.
Qed.

(** What the parser of integer latitudes makes of the digits [D] taken as a
    north or as a south latitude. *)
Definition latitude_of (negative : bool) (D : jsstring) : option Q :=
  if qgt (Number D) 89%Q then None
  else Some (if negative then qneg (Number D) else Number D).

Ltac two_digits D LD HD :=
  destruct D as [|?c [|?c [|? ?]]]; simpl in LD; try lia;
  simpl in HD; rewrite ?andb_true_r in HD;
  repeat match goal with
         | H : _ && _ = true |- _ => apply andb_true_iff in H; destruct H
         end.

(** X4: the forms of an integer latitude.  One or two digits alone, with a
    plus sign, or followed by the letter N (in either case, with or without
    a degree sign or an asterisk) are the same north latitude; a minus sign
    or the letter S give the same south latitude. *)
Theorem integer_latitude_forms (D : jsstring) :
  forallb is_digit D = true -> (1 <= List.length D <= 2)%nat ->
  parseIntegerLatitude D = latitude_of false D
  /\ parseIntegerLatitude ([43%N] ++ D) = latitude_of false D
  /\ parseIntegerLatitude (D ++ [78%N]) = latitude_of false D
  /\ parseIntegerLatitude (D ++ [degree_sign; 32%N; 78%N]) = latitude_of false D
  /\ parseIntegerLatitude (D ++ [42%N; 110%N]) = latitude_of false D
  /\ parseIntegerLatitude (D ++ [degree_sign]) = latitude_of false D
  /\ parseIntegerLatitude ([45%N] ++ D) = latitude_of true D
  /\ parseIntegerLatitude ([45%N; 32%N] ++ D ++ [degree_sign]) = latitude_of true D
  /\ parseIntegerLatitude (D ++ [32%N; 83%N]) = latitude_of true D
  /\ parseIntegerLatitude (D ++ [115%N]) = latitude_of true D.
Proof.
  intros HD LD. unfold latitude_of. rewrite <- (whole_magnitude D).
  two_digits D LD HD; cbn [app]; repeat split; read_text; reflexivity.
Qed.

Lemma integer_latitude_forms_witness :
  parseIntegerLatitude (lit "-35") = parseIntegerLatitude (lit "35 S")
  /\ parseIntegerLatitude (lit "35*n") = Some 35%Q.
Proof.
  destruct (@integer_latitude_forms (lit "35")) as (_ & _ & _ & _ & H5 & _ & H7 & _ & H9 & _);
    [reflexivity|simpl; lia|].
  split.
  - exact (eq_trans H7 (eq_sym H9)).
  - exact H5.
Defined.

(** X5: what the parser of integer latitudes refuses, whatever the digits:
    a sign together with a letter, the letters of a longitude, a letter
    before the digits, a fraction, minutes, and a third digit (a leading
    zero counts). *)
Theorem integer_latitude_refusals (D : jsstring) (c : char) :
  forallb is_digit D = true -> (1 <= List.length D <= 2)%nat ->
  is_digit c = true ->
  parseIntegerLatitude ([45%N] ++ D ++ [78%N]) = None
  /\ parseIntegerLatitude ([43%N] ++ D ++ [83%N]) = None
  /\ parseIntegerLatitude (D ++ [69%N]) = None
  /\ parseIntegerLatitude (D ++ [87%N]) = None
  /\ parseIntegerLatitude ([78%N] ++ D) = None
  /\ parseIntegerLatitude (D ++ [46%N; c]) = None
  /\ parseIntegerLatitude (D ++ [32%N; c]) = None
  /\ parseIntegerLatitude (D ++ [degree_sign; c; 39%N]) = None
  /\ parseIntegerLatitude ([48%N; 48%N] ++ D) = None.
Proof.
  intros HD LD Hc.
  two_digits D LD HD; cbn [app]; repeat split; read_text; reflexivity.
Qed.

Lemma integer_latitude_refusals_witness :
  parseIntegerLatitude (lit "-35N") = None
  /\ parseIntegerLatitude (lit "35.5") = None
  /\ parseIntegerLatitude (lit "005") = None.
Proof.
  destruct (@integer_latitude_refusals (lit "35") 53%N) as (H1 & _ & _ & _ & _ & H6 & _);
    [reflexivity|simpl; lia|reflexivity|].
  destruct (@integer_latitude_refusals (lit "5") 53%N) as (_ & _ & _ & _ & _ & _ & _ & _ & H9);
    [reflexivity|simpl; lia|reflexivity|].
  split; [exact H1|]. split; [exact H6|exact H9].
Defined.

(** What the parser of longitudes with minutes makes of the degrees [D]
    and the minutes [M] when no direction is given. *)
Definition east_of (D M : jsstring) : option Q :=
  let magnitude := qadd (Number D) (qdiv (Number M) 60%Q) in
  if qgt magnitude 180%Q then None else Some magnitude.

(** X6: in the grammar with minutes a text of digits alone is cut into
    degrees and minutes, the minutes taking the last digit, or the last two
    when there are five; one digit alone, which leaves no minutes, is
    refused, and so are six digits. *)
Theorem bare_digits_with_minutes (c1 c2 c3 c4 c5 c6 : char) :
  is_digit c1 = true -> is_digit c2 = true -> is_digit c3 = true ->
  is_digit c4 = true -> is_digit c5 = true -> is_digit c6 = true ->
  parseLongitude [c1] = None
  /\ parseLongitude [c1; c2] = east_of [c1] [c2]
  /\ parseLongitude [c1; c2; c3] = east_of [c1; c2] [c3]
  /\ parseLongitude [c1; c2; c3; c4] = east_of [c1; c2; c3] [c4]
  /\ parseLongitude [c1; c2; c3; c4; c5] = east_of [c1; c2; c3] [c4; c5]
  /\ parseLongitude [c1; c2; c3; c4; c5; c6] = None.
Proof.
  intros H1 H2 H3 H4 H5 H6. unfold east_of.
  repeat split; read_text; reflexivity.
Qed.

Lemma bare_digits_with_minutes_witness :
  parseLongitude (lit "181") = Some (1081 # 60)%Q
  /\ parseLongitude (lit "5") = None
  /\ parseLongitude (lit "18030") = None.
Proof.
  destruct (@bare_digits_with_minutes 49 56 48 51 48 48)%N as (_ & _ & H3 & _ & H5 & _);
    try reflexivity.
  destruct (@bare_digits_with_minutes 53 56 48 51 48 48)%N as (H1 & _);
    try reflexivity.
  destruct (@bare_digits_with_minutes 49 56 49 51 48 48)%N as (_ & _ & G3 & _);
    try reflexivity.
  split; [exact G3|]. split; [exact H1|exact H5].
Defined.

(** X7: reading is a left inverse of writing.  A whole latitude up to 89,
    a whole longitude up to 180 and a longitude of a whole number of tenths
    of a minute up to 180 degrees, written by their formatter, are read back
    as the same number. *)
Theorem parse_inverts_format :
  (forall negative n, (n <= 89)%N ->
     let x := signed negative (inject_Z (Z.of_N n)) in
     parseIntegerLatitude (formatIntegerLatitude x) = Some x)
  /\ (forall negative n, (n <= 180)%N ->
        let x := signed negative (inject_Z (Z.of_N n)) in
        parseIntegerLongitude (formatIntegerLongitude x) = Some x)
  /\ (forall negative n, (n <= 108000)%N ->
        let x := signed negative (Z.of_N n # 600) in
        parseLongitude (formatLongitude x) = Some x).
Proof.
  split; [|split]; intros negative n H x; subst x.
  - apply parseIntegerLatitude_format, H.
  - apply parseIntegerLongitude_format, H.
  - apply parseLongitude_formatLongitude, H.
Qed.

Lemma parse_inverts_format_witness :
  parseIntegerLatitude (formatIntegerLatitude (-35)%Q) = Some (-35)%Q
  /\ parseLongitude (formatLongitude (1453 # 12)%Q) = Some (1453 # 12)%Q.
Proof.
  destruct parse_inverts_format as (H1 & _ & H3). split.
  - apply (H1 true 35%N). vm_compute. discriminate.
  - exact (H3 false 72650%N ltac:(vm_compute; discriminate)).
Defined.

Section Accuracy.
Local Open Scope Q_scope.

Lemma minute_tenths_near (x : Q) :
  Qabs (inject_Z (Z.of_N (whole_degrees x))
        + (Z.of_N (minute_tenths x) # 10) / 60 - Qabs x) <= 1 # 1200.
Proof.
  destruct (fraction_bounds x) as [L U].
  pose proof (Qfloor_abs_nonneg x) as F.
  unfold whole_degrees, minute_tenths, round_half_expand.
  set (d := Qfloor (Qabs x)) in *.
  set (fr := Qabs x - inject_Z d) in *.
  pose proof (Qfloor_le (fr * 60 * 10 + (1 # 2))) as KL.
  pose proof (Qlt_floor (fr * 60 * 10 + (1 # 2))) as KU.
  assert (K0 : (0 <= Qfloor (fr * 60 * 10 + (1 # 2)))%Z).
  { rewrite <- (Qfloor_Z 0). apply Qfloor_resp_le. change (inject_Z 0) with 0. lra. }
  set (k := Qfloor (fr * 60 * 10 + (1 # 2))) in *.
  rewrite !Z2N.id by assumption.
  rewrite inject_Z_plus in KU. change (inject_Z 1) with 1 in KU.
  rewrite Qmake_Qdiv. change (inject_Z (Z.pos 10)) with 10.
  assert (E : Qabs x == inject_Z d + fr) by (unfold fr; ring).
  apply Qabs_Qle_condition. rewrite E.
  set (kq := inject_Z k) in *. set (dq := inject_Z d) in *.
  assert (D : kq / 10 / 60 == kq * (1 # 600)) by field.
  rewrite D. split; lra.
Qed.

End Accuracy.

(** X8: the degrees and the minutes written by [formatLatitude] and
    [formatLongitude], read as numbers, are within one twentieth of a minute
    (1/1200 of a degree) of the magnitude of the value. *)
Theorem written_minutes_accuracy (a : axis) (x : Q) :
  (Qabs x <= axis_max a)%Q ->
  exists D M : jsstring,
    formatMinutes a x
    = D ++ [degree_sign; 32%N] ++ M ++ [right_quote]
        ++ direction x (axis_pos a) (axis_neg a)
    /\ (Qabs (Number D + Number M / 60 - Qabs x) <= 1 # 1200)%Q.
Proof.
  intros Hx.
  pose proof (minute_tenths_le x) as Hk.
  destruct (@render_minutes (minute_tenths x)) as (m1 & m2 & f & E & _ & _ & _ & Mv);
    [lia|].
  assert (Dv : Number (render false (whole_degrees x) (degrees_format (axis_width a)))
               = inject_Z (Z.of_N (whole_degrees x))).
  { destruct a; cbn [axis_width].
    - apply render_degrees2. pose proof (@whole_degrees_le x 90 Hx). lia.
    - apply render_degrees3. pose proof (@whole_degrees_le x 180 Hx). lia. }
  exists (render false (whole_degrees x) (degrees_format (axis_width a))),
         (render false (minute_tenths x) minutes_format).
  split.
  - destruct a; unfold formatMinutes, formatLatitude, formatLongitude;
      rewrite formatDegreesMinutesDirection_parts; reflexivity.
  - rewrite Dv, E, Mv, Qred_correct. apply minute_tenths_near.
Qed.

Lemma written_minutes_accuracy_witness :
  exists D M : jsstring,
    formatLongitude (- (1453 # 12))%Q
    = D ++ [degree_sign; 32%N] ++ M ++ [right_quote] ++ 32%N :: W_
    /\ (Qabs (Number D + Number M / 60 - Qabs (- (1453 # 12))) <= 1 # 1200)%Q.
Proof.
  apply (@written_minutes_accuracy Longitude (- (1453 # 12))%Q).
  vm_compute. discriminate.
Defined.

(* ================================================================== *)
(** ** The session *)

Section Plot.
Local Open Scope R_scope.

(** ** What the sheet and the draft can hold *)

Definition finite_ok (o : option num) : Prop :=
  o = None \/ exists r, o = Some (Fin r).

Definition within (bound : R) (o : option num) : Prop :=
  o = None \/ exists r, o = Some (Fin r) /\ Rabs r <= bound.

Definition draft_in_range (d : Lop.t) : Prop :=
  finite_ok (Lop.a d) /\ azimuth_ok (Lop.Zn d)
  /\ within 89 (Lop.aLat d) /\ within 180 (Lop.aLon d).

Definition complete (d : Lop.t) : Prop :=
  Lop.a d <> None /\ Lop.Zn d <> None /\ Lop.aLat d <> None /\ Lop.aLon d <> None.

(** A line of position with its four numbers, each in its range. *)
Definition line_ok (l : Lop.t) : Prop :=
  exists a Zn lat lon,
    l = fix_line a Zn lat lon
    /\ 0 <= Zn <= 2 * PI /\ Rabs lat <= 89 /\ Rabs lon <= 180.

Lemma complete_line d : draft_in_range d -> complete d -> line_ok d.
Proof.
  destruct d as [a z la lo]. unfold draft_in_range, complete; cbn.
  intros (Ha & Hz & Hla & Hlo) (Na & Nz & Nla & Nlo).
  destruct Ha as [?|(ra & ->)]; [contradiction|].
  destruct Hz as [?|(rz & -> & Bz)]; [contradiction|].
  destruct Hla as [?|(rla & -> & Bla)]; [contradiction|].
  destruct Hlo as [?|(rlo & -> & Blo)]; [contradiction|].
  exists ra, rz, rla, rlo.
  split; [reflexivity|]. split; [exact Bz|]. split; assumption.
Qed.

Lemma within_parsed (q : Q) (b : Z) :
  (Qabs q <= inject_Z b)%Q -> within (IZR b) (Some (ofQ q)).
Proof.
  intros H. right. exists (Q2R q). split; [reflexivity|].
  apply Qabs_Qle_condition in H. destruct H as [L U].
  apply Qle_Rle in L, U. rewrite Q2R_opp in L. rewrite Q2R_inject_Z in L, U.
  apply Rabs_le. split; lra.
Qed.

Record plot_ok (s : session) : Prop := {
  plot_draft : draft_in_range (_draftLOP s);
  plot_button : addLOPBtn_disabled (dom s) = false -> complete (_draftLOP s);
  plot_lines : Forall line_ok (_lops s);
  plot_ctrLat : within 89 (_ctrLat s);
  plot_ctrLon : within 180 (_ctrLon s)
}.

(** What a handler of the draft leaves alone. *)
Definition rest (s : session) : list Lop.t * option num * option num :=
  (_lops s, _ctrLat s, _ctrLon s).

Lemma rest_eq s s' :
  rest s' = rest s ->
  _lops s' = _lops s /\ _ctrLat s' = _ctrLat s /\ _ctrLon s' = _ctrLon s.
Proof.
  unfold rest. generalize (_lops s'), (_lops s), (_ctrLat s'), (_ctrLat s),
    (_ctrLon s'), (_ctrLon s).
  intros ? ? ? ? ? ? E. injection E as E1 E2 E3. auto.
Qed.

Lemma updateA_draft s :
  rest (updateA s) = rest s
  /\ exists v, _draftLOP (updateA s) = Lop.set_a v (_draftLOP s) /\ finite_ok v.
Proof.
  unfold updateA.
  destruct (JsString.eqb (trim (value_of El.a s)) []).
  { split; [reflexivity|]. eexists. split; [reflexivity|]. right. eexists. reflexivity. }
  destruct (exec 2 distanceRegex (trim (value_of El.a s))) as [m|].
  - split; [reflexivity|]. eexists. split; [reflexivity|]. right.
    cbv zeta. destruct (JsString.eqb _ _); eexists; reflexivity.
  - split; [reflexivity|]. eexists. split; [reflexivity|]. left. reflexivity.
Qed.

Lemma updateZn_draft s :
  rest (updateZn s) = rest s
  /\ exists v, _draftLOP (updateZn s) = Lop.set_Zn v (_draftLOP s) /\ azimuth_ok v.
Proof.
  split; [open_handlers; split_matches; reflexivity|].
  exists (Lop.Zn (_draftLOP (updateZn s))). split; [|apply updateZn_azimuth].
  open_handlers; split_matches; reflexivity.
Qed.

Lemma updateALat_draft s :
  rest (updateALat s) = rest s
  /\ exists v, _draftLOP (updateALat s) = Lop.set_aLat v (_draftLOP s) /\ within 89 v.
Proof.
  unfold updateALat.
  destruct (parseIntegerLatitude (value_of El.aLat s)) as [q|] eqn:E.
  - split; [reflexivity|]. eexists. split; [reflexivity|].
    apply (@within_parsed q 89).
    eapply parsed_magnitude_bounded; [|exact E]. unfold Qle; simpl; lia.
  - split; [reflexivity|]. eexists. split; [reflexivity|]. left. reflexivity.
Qed.

Lemma updateALon_draft s :
  rest (updateALon s) = rest s
  /\ exists v, _draftLOP (updateALon s) = Lop.set_aLon v (_draftLOP s) /\ within 180 v.
Proof.
  unfold updateALon.
  destruct (parseIntegerLongitude (value_of El.aLon s)) as [q|] eqn:E.
  - split; [reflexivity|]. eexists. split; [reflexivity|].
    apply (@within_parsed q 180).
    eapply parsed_magnitude_bounded; [|exact E]. unfold Qle; simpl; lia.
  - destruct (parseLongitude (value_of El.aLon s)) as [q|] eqn:E'.
    + split; [reflexivity|]. eexists. split; [reflexivity|].
      apply (@within_parsed q 180).
      eapply parsed_magnitude_bounded; [|exact E']. unfold Qle; simpl; lia.
    + split; [reflexivity|]. eexists. split; [reflexivity|]. left. reflexivity.
Qed.

Lemma button_complete s :
  addLOPBtn_disabled (dom (updateAddLOPButton s)) = false -> complete (_draftLOP s).
Proof.
  unfold updateAddLOPButton. proj. intros H.
  apply orb_false_iff in H. destruct H as [H H4].
  apply orb_false_iff in H. destruct H as [H H3].
  apply orb_false_iff in H. destruct H as [H1 H2].
  unfold complete.
  destruct (Lop.a (_draftLOP s)), (Lop.Zn (_draftLOP s)),
    (Lop.aLat (_draftLOP s)), (Lop.aLon (_draftLOP s)); try discriminate.
  repeat split; discriminate.
Qed.

Lemma plot_ok_refresh s s' :
  rest s' = rest s -> draft_in_range (_draftLOP s') -> plot_ok s ->
  plot_ok (updateAddLOPButton s').
Proof.
  intros E D [_ _ L C1 C2]. apply rest_eq in E. destruct E as (E1 & E2 & E3).
  split.
  - exact D.
  - apply button_complete.
  - change (Forall line_ok (_lops s')). rewrite E1. exact L.
  - change (within 89 (_ctrLat s')). rewrite E2. exact C1.
  - change (within 180 (_ctrLon s')). rewrite E3. exact C2.
Qed.

Lemma plot_ok_same s s' :
  rest s' = rest s -> _draftLOP s' = _draftLOP s ->
  addLOPBtn_disabled (dom s') = addLOPBtn_disabled (dom s) ->
  plot_ok s -> plot_ok s'.
Proof.
  intros E D B [H1 H2 H3 H4 H5]. apply rest_eq in E. destruct E as (E1 & E2 & E3).
  split; rewrite ?D, ?B, ?E1, ?E2, ?E3; assumption.
Qed.

Lemma plot_ok_updateA s : plot_ok s -> plot_ok (updateAddLOPButton (updateA s)).
Proof.
  intros H. destruct (updateA_draft s) as (E & v & D & V).
  apply plot_ok_refresh with (s := s); [exact E| |exact H].
  rewrite D. destruct H as [(Ha & Hz & Hla & Hlo) _ _ _ _].
  repeat split; assumption.
Qed.

Lemma plot_ok_updateZn s : plot_ok s -> plot_ok (updateAddLOPButton (updateZn s)).
Proof.
  intros H. destruct (updateZn_draft s) as (E & v & D & V).
  apply plot_ok_refresh with (s := s); [exact E| |exact H].
  rewrite D. destruct H as [(Ha & Hz & Hla & Hlo) _ _ _ _].
  repeat split; assumption.
Qed.

Lemma plot_ok_updateALat s : plot_ok s -> plot_ok (updateAddLOPButton (updateALat s)).
Proof.
  intros H. destruct (updateALat_draft s) as (E & v & D & V).
  apply plot_ok_refresh with (s := s); [exact E| |exact H].
  rewrite D. destruct H as [(Ha & Hz & Hla & Hlo) _ _ _ _].
  repeat split; assumption.
Qed.

Lemma plot_ok_updateALon s : plot_ok s -> plot_ok (updateAddLOPButton (updateALon s)).
Proof.
  intros H. destruct (updateALon_draft s) as (E & v & D & V).
  apply plot_ok_refresh with (s := s); [exact E| |exact H].
  rewrite D. destruct H as [(Ha & Hz & Hla & Hlo) _ _ _ _].
  repeat split; assumption.
Qed.

Lemma plot_ok_updateCenterLatitude s : plot_ok s -> plot_ok (updateCenterLatitude s).
Proof.
  intros [H1 H2 H3 H4 H5]. unfold updateCenterLatitude.
  destruct (parseIntegerLatitude (value_of El.ctrLat s)) as [q|] eqn:E.
  - split; try assumption.
    apply (@within_parsed q 89).
    eapply parsed_magnitude_bounded; [|exact E]. unfold Qle; simpl; lia.
  - split; assumption.
Qed.

Lemma plot_ok_updateCenterLongitude s : plot_ok s -> plot_ok (updateCenterLongitude s).
Proof.
  intros [H1 H2 H3 H4 H5]. unfold updateCenterLongitude.
  destruct (parseIntegerLongitude (value_of El.ctrLon s)) as [q|] eqn:E.
  - split; try assumption.
    apply (@within_parsed q 180).
    eapply parsed_magnitude_bounded; [|exact E]. unfold Qle; simpl; lia.
  - split; assumption.
Qed.

Lemma plot_ok_redraw s : plot_ok s -> plot_ok (redraw s).
Proof. intros [H1 H2 H3 H4 H5]. split; assumption. Qed.

Lemma plot_ok_addLOP s :
  plot_ok s -> addLOPBtn_disabled (dom s) = false -> plot_ok (addLOP s).
Proof.
  intros [H1 H2 H3 H4 H5] E. split; try assumption.
  - intros D. discriminate D.
  - change (Forall line_ok (_lops s ++ [_draftLOP s])).
    apply Forall_app. split; [exact H3|].
    constructor; [|constructor]. apply complete_line; [exact H1|exact (H2 E)].
Qed.

Lemma step_plot_ok ev s : plot_ok s -> plot_ok (step ev s).
Proof.
  intros H.
  destruct ev as [e text|v|e| |x y| |w h].
  - assert (H0 : plot_ok (set_value e text s)) by (destruct H; split; assumption).
    destruct e; unfold step, onchange.
    + apply plot_ok_updateCenterLatitude, H0.
    + apply plot_ok_updateCenterLongitude, H0.
    + apply plot_ok_updateA, H0.
    + apply plot_ok_updateZn, H0.
    + apply plot_ok_updateALat, H0.
    + apply plot_ok_updateALon, H0.
  - unfold step. apply plot_ok_updateA. destruct H; split; assumption.
  - destruct e; destruct H; split; assumption.
  - unfold step. destruct (addLOPBtn_disabled (dom s)) eqn:E; [exact H|].
    apply plot_ok_addLOP; assumption.
  - unfold step, updateCoordsDisplay. destruct (snap _ _ _); destruct H; split; assumption.
  - destruct H; split; assumption.
  - destruct H; split; assumption.
Qed.

Lemma draft_step (h : session -> session) s :
  (rest (h s) = rest s
   /\ exists v, (_draftLOP (h s) = Lop.set_a v (_draftLOP s) /\ finite_ok v)
                \/ (_draftLOP (h s) = Lop.set_Zn v (_draftLOP s) /\ azimuth_ok v)
                \/ (_draftLOP (h s) = Lop.set_aLat v (_draftLOP s) /\ within 89 v)
                \/ (_draftLOP (h s) = Lop.set_aLon v (_draftLOP s) /\ within 180 v)) ->
  draft_in_range (_draftLOP s) -> draft_in_range (_draftLOP (h s)) /\ rest (h s) = rest s.
Proof.
  intros (E & v & D) (Ha & Hz & Hla & Hlo). split; [|exact E].
  destruct D as [[-> V]|[[-> V]|[[-> V]|[-> V]]]]; repeat split; assumption.
Qed.

Lemma onload_plot_ok p : plot_ok (onload p).
Proof.
  unfold onload. cbv zeta.
  set (s0 := clearCoordsDisplay (boot p)).
  assert (D0 : draft_in_range (_draftLOP s0)) by (repeat split; left; reflexivity).
  destruct (@draft_step updateA s0) as [D1 R1]; [|exact D0|].
  { destruct (updateA_draft s0) as (E & v & D). split; [exact E|]. exists v. tauto. }
  destruct (@draft_step updateZn (updateA s0)) as [D2 R2]; [|exact D1|].
  { destruct (updateZn_draft (updateA s0)) as (E & v & D).
    split; [exact E|]. exists v. tauto. }
  destruct (@draft_step updateALat (updateZn (updateA s0))) as [D3 R3]; [|exact D2|].
  { destruct (updateALat_draft (updateZn (updateA s0))) as (E & v & D).
    split; [exact E|]. exists v. tauto. }
  destruct (@draft_step updateALon (updateALat (updateZn (updateA s0)))) as [D4 R4];
    [|exact D3|].
  { destruct (updateALon_draft (updateALat (updateZn (updateA s0)))) as (E & v & D).
    split; [exact E|]. exists v. tauto. }
  set (s4 := updateALon (updateALat (updateZn (updateA s0)))) in *.
  assert (R : rest s4 = rest s0) by (rewrite R4, R3, R2, R1; reflexivity).
  apply rest_eq in R. destruct R as (L & C1 & C2).
  assert (P : plot_ok (updateAddLOPButton s4)).
  { split.
    - exact D4.
    - apply button_complete.
    - change (Forall line_ok (_lops s4)). rewrite L. constructor.
    - change (within 89 (_ctrLat s4)). rewrite C1. left. reflexivity.
    - change (within 180 (_ctrLon s4)). rewrite C2. left. reflexivity. }
  apply plot_ok_updateCenterLatitude, plot_ok_updateCenterLongitude in P.
  apply plot_ok_redraw. exact P.
Qed.

Lemma reachable_plot_ok s : reachable s -> plot_ok s.
Proof.
  induction 1 as [p P|ev s R IH P]; [apply onload_plot_ok|apply step_plot_ok, IH].
Qed.

End Plot.

Section PlotTheorems.
Local Open Scope R_scope.





(** X11: the center of the sheet is either not yet read or a finite
    number, within 89 degrees for the latitude and 180 for the longitude. *)
Theorem center_is_in_range (s : session) :
  reachable s ->
  (forall c, _ctrLat s = Some c -> exists r, c = Fin r /\ Rabs r <= 89)
  /\ (forall c, _ctrLon s = Some c -> exists r, c = Fin r /\ Rabs r <= 180).
Proof.
  intros R. apply reachable_plot_ok in R. destruct R as [_ _ _ C1 C2].
  split; intros c E.
  - destruct C1 as [N|(r & E' & B)]; [congruence|].
    exists r. split; [congruence|exact B].
  - destruct C2 as [N|(r & E' & B)]; [congruence|].
    exists r. split; [congruence|exact B].
Qed.

Lemma center_is_in_range_witness :
  exists r, ofQ 0%Q = Fin r /\ Rabs r <= 89.
Proof.
  destruct onload_example as (R & (C & _) & _).
  destruct (center_is_in_range R) as [H _].
  exact (H (ofQ 0%Q) C).
Defined.

End PlotTheorems.

(** X12: no event removes, reorders or rewrites a line of position: after
    any event the lines are the lines before, followed by the draft when
    the Add button was clicked while enabled. *)
Theorem lines_are_never_removed (ev : event) (s : session) :
  _lops (step ev s)
  = _lops s ++ match ev with
               | ClickAdd => if addLOPBtn_disabled (dom s) then [] else [_draftLOP s]
               | _ => []
               end.
Proof.
  destruct ev as [e text|v|e| |x y| |w h]; rewrite ?app_nil_r.
  - destruct e; open_handlers; split_matches; reflexivity.
  - open_handlers; split_matches; reflexivity.
  - destruct e; reflexivity.
  - unfold step. destruct (addLOPBtn_disabled (dom s)); [rewrite app_nil_r|]; reflexivity.
  - open_handlers; split_matches; reflexivity.
  - reflexivity.
  - reflexivity.
Qed.

Section Flags.

Ltac flag_cases :=
  open_handlers; split_matches; proj;
  repeat match goal with
         | |- context [El.eqb ?a ?b] => destruct (El.eqb a b)
         end;
  cbn [flagged value]; auto.

(** X13: handlers never clear an error flag on their own: whatever is
    committed, accepted or refused, an input that is flagged stays flagged
    until a key is pressed. *)
Theorem flags_outlive_changes (ev : event) (f : El.t) (s : session) :
  (forall e, ev <> KeyDown e) ->
  flagged (inputs (dom s) f) = true ->
  flagged (inputs (dom (step ev s)) f) = true.
Proof.
  intros K H.
  destruct ev as [e text|v|e| |x y| |w h].
  - destruct e; revert H; flag_cases.
  - revert H; flag_cases.
  - exfalso. exact (K e eq_refl).
  - revert H; flag_cases.
  - revert H; flag_cases.
  - exact H.
  - exact H.
Qed.

(** X14: the key handler installed on the central longitude clears the
    flag of the central latitude, so that no event at all clears the flag
    of the central longitude: once refused, it stays flagged. *)
Theorem ctrLon_flag_is_never_cleared (ev : event) (s : session) :
  flagged (inputs (dom s) El.ctrLon) = true ->
  flagged (inputs (dom (step ev s)) El.ctrLon) = true
  /\ flagged (inputs (dom (step (KeyDown El.ctrLon) s)) El.ctrLat) = false.
Proof.
  intros H. split; [|reflexivity].
  destruct ev as [e text|v|e| |x y| |w h].
  - destruct e; revert H; flag_cases.
  - revert H; flag_cases.
  - destruct e; exact H.
  - revert H; flag_cases.
  - revert H; flag_cases.
  - exact H.
  - exact H.
Qed.

Lemma flags_outlive_changes_witness :
  let s := updateALat (set_value El.aLat (lit "95 N") (onload example_page)) in
  flagged (inputs (dom (step (Change El.aLat (lit "35 N")) s)) El.aLat) = true.
Proof.
  intros s.
  apply (@flags_outlive_changes (Change El.aLat (lit "35 N")) El.aLat s).
  - intros e. discriminate.
  - vm_compute. reflexivity.
Defined.

Lemma ctrLon_flag_is_never_cleared_witness :
  let s := step (Change El.ctrLon (lit "200")) (onload example_page) in
  flagged (inputs (dom (step (KeyDown El.ctrLon) s)) El.ctrLon) = true
  /\ flagged (inputs (dom (step (KeyDown El.ctrLon) s)) El.ctrLat) = false.
Proof.
  intros s.
  apply (@ctrLon_flag_is_never_cleared (KeyDown El.ctrLon) s).
  vm_compute. reflexivity.
Defined.

End Flags.

Section DirectionChange.
Local Open Scope Q_scope.

(** X15: a change of the Toward/Away select reads the distance again, from
    the text the field now shows.  The distance first stored is the number
    typed; after a change of direction it is that number rounded to the
    tenth of a mile the field displays, with the sign of the new
    direction. *)
Theorem direction_change_rereads_the_distance (s : session) (q : Q) (v : jsstring) :
  A_reads (value_of El.a s) q = true -> 0 <= q -> q < 99995 # 100 ->
  let typed := updateA s in
  let changed := step (ChangeDir v) typed in
  let shown := Qred (Z.of_N (distance_tenths q) # 10) in
  Lop.a (_draftLOP typed)
  = Some (if JsString.eqb (aDir (dom s)) [84%N] then ofQ q else nneg (ofQ q))
  /\ value_of El.a typed = formatDistance q
  /\ Lop.a (_draftLOP changed)
     = Some (if JsString.eqb v [84%N] then ofQ shown else nneg (ofQ shown))
  /\ value_of El.a changed = formatDistance q.
Proof.
  intros H H0 H1 typed changed shown. subst typed changed shown.
  rewrite updateA_reads with (q := q) by exact H. cbv zeta.
  split; [reflexivity|]. split; [rewrite value_of_set_draft; apply value_of_set_value|].
  unfold step.
  set (s1 := set_dom _ _).
  assert (V : value_of El.a s1 = formatDistance q).
  { unfold s1. unfold value_of. cbn [dom set_dom set_aDir inputs set_draft].
    apply (value_of_set_value El.a (formatDistance q) s). }
  assert (R : A_reads (value_of El.a s1) (Qred (Z.of_N (distance_tenths q) # 10)) = true).
  { rewrite V, formatDistance_parts by exact H0.
    apply rendered_distance_reads, distance_tenths_lt; assumption. }
  rewrite updateA_reads with (q := Qred (Z.of_N (distance_tenths q) # 10)) by exact R. cbv zeta.
  split; [reflexivity|].
  unfold updateAddLOPButton.
  change (value_of El.a (set_value El.a
            (formatDistance (Qred (Z.of_N (distance_tenths q) # 10))) s1)
          = formatDistance q).
  rewrite value_of_set_value.
  rewrite (@formatDistance_parts (Qred _))
    by (rewrite Qred_correct; unfold Qle; cbn [Qnum Qden]; lia).
  rewrite distance_tenths_of_tenths. symmetry. apply formatDistance_parts, H0.
Qed.

Lemma direction_change_rereads_the_distance_witness :
  let s := set_value El.a (lit "12.34") (onload example_page) in
  Lop.a (_draftLOP (updateA s)) = Some (ofQ (617 # 50))
  /\ Lop.a (_draftLOP (step (ChangeDir (lit "A")) (updateA s)))
     = Some (nneg (ofQ (123 # 10))).
Proof.
  intros s.
  destruct (@direction_change_rereads_the_distance s (617 # 50) (lit "A"))
    as (H1 & _ & H3 & _).
  - vm_compute. reflexivity.
  - unfold Qle; simpl; lia.
  - unfold Qlt; simpl; lia.
  - split; [exact H1|exact H3].
Defined.

End DirectionChange.

Section BlankPage.

Lemma updateA_blank s :
  forallb is_space (value_of El.a s) = true ->
  updateA s = set_draft (Lop.set_a (Some (Fin 0%R)) (_draftLOP s)) s.
Proof. intros H. unfold updateA. rewrite (trim_blank _ H). reflexivity. Qed.

Lemma updateZn_blank s :
  forallb is_space (value_of El.Zn s) = true ->
  updateZn s = set_draft (Lop.set_Zn (Some (Fin 0%R)) (_draftLOP s)) s.
Proof. intros H. unfold updateZn. rewrite (trim_blank _ H). reflexivity. Qed.

Lemma updateALat_blank s :
  forallb is_space (value_of El.aLat s) = true ->
  updateALat s
  = set_value El.aLat (formatIntegerLatitude 0%Q)
      (set_draft (Lop.set_aLat (Some (ofQ 0%Q)) (_draftLOP s)) s).
Proof.
  intros H. unfold updateALat, parseIntegerLatitude.
  rewrite parse_blank by exact H. reflexivity.
Qed.

Lemma updateALon_blank s :
  forallb is_space (value_of El.aLon s) = true ->
  updateALon s
  = set_value El.aLon (formatLongitude 0%Q)
      (set_draft (Lop.set_aLon (Some (ofQ 0%Q)) (_draftLOP s)) s).
Proof.
  intros H. unfold updateALon, parseIntegerLongitude.
  rewrite parse_blank by exact H. reflexivity.
Qed.

Lemma updateCenterLatitude_blank s :
  forallb is_space (value_of El.ctrLat s) = true ->
  updateCenterLatitude s
  = redraw (set_ctrLat (Some (ofQ 0%Q))
              (set_value El.ctrLat (formatIntegerLatitude 0%Q) s)).
Proof.
  intros H. unfold updateCenterLatitude, parseIntegerLatitude.
  rewrite parse_blank by exact H. reflexivity.
Qed.

Lemma updateCenterLongitude_blank s :
  forallb is_space (value_of El.ctrLon s) = true ->
  updateCenterLongitude s
  = redraw (set_ctrLon (Some (ofQ 0%Q))
              (set_value El.ctrLon (formatIntegerLongitude 0%Q) s)).
Proof.
  intros H. unfold updateCenterLongitude, parseIntegerLongitude.
  rewrite parse_blank by exact H. reflexivity.
Qed.

(** X16: a page loaded with blank fields starts at zero: the draft is the
    line of distance 0 and azimuth 0 from (0, 0), the Add button is
    enabled, the center is (0, 0); the fields of the latitudes and
    longitudes are rewritten to their canonical zero, the fields of the
    distance and the azimuth are left as they were. *)
Theorem blank_page_loads_at_zero (p : page) :
  (forall e, forallb is_space (value (inputs p e)) = true) ->
  let s := onload p in
  _draftLOP s = {| Lop.a := Some (Fin 0%R); Lop.Zn := Some (Fin 0%R);
                   Lop.aLat := Some (ofQ 0%Q); Lop.aLon := Some (ofQ 0%Q) |}
  /\ addLOPBtn_disabled (dom s) = false
  /\ _ctrLat s = Some (ofQ 0%Q) /\ _ctrLon s = Some (ofQ 0%Q)
  /\ _lops s = []
  /\ value_of El.a s = value (inputs p El.a)
  /\ value_of El.Zn s = value (inputs p El.Zn)
  /\ value_of El.aLat s = formatIntegerLatitude 0%Q
  /\ value_of El.aLon s = formatLongitude 0%Q
  /\ value_of El.ctrLat s = formatIntegerLatitude 0%Q
  /\ value_of El.ctrLon s = formatIntegerLongitude 0%Q
  /\ (forall e, flagged (inputs (dom s) e) = flagged (inputs p e)).
Proof.
  intros B s. subst s. unfold onload. cbv zeta.
  rewrite (@updateA_blank (clearCoordsDisplay (boot p))) by apply (B El.a).
  rewrite updateZn_blank by apply (B El.Zn).
  rewrite updateALat_blank by apply (B El.aLat).
  rewrite updateALon_blank by apply (B El.aLon).
  rewrite updateCenterLatitude_blank by apply (B El.ctrLat).
  rewrite updateCenterLongitude_blank by apply (B El.ctrLon).
  repeat (split; [reflexivity|]).
  intros e. destruct e; reflexivity.
Qed.

Lemma blank_page_loads_at_zero_witness :
  addLOPBtn_disabled (dom (onload example_page)) = false
  /\ value_of El.aLon (onload example_page) = formatLongitude 0%Q.
Proof.
  destruct (@blank_page_loads_at_zero example_page) as (_ & H2 & _ & _ & _ & _ & _ & _ & H9 & _).
  - intros e. reflexivity.
  - split; [exact H2|exact H9].
Defined.

End BlankPage.

(* ================================================================== *)
(** ** The geometry *)

Section Rhumb.
Local Open Scope R_scope.

(** X17: [rhumbPoint] along the meridian and along the parallel.  A
    distance due north adds one minute of latitude to the mile and leaves
    the longitude alone; a distance due east leaves the latitude alone and
    adds one minute of longitude to the mile, divided by the cosine of the
    latitude; a distance of zero is no move. *)
Theorem rhumbPoint_cardinal (lat lon a Zn : R) :
  Rabs lat < 90 ->
  rhumbPoint (Fin lat) (Fin lon) (Fin 0) (Fin a)
  = {| Geo.lat := Fin (lat + a / 60); Geo.lon := Fin lon |}
  /\ rhumbPoint (Fin lat) (Fin lon) (Fin (PI / 2)) (Fin a)
     = {| Geo.lat := Fin lat;
          Geo.lon := Fin (lon + a / (60 * cos (lat / 180 * PI))) |}
  /\ rhumbPoint (Fin lat) (Fin lon) (Fin Zn) (Fin 0)
     = {| Geo.lat := Fin lat; Geo.lon := Fin lon |}.
Proof.
  intros H. pose proof (@cos_latitude _ H) as Hc.
  rewrite !rhumbPoint_fin by exact Hc.
  rewrite cos_0, sin_0, cos_PI2, sin_PI2.
  repeat split; apply f_equal2; apply (f_equal Fin); field; exact Hc.
Qed.

Lemma rhumbPoint_cardinal_witness :
  rhumbPoint (Fin 35) (Fin (-145)) (Fin 0) (Fin 30)
  = {| Geo.lat := Fin (35 + 30 / 60); Geo.lon := Fin (-145) |}.
Proof.
  exact (proj1 (@rhumbPoint_cardinal 35 (-145) 30 0 Rabs_35)).
Defined.

(** X18: going a distance along an azimuth and the same distance back
    brings the latitude back, but not the longitude: the way back is
    scaled by the cosine of the latitude reached. *)
Theorem rhumbPoint_there_and_back (lat lon Zn a : R) :
  Rabs lat < 90 -> Rabs (lat + cos Zn * a / 60) < 90 ->
  let there := rhumbPoint (Fin lat) (Fin lon) (Fin Zn) (Fin a) in
  let back := rhumbPoint (Geo.lat there) (Geo.lon there) (Fin Zn) (Fin (- a)) in
  Geo.lat back = Fin lat
  /\ Geo.lon back
     = Fin (lon + sin Zn * a / 60
                  * (1 / cos (lat / 180 * PI)
                     - 1 / cos ((lat + cos Zn * a / 60) / 180 * PI))).
Proof.
  intros H H' there back. subst back there.
  pose proof (@cos_latitude _ H) as Hc. pose proof (@cos_latitude _ H') as Hc'.
  rewrite rhumbPoint_fin by exact Hc. cbn [Geo.lat Geo.lon].
  rewrite rhumbPoint_fin by exact Hc'. cbn [Geo.lat Geo.lon].
  split; apply (f_equal Fin); field; auto.
Qed.

Lemma rhumbPoint_there_and_back_witness :
  Geo.lat (rhumbPoint
             (Geo.lat (rhumbPoint (Fin 35) (Fin (-145)) (Fin 0) (Fin 30)))
             (Geo.lon (rhumbPoint (Fin 35) (Fin (-145)) (Fin 0) (Fin 30)))
             (Fin 0) (Fin (Ropp 30)))
  = Fin 35.
Proof.
  refine (proj1 (@rhumbPoint_there_and_back 35 (-145) 0 30 Rabs_35 _)).
  rewrite cos_0. unfold Rabs. destruct (Rcase_abs (35 + 1 * 30 / 60)); lra.
Defined.

End Rhumb.

Section Fit.
Local Open Scope R_scope.



(** X20: a line of position at the distance zero (an empty distance field
    is read as zero) has no fitted line: its two auxiliary points are the
    assumed position itself, both coefficients are NaN, and it gives no
    intersection with any line whatever. *)
Theorem zero_distance_never_intersects (Zn lat lon : R) (s : session) (c : Coeff.t) :
  Rabs lat < 90 ->
  coeffs (fix_line 0 Zn lat lon) = {| Coeff.m := NaN; Coeff.b := NaN |}
  /\ intersect s (coeffs (fix_line 0 Zn lat lon)) c = None
  /\ intersect s c (coeffs (fix_line 0 Zn lat lon)) = None.
Proof.
  intros H. pose proof (@cos_latitude _ H) as Hc.
  assert (E : coeffs (fix_line 0 Zn lat lon) = {| Coeff.m := NaN; Coeff.b := NaN |}).
  { rewrite coeffs_fin by exact Hc. cbv zeta.
    rewrite aux_lat_diff, aux_lon_diff by exact Hc.
    unfold ndiv. rewrite !is_zero_true by ring. reflexivity. }
  rewrite E. split; [reflexivity|].
  unfold intersect. cbn [Coeff.m Coeff.b nsub nadd nneg].
  rewrite !nadd_nan_r, ?ndiv_nan. cbn [ndiv isNaN].
  split; reflexivity.
Qed.

Lemma zero_distance_never_intersects_witness :
  intersect (onload example_page) (coeffs (fix_line 0 (PI / 4) 0 0)) (coeffs cross_lop1)
  = None.
Proof.
  refine (proj1 (proj2 (@zero_distance_never_intersects (PI / 4) 0 0
                          (onload example_page) (coeffs cross_lop1) _))).
  unfold Rabs. destruct (Rcase_abs 0); lra.
Defined.

End Fit.


Section Intersections.
Local Open Scope R_scope.


Lemma example_crossing :
  exists p,
    intersect (setCanvasDimensions (onload example_page))
              {| Coeff.m := Fin (-1); Coeff.b := Fin k45 |}
              {| Coeff.m := Fin (- (1 / 2)); Coeff.b := Fin k45 |} = Some p
    /\ Ix.lon p = Fin (0 / (-1 + - - (1 / 2)))
    /\ Ix.x p = Fin (1000 / 2 + (0 / (-1 + - - (1 / 2)) + - 0) * 200 + - (1000 / 2))
    /\ Ix.y p = Fin (880 / 2 + (0 + - (-1 * (0 / (-1 + - - (1 / 2))) + k45)) * 200
                     + - (880 / 2)).
Proof.
  assert (S : on_example_sheet (onload example_page))
    by (unfold on_example_sheet; repeat split; vm_compute; reflexivity).
  pose proof (cross_on_example_sheet S) as E.
  unfold all_intersections in E.
  cbn [map List.length seq Nat.sub flat_map nth app] in E.
  rewrite cross_coeffs1, cross_coeffs2 in E.
  destruct (intersect (setCanvasDimensions (onload example_page))
              {| Coeff.m := Fin (-1); Coeff.b := Fin k45 |}
              {| Coeff.m := Fin (- (1 / 2)); Coeff.b := Fin k45 |}) as [p|];
    [|discriminate E].
  injection E as E. exists p. rewrite E. repeat split; reflexivity.
Qed.


(** X22: an intersection is kept only when it projects onto the sheet:
    its pixel coordinates, counted from the center of the sheet, are within
    half the width and half the height. *)
Theorem intersections_are_on_the_sheet (s : session) (ci cj : Coeff.t) (p : Ix.t)
        (w h x y : R) :
  intersect s ci cj = Some p ->
  _sheetSize s = {| width := Fin w; height := Fin h |} ->
  Ix.x p = Fin x -> Ix.y p = Fin y ->
  - (w / 2) <= x <= w / 2 /\ - (h / 2) <= y <= h / 2.
Proof.
  unfold intersect. intros E S. cbv zeta in E.
  destruct (isNaN _); [discriminate|].
  destruct (isNaN _); [discriminate|].
  remember (project s _ _) as pt eqn:Ept in E. clear Ept.
  rewrite S in E. cbn [width height] in E. rewrite !ndiv_fin in E by lra.
  destruct (_ || _) eqn:T; [discriminate|].
  injection E as <-. cbn [Ix.x Ix.y].
  apply orb_false_iff in T. destruct T as [T T4].
  apply orb_false_iff in T. destruct T as [T T3].
  apply orb_false_iff in T. destruct T as [T1 T2].
  destruct (Pt.x pt) as [|sx|px]; cbn [nsub nneg nadd];
    try (intros X; discriminate X).
  destruct (Pt.y pt) as [|sy|py]; cbn [nsub nneg nadd];
    try (intros _ Y; discriminate Y).
  intros X Y. injection X as X. injection Y as Y. subst x y.
  unfold ngt in *. apply nlt_fin_false in T1, T2, T3, T4. lra.
Qed.

Lemma intersections_are_on_the_sheet_witness :
  - (1000 / 2) <= 1000 / 2 + (0 / (-1 + - - (1 / 2)) + - 0) * 200 + - (1000 / 2)
  <= 1000 / 2.
Proof.
  destruct example_crossing as (p & I & _ & X & Y).
  assert (S : on_example_sheet (onload example_page))
    by (unfold on_example_sheet; repeat split; vm_compute; reflexivity).
  destruct (example_sheet_frame S) as (F & _).
  exact (proj1 (intersections_are_on_the_sheet _ _ _ I F X Y)).
Defined.

End Intersections.

Section Fresh.

(** ** The intersections follow the lines and the frame *)

Lemma intersect_frame s s' ci cj :
  _sheetSize s' = _sheetSize s -> _ctrLat s' = _ctrLat s -> _ctrLon s' = _ctrLon s ->
  _latScale s' = _latScale s -> _lonScale s' = _lonScale s ->
  intersect s' ci cj = intersect s ci cj.
Proof.
  intros E1 E2 E3 E4 E5. unfold intersect, project.
  rewrite E1, E2, E3, E4, E5. reflexivity.
Qed.

Lemma all_intersections_frame s s' lops :
  _sheetSize s' = _sheetSize s -> _ctrLat s' = _ctrLat s -> _ctrLon s' = _ctrLon s ->
  _latScale s' = _latScale s -> _lonScale s' = _lonScale s ->
  all_intersections s' lops = all_intersections s lops.
Proof.
  intros E1 E2 E3 E4 E5. unfold all_intersections.
  apply flat_map_ext. intros i. apply flat_map_ext. intros j.
  rewrite (@intersect_frame s s' _ _ E1 E2 E3 E4 E5). reflexivity.
Qed.

Definition fresh (s : session) : Prop :=
  _intersections s = all_intersections s (_lops s).

Lemma redraw_fresh s : fresh (redraw s).
Proof.
  unfold fresh. rewrite intersections_redraw.
  symmetry. apply all_intersections_frame; reflexivity.
Qed.

(** What the intersections are made of. *)
Definition sheet_view (s : session) :=
  (_sheetSize s, _ctrLat s, _ctrLon s, _latScale s, _lonScale s, _lops s,
   _intersections s).

Lemma sheet_view_eq s s' :
  sheet_view s' = sheet_view s ->
  _sheetSize s' = _sheetSize s /\ _ctrLat s' = _ctrLat s /\ _ctrLon s' = _ctrLon s
  /\ _latScale s' = _latScale s /\ _lonScale s' = _lonScale s
  /\ _lops s' = _lops s /\ _intersections s' = _intersections s.
Proof.
  unfold sheet_view.
  generalize (_sheetSize s'), (_sheetSize s), (_ctrLat s'), (_ctrLat s),
    (_ctrLon s'), (_ctrLon s), (_latScale s'), (_latScale s),
    (_lonScale s'), (_lonScale s), (_lops s'), (_lops s),
    (_intersections s'), (_intersections s).
  intros ? ? ? ? ? ? ? ? ? ? ? ? ? ? E. injection E as E1 E2 E3 E4 E5 E6 E7.
  repeat split; assumption.
Qed.

Lemma fresh_view s s' : sheet_view s' = sheet_view s -> fresh s -> fresh s'.
Proof.
  intros E F. apply sheet_view_eq in E.
  destruct E as (E1 & E2 & E3 & E4 & E5 & E6 & E7).
  unfold fresh. rewrite E7, E6, F.
  symmetry. apply all_intersections_frame; assumption.
Qed.

Lemma step_fresh ev s : fresh s -> fresh (step ev s).
Proof.
  intros F.
  destruct ev as [e text|v|e| |x y| |w h].
  - assert (F0 : fresh (set_value e text s)) by exact F.
    destruct e; unfold step, onchange.
    + unfold updateCenterLatitude.
      destruct (parseIntegerLatitude _); [apply redraw_fresh|exact F0].
    + unfold updateCenterLongitude.
      destruct (parseIntegerLongitude _); [apply redraw_fresh|exact F0].
    + apply fresh_view with (s := set_value El.a text s); [|exact F0].
      open_handlers; split_matches; reflexivity.
    + apply fresh_view with (s := set_value El.Zn text s); [|exact F0].
      open_handlers; split_matches; reflexivity.
    + apply fresh_view with (s := set_value El.aLat text s); [|exact F0].
      open_handlers; split_matches; reflexivity.
    + apply fresh_view with (s := set_value El.aLon text s); [|exact F0].
      open_handlers; split_matches; reflexivity.
  - apply fresh_view with (s := s); [|exact F].
    open_handlers; split_matches; reflexivity.
  - destruct e; exact F.
  - unfold step. destruct (addLOPBtn_disabled (dom s)); [exact F|].
    apply redraw_fresh.
  - apply fresh_view with (s := s); [|exact F].
    open_handlers; split_matches; reflexivity.
  - exact F.
  - apply redraw_fresh.
Qed.

(** X23: the intersections are never stale: in every session the page
    can reach they are the intersections of the lines now on the sheet,
    computed on the frame the sheet now has. *)
Theorem intersections_are_never_stale (s : session) :
  reachable s -> _intersections s = all_intersections s (_lops s).
Proof.
  induction 1 as [p P|ev s R IH P]; [apply redraw_fresh|apply step_fresh, IH].
Qed.

Lemma intersections_are_never_stale_witness :
  _intersections cross_session = all_intersections cross_session (_lops cross_session).
Proof.
  exact (intersections_are_never_stale cross_reachable).
Defined.

End Fresh.

Section Sheet.
Local Open Scope R_scope.

Variable s : session.
Variables w h cla clo ls lns : R.
Hypothesis sheet : _sheetSize s = {| width := Fin w; height := Fin h |}.
Hypothesis center_lat : _ctrLat s = Some (Fin cla).
Hypothesis center_lon : _ctrLon s = Some (Fin clo).
Hypothesis scale_lat : _latScale s = Fin ls.
Hypothesis scale_lon : _lonScale s = Fin lns.

Lemma project_fin lat lon :
  project s (Fin lat) (Fin lon)
  = {| Pt.x := Fin (w / 2 + (lon + - clo) * lns);
       Pt.y := Fin (h / 2 + (cla + - lat) * ls) |}.
Proof.
  unfold project. rewrite sheet, center_lat, center_lon, scale_lat, scale_lon.
  cbn [width height toNum nsub nneg nadd nmul].
  rewrite !ndiv_fin by lra. reflexivity.
Qed.

(** The readout for a pointer with no intersection within ten pixels. *)
Lemma raw_readout ex ey :
  ls <> 0 -> lns <> 0 ->
  let x := nsub (nsub (ofZ ex) (ofZ (sheet_offsetLeft (dom s))))
                (ndiv (width (_sheetSize s)) (Fin 2)) in
  let y := nsub (nsub (ofZ ey) (ofZ (sheet_offsetTop (dom s))))
                (ndiv (height (_sheetSize s)) (Fin 2)) in
  filter (near x y) (_intersections s) = [] ->
  exists lat lon,
    coords (dom (updateCoordsDisplay ex ey s)) = Some (Fin lat, Fin lon)
    /\ coords_snapped (dom (updateCoordsDisplay ex ey s)) = false
    /\ project s (Fin lat) (Fin lon)
       = {| Pt.x := Fin (IZR ex - IZR (sheet_offsetLeft (dom s)));
            Pt.y := Fin (IZR ey - IZR (sheet_offsetTop (dom s))) |}.
Proof.
  intros Hls Hlns x y F.
  destruct (readout_raw ex ey s F) as [C N]. fold x y in C.
  unfold x, y in C. rewrite sheet, scale_lat, scale_lon, center_lat, center_lon in C.
  unfold ofZ in C. cbn [width height toNum nsub nneg nadd] in C.
  rewrite !ndiv_fin in C by lra. cbn [nsub nneg nadd] in C.
  rewrite !ndiv_fin in C by assumption. cbn [nadd] in C.
  do 2 eexists. split; [exact C|]. split; [exact N|].
  rewrite project_fin. apply f_equal2; apply (f_equal Fin); field; assumption.
Qed.

End Sheet.

Section RawReadout.
Local Open Scope R_scope.

(** X24: with no intersection within ten pixels of the pointer, the
    readout is not snapped, and the position it shows is the one that
    [project] puts under the pointer. *)
Theorem raw_readout_is_under_the_pointer (s : session) (w h cla clo ls lns : R)
        (ex ey : Z) :
  _sheetSize s = {| width := Fin w; height := Fin h |} ->
  _ctrLat s = Some (Fin cla) -> _ctrLon s = Some (Fin clo) ->
  _latScale s = Fin ls -> _lonScale s = Fin lns -> ls <> 0 -> lns <> 0 ->
  filter (near (nsub (nsub (ofZ ex) (ofZ (sheet_offsetLeft (dom s))))
                     (ndiv (width (_sheetSize s)) (Fin 2)))
               (nsub (nsub (ofZ ey) (ofZ (sheet_offsetTop (dom s))))
                     (ndiv (height (_sheetSize s)) (Fin 2))))
         (_intersections s) = [] ->
  exists lat lon,
    coords (dom (step (MouseMove ex ey) s)) = Some (Fin lat, Fin lon)
    /\ coords_snapped (dom (step (MouseMove ex ey) s)) = false
    /\ project s (Fin lat) (Fin lon)
       = {| Pt.x := Fin (IZR ex - IZR (sheet_offsetLeft (dom s)));
            Pt.y := Fin (IZR ey - IZR (sheet_offsetTop (dom s))) |}.
Proof.
  intros S C1 C2 L1 L2 N1 N2 F.
  exact (@raw_readout s w h cla clo ls lns S C1 C2 L1 L2 ex ey N1 N2 F).
Qed.

Lemma raw_readout_is_under_the_pointer_witness :
  exists lat lon,
    coords (dom (step (MouseMove 700 300) (onload example_page)))
    = Some (Fin lat, Fin lon)
    /\ coords_snapped (dom (step (MouseMove 700 300) (onload example_page))) = false
    /\ project (onload example_page) (Fin lat) (Fin lon)
       = {| Pt.x := Fin (IZR 700 - IZR (sheet_offsetLeft (dom (onload example_page))));
            Pt.y := Fin (IZR 300 - IZR (sheet_offsetTop (dom (onload example_page)))) |}.
Proof.
  destruct onload_example as (_ & (C1 & C2 & _) & S & L1 & L2).
  apply (@raw_readout_is_under_the_pointer (onload example_page)
           1000 880 (Q2R 0) (Q2R 0) 200 200 700 300);
    try assumption; try lra.
  reflexivity.
Defined.

End RawReadout.

Section Snap.
Local Open Scope R_scope.

(** X25: the readout snaps to the last intersection of the list that is
    within ten pixels of the pointer, whatever its distance, and is not
    snapped when there is none: the loop of [updateCoordsDisplay] never
    lowers its bound. *)
Theorem readout_snaps_to_the_last_in_range (ex ey : Z) (s : session) :
  let x := nsub (nsub (ofZ ex) (ofZ (sheet_offsetLeft (dom s))))
                (ndiv (width (_sheetSize s)) (Fin 2)) in
  let y := nsub (nsub (ofZ ey) (ofZ (sheet_offsetTop (dom s))))
                (ndiv (height (_sheetSize s)) (Fin 2)) in
  let shown (x y : num) :=
    Some (nadd (ndiv (nneg y) (_latScale s)) (toNum (_ctrLat s)),
          nadd (ndiv x (_lonScale s)) (toNum (_ctrLon s))) in
  match rev (filter (fun i => negb (ngt (dSqrd x y i) (Fin 100))) (_intersections s)) with
  | i :: _ =>
      coords (dom (step (MouseMove ex ey) s)) = shown (Ix.x i) (Ix.y i)
      /\ coords_snapped (dom (step (MouseMove ex ey) s)) = true
  | [] =>
      coords (dom (step (MouseMove ex ey) s)) = shown x y
      /\ coords_snapped (dom (step (MouseMove ex ey) s)) = false
  end.
Proof.
  intros x y shown. unfold step, updateCoordsDisplay. fold x y.
  rewrite snap_last. fold (near x y).
  destruct (rev (filter (near x y) (_intersections s))) as [|i l];
    cbn [hd_error]; split; reflexivity.
Qed.

(** X26: when the readout snaps to an intersection, the position it shows,
    worked out again from the pixels of the intersection, is the latitude
    and the longitude the engine solved for. *)
Theorem snapped_readout_is_the_intersection
        (s : session) (w h cla clo ls lns la lo : R) (ci cj : Coeff.t) (i : Ix.t)
        (ex ey : Z) :
  _sheetSize s = {| width := Fin w; height := Fin h |} ->
  _ctrLat s = Some (Fin cla) -> _ctrLon s = Some (Fin clo) ->
  _latScale s = Fin ls -> _lonScale s = Fin lns -> ls <> 0 -> lns <> 0 ->
  intersect s ci cj = Some i -> Ix.lat i = Fin la -> Ix.lon i = Fin lo ->
  snap (nsub (nsub (ofZ ex) (ofZ (sheet_offsetLeft (dom s))))
             (ndiv (width (_sheetSize s)) (Fin 2)))
       (nsub (nsub (ofZ ey) (ofZ (sheet_offsetTop (dom s))))
             (ndiv (height (_sheetSize s)) (Fin 2)))
       (_intersections s) = Some i ->
  coords (dom (step (MouseMove ex ey) s)) = Some (Fin la, Fin lo)
  /\ coords_snapped (dom (step (MouseMove ex ey) s)) = true.
Proof.
  intros S C1 C2 L1 L2 N1 N2 E La Lo Sn.
  unfold step, updateCoordsDisplay. rewrite Sn.
  cbn [set_dom set_coords dom coords coords_snapped].
  split; [|reflexivity].
  unfold intersect in E. cbv zeta in E.
  destruct (isNaN _); [discriminate|].
  destruct (isNaN _); [discriminate|].
  destruct (_ || _); [discriminate|].
  injection E as <-. cbn [Ix.lat Ix.lon] in La, Lo. cbn [Ix.x Ix.y].
  rewrite La, Lo.
  rewrite S, C1, C2, L1, L2. cbn [Pt.x Pt.y width height toNum].
  rewrite !ndiv_fin by lra. cbn [nsub nneg nadd nmul].
  rewrite !ndiv_fin by assumption. cbn [nadd].
  f_equal. apply f_equal2; apply (f_equal Fin); field; assumption.
Qed.

Lemma hat_corner :
  intersect hat_session {| Coeff.m := Fin (-1); Coeff.b := Fin k45 |}
                        {| Coeff.m := Fin 1; Coeff.b := Fin k45 |}
  = Some hat_i23.
Proof.
  destruct hat_frame as (F1 & F2 & F3 & F4 & F5).
  pose proof k45_bounds as [KL _]. pose proof k45_upper as KU.
  rewrite (@intersect_fin _ _ _ _ _ _ _ F1 F2 F3 F4 F5 (- 1) k45 1 k45);
    [|lra|replace (k45 + - k45) with 0 by lra; split; nra
     |replace (k45 + - k45) with 0 by lra; split; nra].
  unfold hat_i23. f_equal. apply (f_equal4 Ix.Build_t); apply (f_equal Fin); field.
Qed.

Lemma snapped_readout_is_the_intersection_witness :
  coords (dom (step (MouseMove 495 490) hat_session)) = Some (Fin k45, Fin 0)
  /\ coords_snapped (dom (step (MouseMove 495 490) hat_session)) = true.
Proof.
  destruct hat_frame as (F1 & F2 & F3 & F4 & F5).
  apply (@snapped_readout_is_the_intersection hat_session 1000 880 0 0 200 200
           k45 0 {| Coeff.m := Fin (-1); Coeff.b := Fin k45 |}
           {| Coeff.m := Fin 1; Coeff.b := Fin k45 |} hat_i23 495 490 F1 F2 F3 F4 F5);
    [lra|lra|exact hat_corner|reflexivity|reflexivity|].
  destruct hat_pointer as [-> ->].
  destruct hat_near as (N1 & N2 & N3).
  rewrite hat_intersections, snap_last. cbn [filter].
  rewrite N1, N2, N3. reflexivity.
Defined.

End Snap.

Section Grid.
Local Open Scope R_scope.

(** The frame [setCanvasDimensions] writes when the central latitude has
    been read. *)
Lemma frame_fin s c :
  _ctrLat s = Some (Fin c) ->
  let hgt := IZR (innerHeight (dom s) - header_clientHeight (dom s)
                  - footer_clientHeight (dom s)) in
  _sheetSize (setCanvasDimensions s)
  = {| width := Fin (IZR (innerWidth (dom s))); height := Fin hgt |}
  /\ _latScale (setCanvasDimensions s) = Fin ((hgt + - 80) / 4)
  /\ _lonScale (setCanvasDimensions s)
     = Fin ((hgt + - 80) / 4 * cos (c / 180 * PI))
  /\ _ctrLat (setCanvasDimensions s) = Some (Fin c)
  /\ _ctrLon (setCanvasDimensions s) = _ctrLon s.
Proof.
  intros C hgt. unfold setCanvasDimensions.
  cbn [set_frame _sheetSize _latScale _lonScale _ctrLat _ctrLon height].
  rewrite C. unfold ofZ. cbn [toNum nsub nneg nadd].
  rewrite radians_fin, ndiv_fin by lra. cbn [ncos nmul].
  repeat split; reflexivity.
Qed.

(** X27: the frame always shows two degrees of latitude either side of
    the central latitude, with a margin of 40 pixels: the five parallels
    are drawn where [project] puts the latitudes c+2, c+1, c, c-1 and c-2,
    the first 40 pixels below the top of the sheet and the last 40 pixels
    above its bottom. *)
Theorem parallels_leave_a_margin (s : session) (c : R) (lon : num) :
  _ctrLat s = Some (Fin c) ->
  let f := setCanvasDimensions s in
  let hgt := IZR (innerHeight (dom s) - header_clientHeight (dom s)
                  - footer_clientHeight (dom s)) in
  parallels f
  = map (fun d => Pt.y (project f (Fin (c + IZR d)) lon)) [-2; -1; 0; 1; 2]%Z
  /\ nth 4 (parallels f) NaN = Fin 40
  /\ nth 0 (parallels f) NaN = Fin (hgt - 40).
Proof.
  intros C f hgt.
  destruct (frame_fin s C) as (F1 & F2 & F3 & F4 & F5). fold f hgt in F1, F2, F3, F4, F5.
  unfold parallels, project. rewrite F1, F2, F4.
  cbn [map height toNum nsub nneg nadd nmul ofZ].
  unfold ofZ. cbn [nmul nneg nadd].
  rewrite !ndiv_fin by lra. cbn [nadd nth].
  split; [|split].
  - repeat (apply f_equal2; [apply (f_equal Fin); simpl; field|]). reflexivity.
  - apply (f_equal Fin). simpl. field.
  - apply (f_equal Fin). simpl. field.
Qed.

Lemma parallels_leave_a_margin_witness :
  nth 4 (parallels (setCanvasDimensions (onload example_page))) NaN = Fin 40.
Proof.
  destruct onload_example as (_ & (C & _) & _).
  exact (proj1 (proj2 (@parallels_leave_a_margin (onload example_page) (Q2R 0)
                         (Fin 0) C))).
Defined.

(** X28: [redraw] returns on every sheet but one.  With the central
    latitude read and a window wider than nothing, the loop over the
    meridians ends if and only if the sheet is not exactly 80 pixels high;
    on a sheet of 80 pixels both scales are zero, the bound of the loop is
    +Infinity and the handler never returns. *)
Theorem redraw_returns_unless_80_pixels (s : session) (c : R) :
  _ctrLat s = Some (Fin c) -> Rabs c < 90 -> (0 < innerWidth (dom s))%Z ->
  painted (redraw s)
  <-> (innerHeight (dom s) - header_clientHeight (dom s)
       - footer_clientHeight (dom s))%Z <> 80%Z.
Proof.
  intros C B W.
  destruct (frame_fin s C) as (F1 & _ & F3 & _).
  pose proof (@cos_latitude _ B) as Hc.
  set (hz := (innerHeight (dom s) - header_clientHeight (dom s)
              - footer_clientHeight (dom s))%Z) in *.
  assert (Wr : 0 < IZR (innerWidth (dom s))) by (apply IZR_lt; exact W).
  unfold painted, meridians.
  replace (_sheetSize (redraw s)) with (_sheetSize (setCanvasDimensions s)) by reflexivity.
  replace (_lonScale (redraw s)) with (_lonScale (setCanvasDimensions s)) by reflexivity.
  rewrite F1, F3. cbn [width].
  split.
  - intros P E. apply P. rewrite E.
    unfold ndiv at 2. rewrite is_zero_true by (simpl; lra).
    rewrite is_zero_false, is_neg_false by lra.
    cbn [ndiv]. rewrite is_neg_false by lra. reflexivity.
  - intros N.
    assert (Nr : IZR hz <> 80) by (intros E; apply N, eq_IZR; exact E).
    rewrite ndiv_fin by (apply Rmult_integral_contrapositive_currified; [lra|exact Hc]).
    rewrite ndiv_fin by lra. discriminate.
Qed.

Lemma redraw_returns_unless_80_pixels_witness :
  painted (redraw (onload example_page))
  <-> (innerHeight (dom (onload example_page))
       - header_clientHeight (dom (onload example_page))
       - footer_clientHeight (dom (onload example_page)))%Z <> 80%Z.
Proof.
  destruct onload_example as (_ & (C & _) & _).
  apply (@redraw_returns_unless_80_pixels (onload example_page) (Q2R 0) C).
  - rewrite Q2R_0. unfold Rabs. destruct (Rcase_abs 0); lra.
  - vm_compute. reflexivity.
Defined.

End Grid.

Section Drawing.
Local Open Scope R_scope.

Variable s : session.
Variables w h cla clo ls lns : R.
Hypothesis sheet : _sheetSize s = {| width := Fin w; height := Fin h |}.
Hypothesis center_lat : _ctrLat s = Some (Fin cla).
Hypothesis center_lon : _ctrLon s = Some (Fin clo).
Hypothesis scale_lat : _latScale s = Fin ls.
Hypothesis scale_lon : _lonScale s = Fin lns.

Lemma screenLOP_fin a Zn lat lon :
  let x00 := w / 2 + (lon + - clo) * lns in
  let y00 := h / 2 + (cla + - lat) * ls in
  let x01 := x00 + sin Zn * (a / 60 * ls) in
  let y01 := y00 + - (cos Zn * (a / 60 * ls)) in
  let across := Zn + - (PI / 2) in
  screenLOP s (fix_line a Zn lat lon)
  = {| Slop.x00 := Fin x00; Slop.y00 := Fin y00;
       Slop.x01 := Fin x01; Slop.y01 := Fin y01;
       Slop.x10 := Fin (x01 + sin across * w);
       Slop.y10 := Fin (y01 + - (cos across * w));
       Slop.x11 := Fin (x01 + - (sin across * w));
       Slop.y11 := Fin (y01 + cos across * w) |}.
Proof.
  cbv zeta. unfold screenLOP, fix_line.
  cbn [Lop.a Lop.Zn Lop.aLat Lop.aLon toNum].
  rewrite (@project_fin s w h cla clo ls lns sheet center_lat center_lon
             scale_lat scale_lon).
  rewrite sheet, scale_lat. cbn [Pt.x Pt.y width].
  rewrite !ndiv_fin by lra. cbn [nmul nsin ncos nadd nsub nneg].
  reflexivity.
Qed.

End Drawing.

Section DrawingTheorems.
Local Open Scope R_scope.

(** X29: how a line of position is drawn.  The line drawn is centered on
    the foot, at right angles to the leg from the assumed position to the
    foot; the leg is as long as the distance, one minute of latitude to the
    mile, and the line reaches the width of the sheet either side of the
    foot. *)
Theorem drawn_line_is_square_to_the_azimuth
        (s : session) (w h cla clo ls lns a Zn lat lon : R) :
  _sheetSize s = {| width := Fin w; height := Fin h |} ->
  _ctrLat s = Some (Fin cla) -> _ctrLon s = Some (Fin clo) ->
  _latScale s = Fin ls -> _lonScale s = Fin lns ->
  exists x00 y00 x01 y01 x10 y10 x11 y11,
    screenLOP s (fix_line a Zn lat lon)
    = {| Slop.x00 := Fin x00; Slop.y00 := Fin y00;
         Slop.x01 := Fin x01; Slop.y01 := Fin y01;
         Slop.x10 := Fin x10; Slop.y10 := Fin y10;
         Slop.x11 := Fin x11; Slop.y11 := Fin y11 |}
    /\ x10 + x11 = 2 * x01 /\ y10 + y11 = 2 * y01
    /\ (x01 - x00) * (x11 - x10) + (y01 - y00) * (y11 - y10) = 0
    /\ (x01 - x00) * (x01 - x00) + (y01 - y00) * (y01 - y00)
       = (a / 60 * ls) * (a / 60 * ls)
    /\ (x10 - x01) * (x10 - x01) + (y10 - y01) * (y10 - y01) = w * w.
Proof.
  intros S C1 C2 L1 L2.
  rewrite (@screenLOP_fin s w h cla clo ls lns S C1 C2 L1 L2 a Zn lat lon).
  cbv zeta. do 8 eexists. split; [reflexivity|].
  assert (SA : sin (Zn + - (PI / 2)) = - cos Zn).
  { rewrite sin_plus, cos_neg, sin_neg, cos_PI2, sin_PI2. ring. }
  assert (CA : cos (Zn + - (PI / 2)) = sin Zn).
  { rewrite cos_plus, cos_neg, sin_neg, cos_PI2, sin_PI2. ring. }
  rewrite SA, CA.
  pose proof (sin2_cos2 Zn) as T. unfold Rsqr in T.
  set (sz := sin Zn) in *. set (cz := cos Zn) in *.
  repeat split; try ring.
  - replace ((w / 2 + (lon + - clo) * lns + sz * (a / 60 * ls)
              - (w / 2 + (lon + - clo) * lns))
             * (w / 2 + (lon + - clo) * lns + sz * (a / 60 * ls)
                - (w / 2 + (lon + - clo) * lns))
             + (h / 2 + (cla + - lat) * ls + - (cz * (a / 60 * ls))
                - (h / 2 + (cla + - lat) * ls))
               * (h / 2 + (cla + - lat) * ls + - (cz * (a / 60 * ls))
                  - (h / 2 + (cla + - lat) * ls)))
      with ((sz * sz + cz * cz) * (a / 60 * ls * (a / 60 * ls))) by ring.
    rewrite T. ring.
  - match goal with
    | |- ?l = _ => replace l with ((sz * sz + cz * cz) * (w * w)) by ring
    end.
    rewrite T. ring.
Qed.

End DrawingTheorems.

Section Foot.
Local Open Scope R_scope.

Lemma drawn_line_is_square_to_the_azimuth_witness :
  exists x00 y00 x01 y01 x10 y10 x11 y11,
    screenLOP (onload example_page) (fix_line 30 (PI / 4) 1 (-1))
    = {| Slop.x00 := Fin x00; Slop.y00 := Fin y00;
         Slop.x01 := Fin x01; Slop.y01 := Fin y01;
         Slop.x10 := Fin x10; Slop.y10 := Fin y10;
         Slop.x11 := Fin x11; Slop.y11 := Fin y11 |}
    /\ x10 + x11 = 2 * x01 /\ y10 + y11 = 2 * y01
    /\ (x01 - x00) * (x11 - x10) + (y01 - y00) * (y11 - y10) = 0
    /\ (x01 - x00) * (x01 - x00) + (y01 - y00) * (y01 - y00)
       = (30 / 60 * 200) * (30 / 60 * 200)
    /\ (x10 - x01) * (x10 - x01) + (y10 - y01) * (y10 - y01) = 1000 * 1000.
Proof.
  destruct onload_example as (_ & (C1 & C2 & _) & S & L1 & L2).
  exact (@drawn_line_is_square_to_the_azimuth (onload example_page)
           1000 880 (Q2R 0) (Q2R 0) 200 200 30 (PI / 4) 1 (-1) S C1 C2 L1 L2).
Defined.

(** X30: the foot the engine works with against the foot that is drawn.
    The projection of [rhumbPoint] at the distance [a] along the azimuth is
    at the height of the drawn foot, but its offset from the assumed
    position across the sheet is the drawn one times the cosine of the
    central latitude over the cosine of the assumed latitude: the two feet
    are one point when the assumed latitude is the central latitude. *)
Theorem projected_foot (s : session) (w h cla clo ls a Zn lat lon : R) :
  _sheetSize s = {| width := Fin w; height := Fin h |} ->
  _ctrLat s = Some (Fin cla) -> _ctrLon s = Some (Fin clo) ->
  _latScale s = Fin ls -> _lonScale s = Fin (ls * cos (cla / 180 * PI)) ->
  Rabs lat < 90 ->
  let foot := rhumbPoint (Fin lat) (Fin lon) (Fin Zn) (Fin a) in
  let drawn := screenLOP s (fix_line a Zn lat lon) in
  exists x00 x01 y01,
    Slop.x00 drawn = Fin x00 /\ Slop.x01 drawn = Fin x01 /\ Slop.y01 drawn = Fin y01
    /\ project s (Geo.lat foot) (Geo.lon foot)
       = {| Pt.x := Fin (x00 + (x01 - x00)
                               * (cos (cla / 180 * PI) / cos (lat / 180 * PI)));
            Pt.y := Fin y01 |}
    /\ (lat = cla ->
        project s (Geo.lat foot) (Geo.lon foot)
        = {| Pt.x := Slop.x01 drawn; Pt.y := Slop.y01 drawn |}).
Proof.
  intros S C1 C2 L1 L2 B foot drawn. subst foot drawn.
  pose proof (@cos_latitude _ B) as Hc.
  rewrite (@screenLOP_fin s w h cla clo ls _ S C1 C2 L1 L2 a Zn lat lon).
  rewrite rhumbPoint_fin by exact Hc. cbn [Geo.lat Geo.lon].
  rewrite (@project_fin s w h cla clo ls _ S C1 C2 L1 L2).
  cbv zeta. cbn [Slop.x00 Slop.x01 Slop.y01].
  do 3 eexists. split; [reflexivity|]. split; [reflexivity|]. split; [reflexivity|].
  split.
  - apply f_equal2; apply (f_equal Fin); field; exact Hc.
  - intros ->. apply f_equal2; apply (f_equal Fin); field; exact Hc.
Qed.

Lemma projected_foot_witness :
  let foot := rhumbPoint (Fin 0) (Fin (-1)) (Fin (PI / 4)) (Fin 30) in
  let drawn := screenLOP (onload example_page) (fix_line 30 (PI / 4) 0 (-1)) in
  exists x00 x01 y01,
    Slop.x00 drawn = Fin x00 /\ Slop.x01 drawn = Fin x01 /\ Slop.y01 drawn = Fin y01
    /\ project (onload example_page) (Geo.lat foot) (Geo.lon foot)
       = {| Pt.x := Fin (x00 + (x01 - x00)
                               * (cos (Q2R 0 / 180 * PI) / cos (0 / 180 * PI)));
            Pt.y := Fin y01 |}
    /\ (0 = Q2R 0 ->
        project (onload example_page) (Geo.lat foot) (Geo.lon foot)
        = {| Pt.x := Slop.x01 drawn; Pt.y := Slop.y01 drawn |}).
Proof.
  destruct onload_example as (_ & (C1 & C2 & _) & S & L1 & L2).
  apply (@projected_foot (onload example_page) 1000 880 (Q2R 0) (Q2R 0) 200
           30 (PI / 4) 0 (-1) S C1 C2 L1).
  - rewrite L2. apply (f_equal Fin). rewrite Q2R_0.
    replace (0 / 180 * PI) with 0 by field. rewrite cos_0. ring.
  - unfold Rabs. destruct (Rcase_abs 0); lra.
Defined.

End Foot.
